(** * Regeneration dispatch, prompt construction and controls

    A shallow embedding of [src/components/Controls.tsx] and
    [src/types.ts].  The second document of [Controls.tsx] is the
    image-regeneration service: the style catalogue, the aspect-ratio
    mapper, the two model adapters, the dispatcher [regenerateImage],
    its sibling [editImage], and the text operations [translateText]
    and [describeImage].  The first document is the component
    [Controls] with its [ModelOption].

    Conventions of the embedding:
    - a JavaScript [string] is a [String.string]; every needle the code
      searches for is plain ASCII, so searching the bytes of the UTF-8
      form finds the same occurrences as searching UTF-16 code units;
    - a JavaScript [number] is an IEEE-754 binary64 value, a
      [spec_float] operated on with precision 53 and [emax = 1024];
    - an optional property ([x?: T], [undefined]) is an [option];
    - [async] functions are run to completion: a promise that rejects
      is a computation that throws;
    - the remote service, the environment variable [API_KEY] and the
      console are explicit: the first two are read from a [World], the
      calls made and the lines logged are accumulated in a [Trace]. *)

From Stdlib Require Import String Ascii List Bool ZArith QArith Qabs Lia Lqa.
From Stdlib Require Import SpecFloat.
Import ListNotations.

Close Scope Q_scope.
Local Open Scope string_scope.

(** ** JavaScript strings *)

Module Js.

(** [s.startsWith(p)]. *)
Fixpoint startsWith (p s : string) : bool :=
  match p with
  | EmptyString => true
  | String a p' =>
      match s with
      | EmptyString => false
      | String b s' => if Ascii.eqb a b then startsWith p' s' else false
      end
  end.

(** [s.includes(needle)]: some suffix of [s] starts with [needle]. *)
Fixpoint includes (s needle : string) : bool :=
  if startsWith needle s then true
  else match s with
       | EmptyString => false
       | String _ s' => includes s' needle
       end.

(** Truthiness of a string: only the empty string is falsy. *)
Definition truthy_string (s : string) : bool :=
  match s with EmptyString => false | String _ _ => true end.

(** Truthiness of an optional string ([undefined] is falsy). *)
Definition truthy (o : option string) : bool :=
  match o with Some s => truthy_string s | None => false end.

(** [a || b] on optional strings. *)
Definition or_else (a b : option string) : option string :=
  if truthy a then a else b.

(** A value interpolated in a template literal. *)
Definition interpolate (o : option string) : string :=
  match o with Some s => s | None => "undefined" end.

(** The one-character string holding a double quote. *)
Definition dquote : string := String (ascii_of_nat 34) EmptyString.

(** [a === 'lit'] where [a] may be [undefined]. *)
Definition strict_eq (o : option string) (lit : string) : bool :=
  match o with Some s => String.eqb s lit | None => false end.

End Js.

(** ** [src/types.ts] *)

(** [ArtStyle] is a string enum: at run time a style is its label, and
    the selector casts an arbitrary string to it. *)
Definition ArtStyle : Type := string.

Module Style.
Definition REALISTIC : ArtStyle := "Hyper-Realistic".
Definition CARTOON : ArtStyle := "Vibrant Cartoon".
Definition THREE_D_PIXAR : ArtStyle := "3D Pixar Style".
Definition ANIME : ArtStyle := "Japanese Anime".
Definition VINTAGE_PHOTO : ArtStyle := "Vintage Sepia Photograph".
Definition CLAYMATION : ArtStyle := "Claymation Stop-motion".
Definition FANTASY_ART : ArtStyle := "Digital Fantasy Art".
Definition NEON_PUNK : ArtStyle := "Neon Punk".

(** The eight members of the enum, in declaration order. *)
Definition named : list ArtStyle :=
  [REALISTIC; CARTOON; THREE_D_PIXAR; ANIME; VINTAGE_PHOTO; CLAYMATION;
   FANTASY_ART; NEON_PUNK].
End Style.

Inductive RegenerationModel : Type := gemini | imagen.

(** The string a [RegenerationModel] is at run time. *)
Definition model_label (m : RegenerationModel) : string :=
  match m with gemini => "gemini" | imagen => "imagen" end.

(** ** Style catalogue *)

Definition getGeminiInstructionalPrompt (style : ArtStyle) : string :=
  if String.eqb style Style.REALISTIC then
    "Recreate this image as an ultra-realistic, photorealistic, high-detail photograph. It should look like it was shot with a professional DSLR camera, with sharp focus and intricate details."
  else if String.eqb style Style.CARTOON then
    "Recreate this image as a vibrant, colorful, bold-lined cartoon illustration in a playful style. Use cel-shading, expressive characters, and clean lines."
  else if String.eqb style Style.THREE_D_PIXAR then
    "Recreate this image in the style of a modern 3D animated film, like those from Pixar. It should have soft lighting, detailed textures, and expressive, rounded characters with a friendly and appealing look."
  else if String.eqb style Style.ANIME then
    "Recreate this image as a beautiful Japanese anime scene, in the style of a critically acclaimed animation studio. It should have detailed background art, cel-shaded characters, and cinematic anime lighting."
  else if String.eqb style Style.VINTAGE_PHOTO then
    "Recreate this image as an authentic-looking vintage sepia photograph from the early 20th century. It should have a grainy texture, faded tones, and soft focus to capture a timeless moment."
  else if String.eqb style Style.CLAYMATION then
    "Recreate this image as a charming claymation stop-motion scene with a handcrafted look. The models should be textured with visible fingerprints in the clay, and have whimsical lighting."
  else if String.eqb style Style.FANTASY_ART then
    "Recreate this image as an epic digital fantasy art painting. It needs ethereal lighting, intricate details, and a mythical atmosphere, in the style of a high-fantasy book cover."
  else if String.eqb style Style.NEON_PUNK then
    "Recreate this image as a neon-drenched, cyberpunk cityscape scene. It should have glowing neon lights, rainy streets with reflections, high-tech gadgets, and a dystopian 'neon punk' aesthetic."
  else
    "Recreate this image in the style of a high-detail, cinematic image with the theme of '" ++ style ++ "'.".

Definition getImagenStyleSuffix (style : ArtStyle) : string :=
  if String.eqb style Style.REALISTIC then
    ", ultra-realistic, photorealistic, 8k, sharp focus, professional DSLR photo."
  else if String.eqb style Style.CARTOON then
    ", vibrant cartoon illustration, bold lines, cel-shaded, playful style."
  else if String.eqb style Style.THREE_D_PIXAR then
    ", in the style of a 3D Pixar animated film, soft lighting, detailed textures, expressive characters."
  else if String.eqb style Style.ANIME then
    ", beautiful Japanese anime scene, style of a top animation studio, cinematic anime lighting."
  else if String.eqb style Style.VINTAGE_PHOTO then
    ", authentic vintage sepia photograph, grainy texture, faded tones, early 20th century."
  else if String.eqb style Style.CLAYMATION then
    ", charming claymation stop-motion scene, handcrafted look, visible fingerprints in the clay."
  else if String.eqb style Style.FANTASY_ART then
    ", epic digital fantasy art painting, ethereal lighting, intricate details, mythical atmosphere."
  else if String.eqb style Style.NEON_PUNK then
    ", neon-drenched cyberpunk cityscape, glowing neon lights, rainy streets, dystopian aesthetic."
  else
    ", in the style of " ++ style ++ ".".

(** ** JavaScript numbers *)

Module Num.
Definition prec : Z := 53.
Definition emax : Z := 1024.

(** A [number]: binary64, including the zeros, infinities and NaN. *)
Definition number : Type := spec_float.

(** An integer literal of the source text. *)
Definition lit (z : Z) : number := binary_normalize prec emax z 0 false.

Definition sub : number -> number -> number := SFsub prec emax.
Definition div : number -> number -> number := SFdiv prec emax.
Definition abs : number -> number := SFabs.       (* Math.abs *)
Definition ltb : number -> number -> bool := SFltb. (* a < b *)
Definition leb : number -> number -> bool := SFleb. (* a <= b *)

Definition NaN : number := S754_nan.
Definition neg_infinity : number := S754_infinity true.
Definition neg_zero : number := S754_zero true.

(** [m * 2^e] as a rational. *)
Definition scaled (m : Z) (e : Z) : Q :=
  match e with
  | Z0 => inject_Z m
  | Zpos p => inject_Z (m * Z.pow_pos 2 p)
  | Zneg p => Qmake m (Pos.pow 2 p)
  end.

(** The smallest exponent of a binary64 number; [2^emin] is the
    smallest positive number. *)
Definition emin : Z := -1074.

(** The magnitude [m * 2^e] counted in units of [2^emin]. *)
Definition units (m : positive) (e : Z) : Z := (Zpos m * 2 ^ (e - emin))%Z.

(** [M / 2^k] rounded to the nearest integer, ties to even. *)
Definition rne (M k : Z) : Z :=
  (let q := M / 2 ^ k in
   match Z.compare (2 * (M mod 2 ^ k)) (2 ^ k) with
   | Lt => q
   | Eq => if Z.even q then q else q + 1
   | Gt => q + 1
   end)%Z.

(** The number of low bits that [W] units have beyond 53. *)
Definition excess (W : Z) : Z := Z.max (Z.log2 W - 52) 0%Z.

(** The binary64 number nearest to [W] units, for [W > 0] below the
    overflow threshold: what IEEE-754 rounding to nearest gives. *)
Definition round_units (W : Z) : number :=
  (let n := excess W in
   let q := rne W n in
   if q =? 2 ^ 53 then S754_finite false (Z.to_pos (2 ^ 52)) (emin + n + 1)
   else S754_finite false (Z.to_pos q) (emin + n))%Z.

(** The computed magnitude of an exact difference of [D] units. *)
Definition round_abs (D : Z) : number :=
  if (D =? 0)%Z then S754_zero false else round_units (Z.abs D).

(** The rational a finite number stands for; nothing for the
    infinities and NaN. *)
Definition to_Q (x : number) : option Q :=
  match x with
  | S754_zero _ => Some 0%Q
  | S754_finite s m e => Some (scaled (cond_Zopp s (Zpos m)) e)
  | S754_infinity _ | S754_nan => None
  end.
End Num.

(** ** Aspect-ratio mapper *)

(** The string-literal union ['1:1' | '3:4' | '4:3' | '9:16' | '16:9']. *)
Inductive ImagenAspect : Type := R1_1 | R4_3 | R3_4 | R16_9 | R9_16.

Definition aspect_label (k : ImagenAspect) : string :=
  match k with
  | R1_1 => "1:1" | R4_3 => "4:3" | R3_4 => "3:4"
  | R16_9 => "16:9" | R9_16 => "9:16"
  end.

Definition aspect_eqb (a b : ImagenAspect) : bool :=
  match a, b with
  | R1_1, R1_1 | R4_3, R4_3 | R3_4, R3_4 | R16_9, R16_9 | R9_16, R9_16 => true
  | _, _ => false
  end.

(** The object literal [supportedRatios]; its keys are not array
    indices, so [for ... in] visits them in the order written. *)
Definition supportedRatios : list (ImagenAspect * Num.number) :=
  [ (R1_1, Num.lit 1);
    (R4_3, Num.div (Num.lit 4) (Num.lit 3));
    (R3_4, Num.div (Num.lit 3) (Num.lit 4));
    (R16_9, Num.div (Num.lit 16) (Num.lit 9));
    (R9_16, Num.div (Num.lit 9) (Num.lit 16)) ].

(** [supportedRatios[key]]. *)
Fixpoint ratio_get (tbl : list (ImagenAspect * Num.number)) (key : ImagenAspect)
  : Num.number :=
  match tbl with
  | [] => Num.NaN
  | (k, v) :: rest => if aspect_eqb k key then v else ratio_get rest key
  end.

(** [Math.abs(ratio - supportedRatios[key])]. *)
Definition diff_to (ratio : Num.number) (key : ImagenAspect) : Num.number :=
  Num.abs (Num.sub ratio (ratio_get supportedRatios key)).

(** One turn of the [for ... in] loop on the pair [(closest, minDiff)]. *)
Definition ratio_step (ratio : Num.number)
    (acc : ImagenAspect * Num.number) (key : ImagenAspect)
  : ImagenAspect * Num.number :=
  let diff := diff_to ratio key in
  if Num.ltb diff (snd acc) then (key, diff) else acc.

Definition mapAspectRatioToImagen (ratio : Num.number) : ImagenAspect :=
  let closest := R1_1 in
  let minDiff := diff_to ratio closest in
  fst (fold_left (ratio_step ratio) (map fst supportedRatios) (closest, minDiff)).

(** The binary64 numbers the five entries of [supportedRatios]
    evaluate to, as mantissa and exponent. *)
Definition ref_mantissa (k : ImagenAspect) : positive :=
  match k with
  | R1_1 => 4503599627370496
  | R4_3 => 6004799503160661
  | R3_4 => 6755399441055744
  | R16_9 => 8006399337547548
  | R9_16 => 5066549580791808
  end.

Definition ref_exponent (k : ImagenAspect) : Z :=
  match k with
  | R1_1 | R4_3 | R16_9 => -52
  | R3_4 | R9_16 => -53
  end.

(** The same numbers in units of [2^emin]. *)
Definition ref_units (k : ImagenAspect) : Z :=
  Num.units (ref_mantissa k) (ref_exponent k).

(** The same numbers counted in steps of [2^-53]. *)
Definition ref_grid (k : ImagenAspect) : Z :=
  match k with
  | R1_1 => 9007199254740992
  | R4_3 => 12009599006321322
  | R3_4 => 6755399441055744
  | R16_9 => 16012798675095096
  | R9_16 => 5066549580791808
  end.

(** The value the specification gives each token, as an exact rational. *)
Definition real_value (k : ImagenAspect) : Q :=
  match k with
  | R1_1 => 1 | R4_3 => 4 # 3 | R3_4 => 3 # 4 | R16_9 => 16 # 9 | R9_16 => 9 # 16
  end%Q.

(** Position of a token in the enumeration of [supportedRatios]. *)
Definition aspect_index (k : ImagenAspect) : nat :=
  match k with R1_1 => 0 | R4_3 => 1 | R3_4 => 2 | R16_9 => 3 | R9_16 => 4 end.

Definition all_aspects : list ImagenAspect := map fst supportedRatios.

(** The distance the specification measures: exact, on the rationals. *)
Definition real_diff (x : Q) (k : ImagenAspect) : Q :=
  Qabs (x - real_value k)%Q.

(** For the ratio [W / D]: token [a] is at most as far from it as
    token [b], the two exact distances being cleared of denominators. *)
Definition nearer_or_equal (W D : Z) (a b : ImagenAspect) : Prop :=
  (Z.abs (W * Zpos (Qden (real_value a)) - Qnum (real_value a) * D)
     * Zpos (Qden (real_value b))
   <= Z.abs (W * Zpos (Qden (real_value b)) - Qnum (real_value b) * D)
     * Zpos (Qden (real_value a)))%Z.

(** Numbers used as examples. *)
Module Ratio.
Definition one : Num.number := Num.lit 1.
Definition sixteen_ninths : Num.number := Num.div (Num.lit 16) (Num.lit 9).
Definition three_quarters : Num.number := Num.div (Num.lit 3) (Num.lit 4).
(** 0.65625, half way between 9/16 and 3/4. *)
Definition twentyone_32nds : Num.number := Num.div (Num.lit 21) (Num.lit 32).
(** 0.875, half way between 3/4 and 1. *)
Definition seven_eighths : Num.number := Num.div (Num.lit 7) (Num.lit 8).
(** 2^60 and its opposite. *)
Definition two_pow_60 : Num.number := S754_finite false 4503599627370496 8.
Definition minus_two_pow_60 : Num.number := S754_finite true 4503599627370496 8.
(** 2^49 and -2^48. *)
Definition two_pow_49 : Num.number := S754_finite false 4503599627370496 (-3).
Definition minus_two_pow_48 : Num.number := S754_finite true 4503599627370496 (-4).
Definition zero : Num.number := Num.lit 0.
Definition minus_thousand : Num.number := Num.lit (-1000).
End Ratio.

(** ** The remote service: requests and responses

    The shapes of [@google/genai] the code reads and writes.  Response
    fields are optional throughout, and reasons are strings. *)

Inductive Modality : Type := IMAGE | TEXT.

Record Blob : Type := { data : option string; mimeType : option string }.

Record Part : Type := { inlineData : option Blob; text : option string }.

Record Content : Type := { parts : option (list Part) }.

Record Candidate : Type :=
  { content : option Content; finishReason : option string }.

Record PromptFeedback : Type := { blockReason : option string }.

Record GenerateContentResponse : Type :=
  { candidates : option (list Candidate);
    promptFeedback : option PromptFeedback }.

Record Image : Type := { imageBytes : option string }.

Record GeneratedImage : Type := { image_of : option Image }.

Record GenerateImagesResponse : Type :=
  { generatedImages : option (list GeneratedImage);
    imagesPromptFeedback : option PromptFeedback }.

Record GenerateContentParameters : Type :=
  { content_model : string;
    content_parts : list Part;
    responseModalities : list Modality }.

Record GenerateImagesParameters : Type :=
  { images_model : string;
    images_prompt : string;
    numberOfImages : nat;
    outputMimeType : string;
    aspectRatio_token : string }.

(** A network call, as seen by the transport. *)
Inductive Call : Type :=
| CallGenerateContent (apiKey : string) (req : GenerateContentParameters)
| CallGenerateImages (apiKey : string) (req : GenerateImagesParameters).

(** ** Thrown values, world and trace *)

(** What a [catch] clause may receive: an [Error] with its message, or
    any other value (for which [instanceof Error] is false). *)
Inductive Thrown : Type :=
| JsError (message : string)
| JsOther (value : string).

(** What the code reads from outside: the environment variable and the
    behaviour of the two remote operations (each either rejects with a
    thrown value or resolves to a response). *)
Record World : Type :=
  { API_KEY : option string;
    remote_generateContent :
      string -> GenerateContentParameters -> Thrown + GenerateContentResponse;
    remote_generateImages :
      string -> GenerateImagesParameters -> Thrown + GenerateImagesResponse }.

(** What the code leaves outside: the network calls made and the
    [console.error] lines, oldest first. *)
Record Trace : Type :=
  { calls : list Call; console : list (string * Thrown) }.

Definition no_trace : Trace := {| calls := []; console := [] |}.

(** Computations that may throw and that extend the trace; the trace
    survives a throw. *)
Definition M (A : Type) : Type := Trace -> (Thrown + A) * Trace.

Definition ret {A} (a : A) : M A := fun t => (inr a, t).

Definition throw {A} (e : Thrown) : M A := fun t => (inl e, t).

Definition bind {A B} (c : M A) (k : A -> M B) : M B :=
  fun t => match c t with
           | (inl e, t') => (inl e, t')
           | (inr a, t') => k a t'
           end.

(** [try { c } catch (error) { h error }]. *)
Definition try_catch {A} (c : M A) (h : Thrown -> M A) : M A :=
  fun t => match c t with
           | (inl e, t') => h e t'
           | (inr a, t') => (inr a, t')
           end.

Notation "x <- c ;; k" := (bind c (fun x => k))
  (at level 61, c at next level, right associativity).
Notation "c ;;; k" := (bind c (fun _ => k))
  (at level 61, right associativity).

Definition console_error (line : string) (e : Thrown) : M unit :=
  fun t => (inr tt, {| calls := calls t; console := console t ++ [(line, e)] |}).

Definition record_call (c : Call) : M unit :=
  fun t => (inr tt, {| calls := calls t ++ [c]; console := console t |}).

Definition lift_remote {A} (r : Thrown + A) : M A :=
  match r with inl e => throw e | inr a => ret a end.

(** [await ai.models.generateContent(req)] on a client built with [key]. *)
Definition generateContent (w : World) (key : string)
    (req : GenerateContentParameters) : M GenerateContentResponse :=
  record_call (CallGenerateContent key req) ;;;
  lift_remote (remote_generateContent w key req).

(** [await ai.models.generateImages(req)] on a client built with [key]. *)
Definition generateImages (w : World) (key : string)
    (req : GenerateImagesParameters) : M GenerateImagesResponse :=
  record_call (CallGenerateImages key req) ;;;
  lift_remote (remote_generateImages w key req).

(** The client is its API key. *)
Definition getAiClient (w : World) : M string :=
  match API_KEY w with
  | Some apiKey =>
      if Js.truthy_string apiKey then ret apiKey
      else throw (JsError "Gemini API key is not set. Please configure the API_KEY environment variable.")
  | None =>
      throw (JsError "Gemini API key is not set. Please configure the API_KEY environment variable.")
  end.

(** ** Adapters *)

(** The value both operations resolve to.  [image] is optional because
    an inline part may lack its [data]. *)
Record Regenerated : Type := { image : option string; prompt : string }.

(** [response.candidates?.[0]]. *)
Definition first_candidate (response : GenerateContentResponse)
  : option Candidate :=
  match candidates response with
  | Some (c :: _) => Some c
  | _ => None
  end.

(** [candidate?.content?.parts]. *)
Definition candidate_parts (candidate : option Candidate) : option (list Part) :=
  match candidate with
  | Some c => match content c with Some ct => parts ct | None => None end
  | None => None
  end.

(** [candidate?.finishReason]. *)
Definition candidate_finishReason (candidate : option Candidate) : option string :=
  match candidate with Some c => finishReason c | None => None end.

(** [response.promptFeedback?.blockReason]. *)
Definition feedback_blockReason (fb : option PromptFeedback) : option string :=
  match fb with Some f => blockReason f | None => None end.

(** The [for ... of] loop over the parts: the first part whose
    [inlineData] is present ends it. *)
Fixpoint first_inlineData (ps : list Part) : option Blob :=
  match ps with
  | [] => None
  | part :: rest =>
      match inlineData part with
      | Some b => Some b
      | None => first_inlineData rest
      end
  end.

(** The [if] that guards the loop, with the loop inside: the inline
    data on which the loop returns, if it does. *)
Definition scan_candidate (candidate : option Candidate) : option Blob :=
  match candidate_parts candidate with
  | Some ps => first_inlineData ps
  | None => None
  end.

(** The condition guarding the "blocked" throw of the two
    image-conditioned operations. *)
Definition block_signal (fr br : option string) : bool :=
  Js.strict_eq fr "SAFETY" || Js.strict_eq fr "RECITATION" || Js.truthy br.

(** Lines 297-311: what [regenerateImageWithGemini] does with the
    response once it has arrived. *)
Definition gemini_response (finalPrompt : string)
    (response : GenerateContentResponse) : M Regenerated :=
  let candidate := first_candidate response in
  match scan_candidate candidate with
  | Some b => ret {| image := data b; prompt := finalPrompt |}
  | None =>
      let fr := candidate_finishReason candidate in
      let br := feedback_blockReason (promptFeedback response) in
      if block_signal fr br then
        throw (JsError ("Image regeneration was blocked. Reason: "
                        ++ Js.interpolate (Js.or_else fr br)
                        ++ ". Please try a different style or frame."))
      else throw (JsError "No image was generated by Gemini.")
  end.

Definition gemini_request (base64Data finalPrompt : string)
  : GenerateContentParameters :=
  {| content_model := "gemini-2.5-flash-image-preview";
     content_parts :=
       [ {| inlineData := Some {| data := Some base64Data;
                                  mimeType := Some "image/jpeg" |};
            text := None |};
         {| inlineData := None; text := Some finalPrompt |} ];
     responseModalities := [IMAGE; TEXT] |}.

Definition regenerateImageWithGemini (w : World)
    (base64Data : string) (style : ArtStyle) : M Regenerated :=
  ai <- getAiClient w ;;
  let finalPrompt := getGeminiInstructionalPrompt style in
  response <- generateContent w ai (gemini_request base64Data finalPrompt) ;;
  gemini_response finalPrompt response.

(** [response.generatedImages?.[0]]. *)
Definition first_generated (response : GenerateImagesResponse)
  : option GeneratedImage :=
  match generatedImages response with
  | Some (g :: _) => Some g
  | _ => None
  end.

(** [generatedImage?.image?.imageBytes]. *)
Definition generated_bytes (g : option GeneratedImage) : option string :=
  match g with
  | Some gi => match image_of gi with Some im => imageBytes im | None => None end
  | None => None
  end.

Definition imagen_request (finalPrompt : string) (aspectRatio : Num.number)
  : GenerateImagesParameters :=
  {| images_model := "imagen-4.0-generate-001";
     images_prompt := finalPrompt;
     numberOfImages := 1;
     outputMimeType := "image/jpeg";
     aspectRatio_token := aspect_label (mapAspectRatioToImagen aspectRatio) |}.

(** Lines 339-349: what [generateImageWithImagen] does with the
    response once it has arrived. *)
Definition imagen_response (finalPrompt : string)
    (response : GenerateImagesResponse) : M Regenerated :=
  let bytes := generated_bytes (first_generated response) in
  if Js.truthy bytes then ret {| image := bytes; prompt := finalPrompt |}
  else
    let br := feedback_blockReason (imagesPromptFeedback response) in
    if Js.truthy br then
      throw (JsError ("Image generation was blocked. Reason: "
                      ++ Js.interpolate br
                      ++ ". Please try a different frame."))
    else throw (JsError "No image was generated by Imagen.").

Definition generateImageWithImagen (w : World)
    (basePrompt : string) (style : ArtStyle) (aspectRatio : Num.number)
  : M Regenerated :=
  ai <- getAiClient w ;;
  let finalPrompt := basePrompt ++ getImagenStyleSuffix style in
  response <- generateImages w ai (imagen_request finalPrompt aspectRatio) ;;
  imagen_response finalPrompt response.

(** ** Dispatcher *)

Record RegenerateOptions : Type :=
  { model : RegenerationModel;
    style : ArtStyle;
    aspectRatio : Num.number;
    base64Data : option string;
    prompt_opt : option string }.

(** The body of the [try] block of [regenerateImage]. *)
Definition regenerateImage_try (w : World) (options : RegenerateOptions)
  : M Regenerated :=
  match model options with
  | imagen =>
      match prompt_opt options with
      | Some p =>
          if Js.truthy_string p
          then generateImageWithImagen w p (style options) (aspectRatio options)
          else throw (JsError "A text prompt is required for the Imagen model.")
      | None => throw (JsError "A text prompt is required for the Imagen model.")
      end
  | gemini =>
      match base64Data options with
      | Some d =>
          if Js.truthy_string d
          then regenerateImageWithGemini w d (style options)
          else throw (JsError "Base64 image data is required for the Gemini model.")
      | None => throw (JsError "Base64 image data is required for the Gemini model.")
      end
  end.

(** The [catch] clause of [regenerateImage]. *)
Definition regenerateImage_catch (m : RegenerationModel) (error : Thrown)
  : M Regenerated :=
  console_error ("Error calling " ++ model_label m ++ " API for regeneration:") error ;;;
  match error with
  | JsError message =>
      if Js.includes message "API key not valid" then
        throw (JsError "Your Gemini API key is not valid. Please check your configuration.")
      else if Js.includes message "429" || Js.includes message "RESOURCE_EXHAUSTED" then
        throw (JsError "API rate limit or quota exceeded. Please try again later.")
      else if Js.includes message "blocked" then
        throw error
      else
        throw (JsError ("Failed to regenerate image with " ++ model_label m
                        ++ ". Check the console for details."))
  | JsOther _ =>
      throw (JsError ("Failed to regenerate image with " ++ model_label m
                      ++ ". Check the console for details."))
  end.

Definition regenerateImage (w : World) (options : RegenerateOptions)
  : M Regenerated :=
  try_catch (regenerateImage_try w options)
            (regenerateImage_catch (model options)).

(** ** [editImage] *)

Definition edit_request (base64Data prompt : string)
  : GenerateContentParameters :=
  {| content_model := "gemini-2.5-flash-image-preview";
     content_parts :=
       [ {| inlineData := Some {| data := Some base64Data;
                                  mimeType := Some "image/jpeg" |};
            text := None |};
         {| inlineData := None; text := Some prompt |} ];
     responseModalities := [IMAGE; TEXT] |}.

(** Lines 433-450: what [editImage] does with the response. *)
Definition edit_response (prompt : string)
    (response : GenerateContentResponse) : M Regenerated :=
  let candidate := first_candidate response in
  match scan_candidate candidate with
  | Some b =>
      ret {| image := data b;
             prompt := "Edited with user prompt: " ++ Js.dquote ++ prompt ++ Js.dquote |}
  | None =>
      let fr := candidate_finishReason candidate in
      let br := feedback_blockReason (promptFeedback response) in
      if block_signal fr br then
        throw (JsError ("Image editing was blocked. Reason: "
                        ++ Js.interpolate (Js.or_else fr br)
                        ++ ". Please modify your prompt and try again."))
      else throw (JsError "No image was generated in the API response for editing.")
  end.

(** The body of the [try] block of [editImage]. *)
Definition editImage_try (w : World) (base64Data prompt : string)
  : M Regenerated :=
  ai <- getAiClient w ;;
  response <- generateContent w ai (edit_request base64Data prompt) ;;
  edit_response prompt response.

(** The [catch] clause of [editImage]. *)
Definition editImage_catch (error : Thrown) : M Regenerated :=
  console_error "Error calling Gemini API for editing:" error ;;;
  match error with
  | JsError message =>
      if Js.includes message "API key not valid" then
        throw (JsError "Your Gemini API key is not valid. Please check your configuration.")
      else if Js.includes message "429" || Js.includes message "RESOURCE_EXHAUSTED" then
        throw (JsError "API rate limit or quota exceeded. Please try again later.")
      else if Js.includes message "blocked" then
        throw error
      else
        throw (JsError "Failed to edit image with Gemini. Check the console for details.")
  | JsOther _ =>
      throw (JsError "Failed to edit image with Gemini. Check the console for details.")
  end.

Definition editImage (w : World) (base64Data prompt : string) : M Regenerated :=
  try_catch (editImage_try w base64Data prompt) editImage_catch.

(** ** The failure categories of the specification

    The code has no error classes: a category is recognised by the
    message of the thrown [Error]. *)

Definition invalid_credentials_error : Thrown :=
  JsError "Your Gemini API key is not valid. Please check your configuration.".

Definition rate_limited_error : Thrown :=
  JsError "API rate limit or quota exceeded. Please try again later.".

Definition unknown_failure_error (m : RegenerationModel) : Thrown :=
  JsError ("Failed to regenerate image with " ++ model_label m
           ++ ". Check the console for details.").

Definition edit_failure_error : Thrown :=
  JsError "Failed to edit image with Gemini. Check the console for details.".

(** [e] is an [Error] whose message contains [needle]. *)
Definition mentions (e : Thrown) (needle : string) : bool :=
  match e with JsError msg => Js.includes msg needle | JsOther _ => false end.

Definition is_blocked (e : Thrown) : bool := mentions e "blocked".

Definition is_credentials_signal (e : Thrown) : bool :=
  mentions e "API key not valid".

Definition is_rate_signal (e : Thrown) : bool :=
  mentions e "429" || mentions e "RESOURCE_EXHAUSTED".

Inductive Category : Type :=
| Blocked | RateLimited | InvalidCredentials | UnknownFailure.

(** What it means for the error that leaves [regenerateImage] under
    model [m] to belong to a category. *)
Definition in_category (m : RegenerationModel) (e : Thrown) (c : Category) : Prop :=
  match c with
  | Blocked => is_blocked e = true
  | RateLimited => e = rate_limited_error
  | InvalidCredentials => e = invalid_credentials_error
  | UnknownFailure => e = unknown_failure_error m
  end.

(** The trace after the [catch] clause of [regenerateImage] logged [e]. *)
Definition logged (m : RegenerationModel) (e : Thrown) (t : Trace) : Trace :=
  {| calls := calls t;
     console := console t
       ++ [("Error calling " ++ model_label m ++ " API for regeneration:", e)] |}.

(** The label [editImage] returns in place of the prompt. *)
Definition edit_record (prompt : string) : string :=
  "Edited with user prompt: " ++ Js.dquote ++ prompt ++ Js.dquote.

(** ** Reading traces and messages *)

Module Frame.

(** [c] is one of the characters of [s]. *)
Fixpoint occurs (c : ascii) (s : string) : bool :=
  match s with
  | EmptyString => false
  | String a s' => Ascii.eqb a c || occurs c s'
  end.

(** [p] and [b] agree as far as the shorter of them goes. *)
Fixpoint compatible (p b : string) : bool :=
  match p, b with
  | String a p', String c b' => Ascii.eqb a c && compatible p' b'
  | _, _ => true
  end.

(** No occurrence of [p] can begin inside [pre], whatever follows. *)
Fixpoint no_overlap (pre p : string) : bool :=
  match pre with
  | EmptyString => true
  | String _ pre' => negb (compatible p pre) && no_overlap pre' p
  end.

End Frame.

(** The operation of the remote service a call goes to, against the
    model selected. *)
Definition call_for (m : RegenerationModel) (c : Call) : bool :=
  match m, c with
  | gemini, CallGenerateContent _ _ => true
  | imagen, CallGenerateImages _ _ => true
  | _, _ => false
  end.

(** The input the selected model needs is there (and not empty). *)
Definition input_present (o : RegenerateOptions) : bool :=
  match model o with
  | imagen => Js.truthy (prompt_opt o)
  | gemini => Js.truthy (base64Data o)
  end.

(** The API key a call was made with. *)
Definition call_key (c : Call) : string :=
  match c with
  | CallGenerateContent k _ => k
  | CallGenerateImages k _ => k
  end.

(** The error the two [catch] clauses turn a "blocked" message with
    stated reason [reason] into. *)
Definition blocked_outcome (reason : string) (blocked : Thrown) : Thrown :=
  if Js.includes reason "API key not valid" then invalid_credentials_error
  else if Js.includes reason "429" || Js.includes reason "RESOURCE_EXHAUSTED"
       then rate_limited_error
       else blocked.

(** The trace once a call has been recorded. *)
Definition called (c : Call) (t : Trace) : Trace :=
  {| calls := (calls t ++ [c])%list; console := console t |}.

(** The trace once [editImage] has logged [e]. *)
Definition logged_edit (e : Thrown) (t : Trace) : Trace :=
  {| calls := calls t;
     console := (console t ++ [("Error calling Gemini API for editing:", e)])%list |}.

(** ** Sample worlds *)

Module Sample.

(** A transport on which every request fails with [e]. *)
Definition failing (e : Thrown) : World :=
  {| API_KEY := Some "k";
     remote_generateContent := fun _ _ => inl e;
     remote_generateImages := fun _ _ => inl e |}.

(** A transport that answers every request with fixed responses. *)
Definition answering (c : GenerateContentResponse) (i : GenerateImagesResponse)
  : World :=
  {| API_KEY := Some "k";
     remote_generateContent := fun _ _ => inr c;
     remote_generateImages := fun _ _ => inr i |}.

Definition no_images : GenerateImagesResponse :=
  {| generatedImages := None; imagesPromptFeedback := None |}.

Definition one_image (bytes : string) : GenerateImagesResponse :=
  {| generatedImages := Some [ {| image_of := Some {| imageBytes := Some bytes |} |} ];
     imagesPromptFeedback := None |}.

Definition text_part (s : string) : Part :=
  {| inlineData := None; text := Some s |}.

Definition image_part (bytes : string) : Part :=
  {| inlineData := Some {| data := Some bytes; mimeType := Some "image/png" |};
     text := None |}.

(** One candidate with the given parts and finish reason, and the
    given response-level block reason. *)
Definition content_response (ps : list Part) (fr br : option string)
  : GenerateContentResponse :=
  {| candidates := Some [ {| content := Some {| parts := Some ps |};
                             finishReason := fr |} ];
     promptFeedback := Some {| blockReason := br |} |}.

Definition options (m : RegenerationModel) (d p : option string)
  : RegenerateOptions :=
  {| model := m; style := Style.ANIME; aspectRatio := Num.lit 1;
     base64Data := d; prompt_opt := p |}.

(** The image-conditioned backend answers with text only and a
    normal finish reason. *)
Definition text_only : World :=
  answering (content_response [text_part "Sorry."] (Some "STOP") None) no_images.

(** The transport rejects the key; the message also carries a
    request number. *)
Definition bad_key_message : string :=
  "got status: 400. API key not valid. Please pass a valid API key. (request 74291)".

(** The provider withholds the image and states its quota as the
    reason. *)
Definition quota_block : World :=
  answering (content_response [] None (Some "RESOURCE_EXHAUSTED")) no_images.

Definition quota_block_message : string :=
  "Image regeneration was blocked. Reason: RESOURCE_EXHAUSTED. Please try a different style or frame.".

(** A transport error that mentions both a block and a status 429. *)
Definition throttled_message : string :=
  "got status: 429 Too Many Requests. Request blocked until the quota resets.".

(** Text only, a normal finish reason at candidate level, and a
    block reason at response level. *)
Definition stop_but_blocked : GenerateContentResponse :=
  content_response [text_part "Sorry."] (Some "STOP") (Some "OTHER").

Definition safety_stop : GenerateContentResponse :=
  content_response [text_part "Sorry."] (Some "SAFETY") None.

End Sample.

(** [w] with the API key taken away. *)
Definition keyless (w : World) : World :=
  {| API_KEY := None;
     remote_generateContent := remote_generateContent w;
     remote_generateImages := remote_generateImages w |}.

(** ** [String.prototype.trim]

    [trim] removes, at both ends, the code points ECMAScript calls
    WhiteSpace and LineTerminator.  Strings being kept in their UTF-8
    form, each code point is the sequence of its bytes. *)

Module Whitespace.

Definition bytes (l : list nat) : string :=
  string_of_list_ascii (map ascii_of_nat l).

(** U+0009 to U+000D, U+0020, U+00A0, U+1680, U+2000 to U+200A,
    U+2028, U+2029, U+202F, U+205F, U+3000 and U+FEFF. *)
Definition code_points : list string :=
  map bytes
    [ [9]; [10]; [11]; [12]; [13]; [32];
      [194; 160];
      [225; 154; 128];
      [226; 128; 128]; [226; 128; 129]; [226; 128; 130]; [226; 128; 131];
      [226; 128; 132]; [226; 128; 133]; [226; 128; 134]; [226; 128; 135];
      [226; 128; 136]; [226; 128; 137]; [226; 128; 138];
      [226; 128; 168]; [226; 128; 169];
      [226; 128; 175];
      [226; 129; 159];
      [227; 128; 128];
      [239; 187; 191] ].

(** [s] without its prefix [p], if it has it. *)
Fixpoint drop_prefix (p s : string) : option string :=
  match p with
  | EmptyString => Some s
  | String a p' =>
      match s with
      | EmptyString => None
      | String c s' => if Ascii.eqb a c then drop_prefix p' s' else None
      end
  end.

(** [s] without the first of [ps] it begins with. *)
Fixpoint drop_any (ps : list string) (s : string) : option string :=
  match ps with
  | [] => None
  | p :: ps' =>
      match drop_prefix p s with
      | Some r => Some r
      | None => drop_any ps' s
      end
  end.

(** Dropping leading members of [ps] for as long as there is one, at
    most [n] times. *)
Fixpoint strip_fuel (ps : list string) (n : nat) (s : string) : string :=
  match n with
  | O => s
  | S n' =>
      match drop_any ps s with
      | Some r => strip_fuel ps n' r
      | None => s
      end
  end.

(** Every drop shortens the string, so its length is fuel enough. *)
Definition strip (ps : list string) (s : string) : string :=
  strip_fuel ps (String.length s) s.

Fixpoint rev_onto (s acc : string) : string :=
  match s with
  | EmptyString => acc
  | String c s' => rev_onto s' (String c acc)
  end.

Definition reverse (s : string) : string := rev_onto s EmptyString.

(** The members of [l] one after the other. *)
Definition join (l : list string) : string := fold_right append EmptyString l.

Definition trimStart (s : string) : string := strip code_points s.

Definition trimEnd (s : string) : string :=
  reverse (strip (map reverse code_points) (reverse s)).

Definition trim (s : string) : string := trimEnd (trimStart s).

End Whitespace.

(** ** The text operations

    [translateText] and [describeImage] call [generateContent] with a
    request that may carry a temperature, and read the [text] accessor
    of the response, which is a string or [undefined]. *)

Record GenerateTextParameters : Type :=
  { text_model : string;
    text_parts : list Part;
    temperature : option Num.number }.

Record TextResponse : Type := { response_text : option string }.

(** A [generateContent] call of the text operations, as seen by the
    transport. *)
Definition TextCall : Type := (string * GenerateTextParameters)%type.

(** The world of the text operations: the world of the image
    operations, the behaviour of the remote operation on text
    requests, and the message of the [TypeError] the engine raises
    when a property is read from [undefined]. *)
Record TextWorld : Type :=
  { env : World;
    remote_generateText :
      string -> GenerateTextParameters -> Thrown + TextResponse;
    undefined_read : string -> string }.

(** Computations over the trace of the image operations and the text
    calls made. *)
Definition MT (A : Type) : Type :=
  Trace * list TextCall -> (Thrown + A) * (Trace * list TextCall).

Definition retT {A} (a : A) : MT A := fun s => (inr a, s).

Definition throwT {A} (e : Thrown) : MT A := fun s => (inl e, s).

Definition bindT {A B} (c : MT A) (k : A -> MT B) : MT B :=
  fun s => match c s with
           | (inl e, s') => (inl e, s')
           | (inr a, s') => k a s'
           end.

Definition lift {A} (c : M A) : MT A :=
  fun s => match c (fst s) with (r, t') => (r, (t', snd s)) end.

Notation "x <~ c ;; k" := (bindT c (fun x => k))
  (at level 61, c at next level, right associativity).

(** [await ai.models.generateContent(req)] on a client built with [key]. *)
Definition generateText (w : TextWorld) (key : string)
    (req : GenerateTextParameters) : MT TextResponse :=
  fun s =>
    match remote_generateText w key req with
    | inl e => (inl e, (fst s, (snd s ++ [(key, req)])%list))
    | inr r => (inr r, (fst s, (snd s ++ [(key, req)])%list))
    end.

Definition newline : string := String (ascii_of_nat 10) EmptyString.

Definition translate_prompt (textToTranslate targetLanguage : string) : string :=
  "Translate the following text to " ++ targetLanguage
  ++ ". Only return the translated text, without any additional explanations, labels, or context."
  ++ newline ++ "Text: " ++ Js.dquote ++ textToTranslate ++ Js.dquote.

(** The literal [0.1] is the binary64 number nearest to one tenth,
    which is what the correctly rounded quotient of 1 by 10 is. *)
Definition translate_request (textToTranslate targetLanguage : string)
  : GenerateTextParameters :=
  {| text_model := "gemini-2.5-flash";
     text_parts :=
       [ {| inlineData := None;
            text := Some (translate_prompt textToTranslate targetLanguage) |} ];
     temperature := Some (Num.div (Num.lit 1) (Num.lit 10)) |}.

Definition translateText (w : TextWorld) (textToTranslate targetLanguage : string)
  : MT string :=
  ai <~ lift (getAiClient (env w)) ;;
  response <~ generateText w ai (translate_request textToTranslate targetLanguage) ;;
  match response_text response with
  | Some s => retT (Whitespace.trim s)
  | None => throwT (JsError (undefined_read w "trim"))
  end.

Definition describe_request (base64Data : string) : GenerateTextParameters :=
  {| text_model := "gemini-2.5-flash";
     text_parts :=
       [ {| inlineData := Some {| data := Some base64Data;
                                  mimeType := Some "image/jpeg" |};
            text := None |};
         {| inlineData := None;
            text := Some "Generate a highly detailed, objective description of this image, suitable for a text-to-image AI. Describe the scene, subjects, colors, lighting, and composition as if you were explaining it to someone who cannot see it. Avoid subjective interpretations or artistic styles. The description should be a single, dense paragraph." |} ];
     temperature := None |}.

(** The declared result is a string; what is returned is the [text]
    of the response, be it [undefined]. *)
Definition describeImage (w : TextWorld) (base64Data : string)
  : MT (option string) :=
  ai <~ lift (getAiClient (env w)) ;;
  response <~ generateText w ai (describe_request base64Data) ;;
  retT (response_text response).

(** Sample worlds of the text operations. *)
Module TextSample.

(** The backend answers every text request with [answer]. *)
Definition answering (key : option string) (answer : option string) : TextWorld :=
  {| env := {| API_KEY := key;
               remote_generateContent := fun _ _ => inl (JsOther "unused");
               remote_generateImages := fun _ _ => inl (JsOther "unused") |};
     remote_generateText := fun _ _ => inr {| response_text := answer |};
     undefined_read := fun name =>
       "Cannot read properties of undefined (reading '" ++ name ++ "')" |}.

(** The transport rejects every text request with [e]. *)
Definition failing (e : Thrown) : TextWorld :=
  {| env := {| API_KEY := Some "k";
               remote_generateContent := fun _ _ => inl e;
               remote_generateImages := fun _ _ => inl e |};
     remote_generateText := fun _ _ => inl e;
     undefined_read := fun name =>
       "Cannot read properties of undefined (reading '" ++ name ++ "')" |}.

Definition start : Trace * list TextCall := (no_trace, []).

(** "  Selamat pagi" followed by a line feed. *)
Definition padded_answer : string :=
  "  Selamat pagi" ++ newline.

End TextSample.

(** ** The controls (first document of [src/components/Controls.tsx])

    A function component is a function from its props to the element
    it returns.  An element is its tag, its attributes in the order
    written and its children; JSX text is kept as JSX reads it (lines
    trimmed, blank lines dropped), and an array of children stands for
    its members.  A callback of the props is a function into a type
    [A] of what callbacks do; a handler receives the event, of which
    the code reads [target.value] only. *)

Record Event : Type := { target_value : string }.

Inductive Attribute (A : Type) : Type :=
| AText (s : string)
| AFlag (b : bool)
| AHandler (h : Event -> A).

Arguments AText {A} s.
Arguments AFlag {A} b.
Arguments AHandler {A} h.

#[warnings="-register-all"] Inductive Node (A : Type) : Type :=
| Text (s : string)
| Element (tag : string) (attributes : list (string * Attribute A))
          (children : list (Node A)).

Arguments Text {A} s.
Arguments Element {A} tag attributes children.

(** [value === current] on two models. *)
Definition model_eqb (a b : RegenerationModel) : bool :=
  match a, b with
  | gemini, gemini | imagen, imagen => true
  | _, _ => false
  end.

Definition ModelOption {A} (value current : RegenerationModel)
    (onSelect : RegenerationModel -> A) (title description : string)
    (disabled : bool) : Node A :=
  let isSelected := model_eqb value current in
  Element "label"
    [ ("className",
       AText (newline
              ++ "      flex-1 p-4 border rounded-lg cursor-pointer transition-all duration-200"
              ++ newline
              ++ "      "
              ++ (if isSelected then "bg-purple-500/20 border-purple-500"
                  else "bg-gray-700/50 border-gray-600 hover:border-gray-500")
              ++ newline
              ++ "      "
              ++ (if disabled then "opacity-50 cursor-not-allowed" else EmptyString)
              ++ newline
              ++ "    ")) ]
    [ Element "input"
        [ ("type", AText "radio");
          ("name", AText "regeneration-model");
          ("value", AText (model_label value));
          ("checked", AFlag isSelected);
          ("onChange", AHandler (fun _ => onSelect value));
          ("className", AText "sr-only");
          ("disabled", AFlag disabled) ]
        [];
      Element "span" [ ("className", AText "font-semibold text-white") ]
        [ Text title ];
      Element "p" [ ("className", AText "text-xs text-gray-400 mt-1") ]
        [ Text description ] ].

Record ControlsProps (A : Type) : Type :=
  { selectedStyle : ArtStyle;
    onStyleChange : ArtStyle -> A;
    onRegenerate : unit -> A;
    regenerationModel : RegenerationModel;
    onModelChange : RegenerationModel -> A;
    disabled : bool }.

Arguments selectedStyle {A} c.
Arguments onStyleChange {A} c.
Arguments onRegenerate {A} c.
Arguments regenerationModel {A} c.
Arguments onModelChange {A} c.
Arguments disabled {A} c.

(** [Object.values(ArtStyle)] is [Style.named]: the enum object has
    its eight string members only, in declaration order. *)
Definition style_option {A} (style : ArtStyle) : Node A :=
  Element "option" [ ("key", AText style); ("value", AText style) ]
    [ Text style ].

Definition Controls {A} (props : ControlsProps A) : Node A :=
  Element "section" [ ("className", AText "text-center space-y-6") ]
    [ Element "h2" [ ("className", AText "text-2xl font-semibold") ]
        [ Text "2. AI Regeneration" ];
      Element "p" [ ("className", AText "text-gray-400 max-w-lg mx-auto") ]
        [ Text "Select an artistic style and an AI model, then regenerate your frames to see them in a completely new light." ];
      Element "div" [ ("className", AText "space-y-6 max-w-lg mx-auto") ]
        [ Element "div" []
            [ Element "label"
                [ ("htmlFor", AText "style-select");
                  ("className", AText "block text-sm font-medium text-gray-300 mb-2 text-left") ]
                [ Text "Artistic Style" ];
              Element "div" [ ("className", AText "relative") ]
                [ Element "select"
                    [ ("id", AText "style-select");
                      ("value", AText (selectedStyle props));
                      ("onChange",
                       AHandler (fun e => onStyleChange props (target_value e)));
                      ("disabled", AFlag (disabled props));
                      ("className", AText "w-full appearance-none bg-gray-700 border border-gray-600 rounded-md px-4 py-3 text-white focus:outline-none focus:ring-2 focus:ring-purple-500 disabled:opacity-50 disabled:cursor-not-allowed");
                      ("aria-label", AText "Select artistic style") ]
                    (map style_option Style.named);
                  Element "div"
                    [ ("className", AText "pointer-events-none absolute inset-y-0 right-0 flex items-center px-2 text-gray-400") ]
                    [ Element "svg"
                        [ ("className", AText "fill-current h-4 w-4");
                          ("xmlns", AText "http://www.w3.org/2000/svg");
                          ("viewBox", AText "0 0 20 20") ]
                        [ Element "path"
                            [ ("d", AText "M9.293 12.95l.707.707L15.657 8l-1.414-1.414L10 10.828 5.757 6.586 4.343 8z") ]
                            [] ] ] ] ];
          Element "div" []
            [ Element "label"
                [ ("className", AText "block text-sm font-medium text-gray-300 mb-2 text-left") ]
                [ Text "Regeneration Engine" ];
              Element "div"
                [ ("className", AText "flex flex-col sm:flex-row items-center justify-center gap-3") ]
                [ ModelOption gemini (regenerationModel props) (onModelChange props)
                    "Gemini"
                    "Fast, direct image-to-image editing. Great for preserving composition."
                    (disabled props);
                  ModelOption imagen (regenerationModel props) (onModelChange props)
                    "Imagen"
                    "Creates a new image from a text description. Good for new interpretations."
                    (disabled props) ] ] ];
      Element "div" [ ("className", AText "pt-4") ]
        [ Element "button"
            [ ("onClick", AHandler (fun _ => onRegenerate props tt));
              ("disabled", AFlag (disabled props));
              ("className", AText "w-full sm:w-auto px-8 py-3 font-semibold text-white bg-gradient-to-r from-purple-600 to-pink-600 rounded-md shadow-lg transform hover:scale-105 transition-transform duration-300 disabled:opacity-50 disabled:cursor-not-allowed disabled:scale-100") ]
            [ Text "Regenerate All Frames" ];
          Element "p" [ ("className", AText "text-sm text-gray-500 mt-2") ]
            [ Text "This will apply the selected style to all original frames." ] ] ].

(** *** Reading a rendered tree *)

Module Dom.

Section Reading.
Context {A : Type}.

(** The elements of a tree, in document order. *)
Fixpoint elements (n : Node A) : list (Node A) :=
  match n with
  | Text _ => []
  | Element _ _ children =>
      n :: (fix all (l : list (Node A)) : list (Node A) :=
              match l with
              | [] => []
              | c :: l' => (elements c ++ all l')%list
              end) children
  end.

Definition tag_of (n : Node A) : string :=
  match n with Text _ => EmptyString | Element t _ _ => t end.

Definition attributes_of (n : Node A) : list (string * Attribute A) :=
  match n with Text _ => [] | Element _ a _ => a end.

Definition children_of (n : Node A) : list (Node A) :=
  match n with Text _ => [] | Element _ _ c => c end.

Fixpoint lookup (name : string) (l : list (string * Attribute A))
  : option (Attribute A) :=
  match l with
  | [] => None
  | (k, v) :: l' => if String.eqb k name then Some v else lookup name l'
  end.

Definition attribute (name : string) (n : Node A) : option (Attribute A) :=
  lookup name (attributes_of n).

(** The elements with a given tag, in document order. *)
Definition by_tag (tag : string) (n : Node A) : list (Node A) :=
  filter (fun e => String.eqb (tag_of e) tag) (elements n).

Definition text_attribute (name : string) (n : Node A) : option string :=
  match attribute name n with Some (AText s) => Some s | _ => None end.

Definition flag_attribute (name : string) (n : Node A) : option bool :=
  match attribute name n with Some (AFlag b) => Some b | _ => None end.

(** The handlers an element carries. *)
Definition handlers_of (n : Node A) : list (Event -> A) :=
  flat_map (fun kv => match snd kv with AHandler h => [h] | _ => [] end)
           (attributes_of n).

(** The text directly inside an element. *)
Definition text_of (n : Node A) : list string :=
  flat_map (fun c => match c with Text s => [s] | _ => [] end) (children_of n).

End Reading.

End Dom.

(** The radio buttons [Controls] renders. *)
Definition radios {A} (props : ControlsProps A) : list (Node A) :=
  Dom.by_tag "input" (Controls props).

Definition is_checked {A} (n : Node A) : bool :=
  match Dom.flag_attribute "checked" n with Some true => true | _ => false end.

(** The elements of [Controls] that carry a handler. *)
Definition controls {A} (props : ControlsProps A) : list (Node A) :=
  filter (fun n => match Dom.handlers_of n with [] => false | _ => true end)
         (Dom.elements (Controls props)).

(** Bounds of the range where the five computed differences coincide. *)
Module Far.

End Far.

(** * Properties *)

(** ** Strings *)

Section StringFacts.

Lemma startsWith_app (p s : string) : Js.startsWith p (p ++ s) = true.
Proof.
  induction p as [|a p IH]; simpl; [reflexivity|].
  now rewrite Ascii.eqb_refl.
Qed.

Lemma includes_here (s needle : string) :
  Js.startsWith needle s = true -> Js.includes s needle = true.
Proof. intros H. destruct s; simpl; now rewrite H. Qed.

Lemma includes_later (a : ascii) (s needle : string) :
  Js.includes s needle = true -> Js.includes (String a s) needle = true.
Proof.
  intros H. cbn [Js.includes].
  now destruct (Js.startsWith needle (String a s)).
Qed.

Lemma includes_app_r (pre s needle : string) :
  Js.includes s needle = true -> Js.includes (pre ++ s) needle = true.
Proof.
  intros H. induction pre as [|a pre IH]; simpl append; [assumption|].
  now apply includes_later.
Qed.

(** A string occurs in anything built around it. *)
Lemma includes_middle (pre s post : string) :
  Js.includes (pre ++ s ++ post) s = true.
Proof. apply includes_app_r, includes_here, startsWith_app. Qed.

Lemma length_app (a b : string) :
  String.length (a ++ b) = String.length a + String.length b.
Proof. induction a; simpl; congruence. Qed.

End StringFacts.

(** ** Style catalogue *)

Lemma named_styles_count : List.length Style.named = 8 /\ NoDup Style.named.
Proof.
  split; [reflexivity|].
  repeat constructor; simpl; intuition discriminate.
Qed.

Lemma unnamed_style_eqb (s : ArtStyle) :
  ~ In s Style.named ->
  Forall (fun n => String.eqb s n = false) Style.named.
Proof.
  intros H. apply Forall_forall. intros n Hn.
  apply String.eqb_neq. intros ->. now apply H.
Qed.

Lemma getGeminiInstructionalPrompt_default (s : ArtStyle) :
  ~ In s Style.named ->
  getGeminiInstructionalPrompt s =
  "Recreate this image in the style of a high-detail, cinematic image with the theme of '"
    ++ s ++ "'.".
Proof.
  intros H. apply unnamed_style_eqb in H.
  unfold Style.named in H.
  repeat match goal with
         | H : Forall _ (_ :: _) |- _ => inversion H; clear H; subst
         end.
  unfold getGeminiInstructionalPrompt.
  repeat match goal with
         | E : String.eqb s _ = false |- _ => rewrite E; clear E
         end.
  reflexivity.
Qed.

Lemma getImagenStyleSuffix_default (s : ArtStyle) :
  ~ In s Style.named ->
  getImagenStyleSuffix s = ", in the style of " ++ s ++ ".".
Proof.
  intros H. apply unnamed_style_eqb in H.
  unfold Style.named in H.
  repeat match goal with
         | H : Forall _ (_ :: _) |- _ => inversion H; clear H; subst
         end.
  unfold getImagenStyleSuffix.
  repeat match goal with
         | E : String.eqb s _ = false |- _ => rewrite E; clear E
         end.
  reflexivity.
Qed.

(** The sixteen hand-written strings are pairwise different. *)
Lemma catalogue_strings_distinct :
  NoDup (map getGeminiInstructionalPrompt Style.named
         ++ map getImagenStyleSuffix Style.named).
Proof.
  unfold Style.named. cbn [map app].
  repeat (apply NoDup_cons; [cbn [In]; intuition discriminate|]).
  apply NoDup_nil.
Qed.

(** C8.  Each of the eight named styles has an instructional prompt and
    a style suffix that are non-empty and different from each other and
    from those of every other named style; for a style outside the
    named set both functions still return a value (they are total), and
    it is a non-empty string that contains the label of the style. *)
Theorem style_catalogue_total_and_distinct :
  NoDup (map getGeminiInstructionalPrompt Style.named
         ++ map getImagenStyleSuffix Style.named)
  /\ Forall (fun s => Js.truthy_string (getGeminiInstructionalPrompt s) = true
                      /\ Js.truthy_string (getImagenStyleSuffix s) = true)
            Style.named
  /\ forall s : ArtStyle,
       ~ In s Style.named ->
       Js.truthy_string (getGeminiInstructionalPrompt s) = true
       /\ Js.includes (getGeminiInstructionalPrompt s) s = true
       /\ Js.truthy_string (getImagenStyleSuffix s) = true
       /\ Js.includes (getImagenStyleSuffix s) s = true.
Proof.
  split; [exact catalogue_strings_distinct|].
  split; [repeat constructor|].
  intros s H.
  rewrite (getGeminiInstructionalPrompt_default s H),
          (getImagenStyleSuffix_default s H).
  split; [reflexivity|].
  split; [apply includes_middle|].
  split; [reflexivity|apply includes_middle].
Qed.

Lemma style_catalogue_total_and_distinct_witness :
  ~ In "Watercolor" Style.named
  /\ Js.includes (getGeminiInstructionalPrompt "Watercolor") "Watercolor" = true
  /\ Js.includes (getImagenStyleSuffix "Watercolor") "Watercolor" = true.
Proof.
  assert (H : ~ In "Watercolor" Style.named)
    by (simpl; intuition discriminate).
  split; [exact H|].
  destruct style_catalogue_total_and_distinct as [_ [_ K]].
  destruct (K "Watercolor" H) as [_ [A [_ B]]].
  split; assumption.
Defined.

(** ** The dispatcher: what the [catch] clause does *)

Section Dispatch.

Variable w : World.

Lemma regenerateImage_on_throw (o : RegenerateOptions) (t t0 : Trace) (e0 : Thrown) :
  regenerateImage_try w o t = (inl e0, t0) ->
  regenerateImage w o t = regenerateImage_catch (model o) e0 t0.
Proof. intros H. unfold regenerateImage, try_catch. now rewrite H. Qed.

Lemma regenerateImage_on_return (o : RegenerateOptions) (t t0 : Trace) (r : Regenerated) :
  regenerateImage_try w o t = (inr r, t0) ->
  regenerateImage w o t = (inr r, t0).
Proof. intros H. unfold regenerateImage, try_catch. now rewrite H. Qed.

End Dispatch.

Ltac run_catch :=
  unfold is_credentials_signal, is_rate_signal, is_blocked, mentions;
  unfold regenerateImage_catch, bind, console_error, throw, logged.

Lemma catch_credentials (m : RegenerationModel) (e : Thrown) (t : Trace) :
  is_credentials_signal e = true ->
  regenerateImage_catch m e t = (inl invalid_credentials_error, logged m e t).
Proof.
  destruct e as [msg|v]; run_catch; [|discriminate].
  intros ->. reflexivity.
Qed.

Lemma catch_rate (m : RegenerationModel) (e : Thrown) (t : Trace) :
  is_credentials_signal e = false ->
  is_rate_signal e = true ->
  regenerateImage_catch m e t = (inl rate_limited_error, logged m e t).
Proof.
  destruct e as [msg|v]; run_catch; [|discriminate].
  intros -> ->. reflexivity.
Qed.

Lemma catch_blocked (m : RegenerationModel) (e : Thrown) (t : Trace) :
  is_credentials_signal e = false ->
  is_rate_signal e = false ->
  is_blocked e = true ->
  regenerateImage_catch m e t = (inl e, logged m e t).
Proof.
  destruct e as [msg|v]; run_catch; [|discriminate].
  intros -> -> ->. reflexivity.
Qed.

Lemma catch_unknown (m : RegenerationModel) (e : Thrown) (t : Trace) :
  is_credentials_signal e = false ->
  is_rate_signal e = false ->
  is_blocked e = false ->
  regenerateImage_catch m e t = (inl (unknown_failure_error m), logged m e t).
Proof.
  destruct e as [msg|v]; run_catch; [|reflexivity].
  intros -> -> ->. reflexivity.
Qed.

(** The [catch] clause always throws, and what it throws is in one of
    the four categories. *)
Lemma catch_classifies (m : RegenerationModel) (e : Thrown) (t : Trace) :
  exists e', regenerateImage_catch m e t = (inl e', logged m e t)
             /\ exists c, in_category m e' c.
Proof.
  destruct (is_credentials_signal e) eqn:C.
  { eexists; split; [now apply catch_credentials|].
    now exists InvalidCredentials. }
  destruct (is_rate_signal e) eqn:R.
  { eexists; split; [now apply catch_rate|]. now exists RateLimited. }
  destruct (is_blocked e) eqn:B.
  { eexists; split; [now apply catch_blocked|]. now exists Blocked. }
  eexists; split; [now apply catch_unknown|]. now exists UnknownFailure.
Qed.

Lemma unknown_failure_names_model (m : RegenerationModel) :
  mentions (unknown_failure_error m) (model_label m) = true.
Proof. now destruct m. Qed.

(** C1, as the code has it.  An error raised inside [regenerateImage]
    that is none of the credential, rate-limit and blocked cases leaves
    it as the unknown-failure error, whose message names the model in
    use and is otherwise fixed: the original error goes to the console
    and is not part of the message.  Every error that leaves
    [regenerateImage] is in one of the four categories. *)
Theorem dispatch_failure_taxonomy
    (w : World) (o : RegenerateOptions) (t : Trace) :
  (forall e0 t0,
      regenerateImage_try w o t = (inl e0, t0) ->
      is_credentials_signal e0 = false ->
      is_rate_signal e0 = false ->
      is_blocked e0 = false ->
      regenerateImage w o t
        = (inl (unknown_failure_error (model o)), logged (model o) e0 t0)
      /\ mentions (unknown_failure_error (model o)) (model_label (model o)) = true)
  /\ (forall e t',
      regenerateImage w o t = (inl e, t') ->
      exists c, in_category (model o) e c).
Proof.
  split.
  - intros e0 t0 Htry C R B. split.
    + rewrite (regenerateImage_on_throw w o t t0 e0 Htry).
      now apply catch_unknown.
    + apply unknown_failure_names_model.
  - intros e t' H.
    destruct (regenerateImage_try w o t) as [[e0|r] t0] eqn:Htry.
    + rewrite (regenerateImage_on_throw w o t t0 e0 Htry) in H.
      destruct (catch_classifies (model o) e0 t0) as [e' [E K]].
      rewrite E in H. now inversion H; subst.
    + rewrite (regenerateImage_on_return w o t t0 r Htry) in H. discriminate.
Qed.

Lemma dispatch_failure_taxonomy_witness :
  fst (regenerateImage Sample.text_only
         (Sample.options gemini (Some "QUJD") None) no_trace)
  = inl (unknown_failure_error gemini).
Proof.
  destruct (dispatch_failure_taxonomy Sample.text_only
              (Sample.options gemini (Some "QUJD") None) no_trace) as [H _].
  destruct (H (JsError "No image was generated by Gemini.")
              (snd (regenerateImage_try Sample.text_only
                      (Sample.options gemini (Some "QUJD") None) no_trace))
              eq_refl eq_refl eq_refl eq_refl) as [E _].
  rewrite E. reflexivity.
Defined.

(** C1, counterexample.  When the image-conditioned backend answers
    with text only, the error raised inside is "No image was generated
    by Gemini."; the error that leaves [regenerateImage] does not
    contain that message. *)
Lemma unknown_failure_omits_original_message :
  fst (regenerateImage_try Sample.text_only
         (Sample.options gemini (Some "QUJD") None) no_trace)
    = inl (JsError "No image was generated by Gemini.")
  /\ is_credentials_signal (JsError "No image was generated by Gemini.") = false
  /\ is_rate_signal (JsError "No image was generated by Gemini.") = false
  /\ is_blocked (JsError "No image was generated by Gemini.") = false
  /\ fst (regenerateImage Sample.text_only
            (Sample.options gemini (Some "QUJD") None) no_trace)
     = inl (unknown_failure_error gemini)
  /\ mentions (unknown_failure_error gemini) "No image was generated by Gemini."
     = false.
Proof. repeat split. Qed.

(** C2, on the code.  With the text-conditioned model and no (or an
    empty) prompt, and with the image-conditioned model and no (or
    empty) image data, no network call is made, the missing-input
    error is raised inside the [try] block, and the [catch] clause
    replaces it: what leaves [regenerateImage] is the unknown-failure
    error, the missing-input message going to the console only. *)
Theorem missing_input_leaves_as_unknown_failure
    (w : World) (o : RegenerateOptions) (t : Trace) :
  (model o = imagen -> Js.truthy (prompt_opt o) = false ->
   regenerateImage_try w o t
     = (inl (JsError "A text prompt is required for the Imagen model."), t)
   /\ regenerateImage w o t
     = (inl (unknown_failure_error imagen),
        logged imagen (JsError "A text prompt is required for the Imagen model.") t))
  /\ (model o = gemini -> Js.truthy (base64Data o) = false ->
   regenerateImage_try w o t
     = (inl (JsError "Base64 image data is required for the Gemini model."), t)
   /\ regenerateImage w o t
     = (inl (unknown_failure_error gemini),
        logged gemini (JsError "Base64 image data is required for the Gemini model.") t)).
Proof.
  split; intros Hm Hp.
  - assert (Htry : regenerateImage_try w o t
              = (inl (JsError "A text prompt is required for the Imagen model."), t)).
    { unfold regenerateImage_try. rewrite Hm.
      destruct (prompt_opt o) as [p|]; [|reflexivity].
      simpl in Hp. now rewrite Hp. }
    split; [exact Htry|].
    rewrite (regenerateImage_on_throw w o t t _ Htry), Hm.
    now apply catch_unknown.
  - assert (Htry : regenerateImage_try w o t
              = (inl (JsError "Base64 image data is required for the Gemini model."), t)).
    { unfold regenerateImage_try. rewrite Hm.
      destruct (base64Data o) as [d|]; [|reflexivity].
      simpl in Hp. now rewrite Hp. }
    split; [exact Htry|].
    rewrite (regenerateImage_on_throw w o t t _ Htry), Hm.
    now apply catch_unknown.
Qed.

Lemma missing_input_leaves_as_unknown_failure_witness :
  regenerateImage Sample.text_only (Sample.options imagen None None) no_trace
  = (inl (JsError "Failed to regenerate image with imagen. Check the console for details."),
     {| calls := [];
        console := [("Error calling imagen API for regeneration:",
                     JsError "A text prompt is required for the Imagen model.")] |}).
Proof.
  destruct (missing_input_leaves_as_unknown_failure Sample.text_only
              (Sample.options imagen None None) no_trace) as [H _].
  destruct (H eq_refl eq_refl) as [_ E].
  rewrite E. reflexivity.
Defined.

(** C6, as the code has it.  An [Error] raised inside [regenerateImage]
    whose message contains "429" or "RESOURCE_EXHAUSTED", and does not
    contain "API key not valid" (the credential check comes first),
    leaves it as the rate-limit error, whichever model is selected. *)
Theorem rate_signal_becomes_rate_limited
    (w : World) (o : RegenerateOptions) (t t0 : Trace) (e0 : Thrown) :
  regenerateImage_try w o t = (inl e0, t0) ->
  is_rate_signal e0 = true ->
  is_credentials_signal e0 = false ->
  regenerateImage w o t = (inl rate_limited_error, logged (model o) e0 t0).
Proof.
  intros Htry R C.
  rewrite (regenerateImage_on_throw w o t t0 e0 Htry).
  now apply catch_rate.
Qed.

Lemma rate_signal_becomes_rate_limited_witness :
  fst (regenerateImage (Sample.failing (JsError "got status: 429 Too Many Requests"))
         (Sample.options imagen None (Some "a red kite")) no_trace)
    = inl rate_limited_error
  /\ fst (regenerateImage (Sample.failing (JsError "got status: 429 Too Many Requests"))
            (Sample.options gemini (Some "QUJD") None) no_trace)
    = inl rate_limited_error.
Proof.
  split.
  - rewrite (rate_signal_becomes_rate_limited
               (Sample.failing (JsError "got status: 429 Too Many Requests"))
               (Sample.options imagen None (Some "a red kite")) no_trace
               _ (JsError "got status: 429 Too Many Requests")
               eq_refl eq_refl eq_refl).
    reflexivity.
  - rewrite (rate_signal_becomes_rate_limited
               (Sample.failing (JsError "got status: 429 Too Many Requests"))
               (Sample.options gemini (Some "QUJD") None) no_trace
               _ (JsError "got status: 429 Too Many Requests")
               eq_refl eq_refl eq_refl).
    reflexivity.
Defined.

(** C6, counterexample.  The transport rejects the key with a message
    that also contains "429": the error that leaves [regenerateImage]
    is the invalid-credentials error, not the rate-limit error. *)
Lemma rate_signal_with_bad_key_is_not_rate_limited :
  fst (regenerateImage_try (Sample.failing (JsError Sample.bad_key_message))
         (Sample.options imagen None (Some "a red kite")) no_trace)
    = inl (JsError Sample.bad_key_message)
  /\ mentions (JsError Sample.bad_key_message) "429" = true
  /\ fst (regenerateImage (Sample.failing (JsError Sample.bad_key_message))
            (Sample.options imagen None (Some "a red kite")) no_trace)
     = inl invalid_credentials_error
  /\ invalid_credentials_error <> rate_limited_error.
Proof. repeat split. discriminate. Qed.

(** C7, as the code has it.  An [Error] raised inside [regenerateImage]
    whose message contains "blocked" and none of "API key not valid",
    "429" and "RESOURCE_EXHAUSTED" (those checks come first) leaves it
    unchanged. *)
Theorem blocked_error_passes_through
    (w : World) (o : RegenerateOptions) (t t0 : Trace) (e0 : Thrown) :
  regenerateImage_try w o t = (inl e0, t0) ->
  is_blocked e0 = true ->
  is_credentials_signal e0 = false ->
  is_rate_signal e0 = false ->
  regenerateImage w o t = (inl e0, logged (model o) e0 t0).
Proof.
  intros Htry B C R.
  rewrite (regenerateImage_on_throw w o t t0 e0 Htry).
  now apply catch_blocked.
Qed.

Lemma blocked_error_passes_through_witness :
  fst (regenerateImage
         (Sample.answering Sample.safety_stop Sample.no_images)
         (Sample.options gemini (Some "QUJD") None) no_trace)
  = inl (JsError "Image regeneration was blocked. Reason: SAFETY. Please try a different style or frame.").
Proof.
  rewrite (blocked_error_passes_through
             (Sample.answering Sample.safety_stop Sample.no_images)
             (Sample.options gemini (Some "QUJD") None) no_trace _
             (JsError "Image regeneration was blocked. Reason: SAFETY. Please try a different style or frame.")
             eq_refl eq_refl eq_refl eq_refl).
  reflexivity.
Defined.

(** C7, counterexample.  A blocked message produced by the adapter
    whose stated reason is "RESOURCE_EXHAUSTED", and a transport error
    that mentions both a block and status 429, are both replaced by the
    rate-limit error instead of being re-raised. *)
Lemma blocked_error_with_rate_signal_is_replaced :
  (fst (regenerateImage_try Sample.quota_block
          (Sample.options gemini (Some "QUJD") None) no_trace)
     = inl (JsError Sample.quota_block_message)
   /\ is_blocked (JsError Sample.quota_block_message) = true
   /\ fst (regenerateImage Sample.quota_block
             (Sample.options gemini (Some "QUJD") None) no_trace)
      = inl rate_limited_error
   /\ rate_limited_error <> JsError Sample.quota_block_message)
  /\ (fst (regenerateImage_try (Sample.failing (JsError Sample.throttled_message))
             (Sample.options gemini (Some "QUJD") None) no_trace)
        = inl (JsError Sample.throttled_message)
      /\ is_blocked (JsError Sample.throttled_message) = true
      /\ fst (regenerateImage (Sample.failing (JsError Sample.throttled_message))
                (Sample.options gemini (Some "QUJD") None) no_trace)
         = inl rate_limited_error
      /\ rate_limited_error <> JsError Sample.throttled_message).
Proof. repeat split; discriminate. Qed.

(** ** The image-conditioned adapter *)

Lemma first_inlineData_found (ps : list Part) (b : Blob) :
  first_inlineData ps = Some b <->
  exists pre part post,
    ps = (pre ++ part :: post)%list
    /\ Forall (fun p => inlineData p = None) pre
    /\ inlineData part = Some b.
Proof.
  split.
  - induction ps as [|p ps IH]; simpl; [discriminate|].
    destruct (inlineData p) as [b'|] eqn:E.
    + intros [= ->]. exists [], p, ps. repeat split; [constructor|assumption].
    + intros H. destruct (IH H) as (pre & part & post & -> & F & I).
      exists (p :: pre), part, post. repeat split; [now constructor|assumption].
  - intros (pre & part & post & -> & F & I).
    induction F as [|p pre Hp F IH]; simpl.
    + now rewrite I.
    + now rewrite Hp.
Qed.

Lemma first_inlineData_absent (ps : list Part) :
  first_inlineData ps = None <-> Forall (fun p => inlineData p = None) ps.
Proof.
  induction ps as [|p ps IH]; simpl.
  - split; [constructor|reflexivity].
  - destruct (inlineData p) eqn:E.
    + split; [discriminate|]. intros H. inversion H; congruence.
    + rewrite IH. split; [now constructor|]. intros H. now inversion H.
Qed.

(** What [regenerateImageWithGemini] does with a response, case by
    case: the first inline part is returned with the prompt sent; with
    no inline part and a block signal it throws the blocked message
    built from [finishReason || blockReason]; otherwise it throws the
    no-image message. *)
Lemma gemini_response_cases
    (finalPrompt : string) (response : GenerateContentResponse) (t : Trace) :
  let candidate := first_candidate response in
  let fr := candidate_finishReason candidate in
  let br := feedback_blockReason (promptFeedback response) in
  (forall b, scan_candidate candidate = Some b ->
     gemini_response finalPrompt response t
       = (inr {| image := data b; prompt := finalPrompt |}, t))
  /\ (scan_candidate candidate = None -> block_signal fr br = true ->
      gemini_response finalPrompt response t
        = (inl (JsError ("Image regeneration was blocked. Reason: "
                         ++ Js.interpolate (Js.or_else fr br)
                         ++ ". Please try a different style or frame.")), t))
  /\ (scan_candidate candidate = None -> block_signal fr br = false ->
      gemini_response finalPrompt response t
        = (inl (JsError "No image was generated by Gemini."), t)).
Proof.
  cbv zeta. unfold gemini_response.
  repeat split; intros; repeat match goal with H : _ = _ |- _ => rewrite H end;
    reflexivity.
Qed.

(** With a safety or recitation finish reason the blocked message
    contains that finish reason. *)
Lemma gemini_blocked_by_finish_reason
    (finalPrompt : string) (response : GenerateContentResponse) (t : Trace)
    (reason : string) :
  scan_candidate (first_candidate response) = None ->
  candidate_finishReason (first_candidate response) = Some reason ->
  reason = "SAFETY" \/ reason = "RECITATION" ->
  exists msg,
    gemini_response finalPrompt response t = (inl (JsError msg), t)
    /\ Js.includes msg "blocked" = true
    /\ Js.includes msg reason = true.
Proof.
  intros Hscan Hfr Hr.
  destruct (gemini_response_cases finalPrompt response t) as (_ & B & _).
  rewrite Hfr in B.
  assert (Hsig : block_signal (Some reason)
                   (feedback_blockReason (promptFeedback response)) = true)
    by (destruct Hr as [-> | ->]; reflexivity).
  specialize (B Hscan Hsig).
  assert (Hor : Js.or_else (Some reason)
                  (feedback_blockReason (promptFeedback response)) = Some reason)
    by (destruct Hr as [-> | ->]; reflexivity).
  rewrite Hor in B. eexists; split; [exact B|]. split.
  - reflexivity.
  - apply includes_middle.
Qed.

(** Without a finish reason, the blocked message contains the block
    reason of the response. *)
Lemma gemini_blocked_by_block_reason
    (finalPrompt : string) (response : GenerateContentResponse) (t : Trace)
    (reason : string) :
  scan_candidate (first_candidate response) = None ->
  Js.truthy (candidate_finishReason (first_candidate response)) = false ->
  feedback_blockReason (promptFeedback response) = Some reason ->
  Js.truthy_string reason = true ->
  exists msg,
    gemini_response finalPrompt response t = (inl (JsError msg), t)
    /\ Js.includes msg "blocked" = true
    /\ Js.includes msg reason = true.
Proof.
  intros Hscan Hfr Hbr Hr.
  destruct (gemini_response_cases finalPrompt response t) as (_ & B & _).
  rewrite Hbr in B.
  assert (Hsig : block_signal (candidate_finishReason (first_candidate response))
                   (Some reason) = true).
  { unfold block_signal. cbn [Js.truthy]. rewrite Hr.
    now rewrite !orb_true_r. }
  specialize (B Hscan Hsig).
  unfold Js.or_else in B. rewrite Hfr in B. cbn [Js.interpolate] in B.
  eexists; split; [exact B|]. split.
  - reflexivity.
  - apply includes_middle.
Qed.

(** C4, on the code.  The image-conditioned backend answers with text
    only, finish reason "STOP" and, at response level, block reason
    "OTHER".  The adapter raises the blocked error, but the reason its
    message states is the finish reason "STOP"; the block reason that
    caused the error is not in the message.  The same error leaves
    [regenerateImage]. *)
Theorem blocked_message_states_finish_reason_instead :
  scan_candidate (first_candidate Sample.stop_but_blocked) = None
  /\ candidate_finishReason (first_candidate Sample.stop_but_blocked) = Some "STOP"
  /\ feedback_blockReason (promptFeedback Sample.stop_but_blocked) = Some "OTHER"
  /\ gemini_response (getGeminiInstructionalPrompt Style.ANIME)
       Sample.stop_but_blocked no_trace
     = (inl (JsError "Image regeneration was blocked. Reason: STOP. Please try a different style or frame."),
        no_trace)
  /\ Js.includes
       "Image regeneration was blocked. Reason: STOP. Please try a different style or frame."
       "OTHER" = false
  /\ fst (regenerateImage
            (Sample.answering Sample.stop_but_blocked Sample.no_images)
            (Sample.options gemini (Some "QUJD") None) no_trace)
     = inl (JsError "Image regeneration was blocked. Reason: STOP. Please try a different style or frame.").
Proof. repeat split. Qed.

(** ** The text-conditioned adapter *)

Lemma getAiClient_ok (w : World) (key : string) (t : Trace) :
  API_KEY w = Some key -> Js.truthy_string key = true ->
  getAiClient w t = (inr key, t).
Proof. intros K T. unfold getAiClient. now rewrite K, T. Qed.

(** C5.  When the client can be built and the text-conditioned backend
    resolves with image bytes in its first slot, the adapter sends, and
    returns as [prompt], exactly [basePrompt] followed by the style
    suffix, with the returned bytes as [image]; one network call is
    made. *)
Theorem imagen_prompt_is_base_then_suffix
    (w : World) (key basePrompt bytes : string) (st : ArtStyle)
    (ratio : Num.number) (response : GenerateImagesResponse) (t : Trace) :
  API_KEY w = Some key ->
  Js.truthy_string key = true ->
  remote_generateImages w key
    (imagen_request (basePrompt ++ getImagenStyleSuffix st) ratio) = inr response ->
  generated_bytes (first_generated response) = Some bytes ->
  Js.truthy_string bytes = true ->
  generateImageWithImagen w basePrompt st ratio t
  = (inr {| image := Some bytes;
            prompt := basePrompt ++ getImagenStyleSuffix st |},
     {| calls := (calls t ++
          [CallGenerateImages key
             (imagen_request (basePrompt ++ getImagenStyleSuffix st) ratio)])%list;
        console := console t |})
  /\ images_prompt (imagen_request (basePrompt ++ getImagenStyleSuffix st) ratio)
     = basePrompt ++ getImagenStyleSuffix st.
Proof.
  intros K T R G B. split; [|reflexivity].
  unfold generateImageWithImagen, bind.
  rewrite (getAiClient_ok w key t K T).
  unfold generateImages, bind, record_call. rewrite R.
  unfold lift_remote, ret, imagen_response.
  rewrite G. unfold Js.truthy. rewrite B. reflexivity.
Qed.

Lemma imagen_prompt_is_base_then_suffix_witness :
  fst (generateImageWithImagen
         (Sample.answering Sample.safety_stop (Sample.one_image "/9j/4AAQ"))
         "A red kite over a field" Style.NEON_PUNK (Num.lit 1) no_trace)
  = inr {| image := Some "/9j/4AAQ";
           prompt := "A red kite over a field, neon-drenched cyberpunk cityscape, glowing neon lights, rainy streets, dystopian aesthetic." |}.
Proof.
  destruct (imagen_prompt_is_base_then_suffix
              (Sample.answering Sample.safety_stop (Sample.one_image "/9j/4AAQ"))
              "k" "A red kite over a field" "/9j/4AAQ" Style.NEON_PUNK (Num.lit 1)
              (Sample.one_image "/9j/4AAQ") no_trace
              eq_refl eq_refl eq_refl eq_refl eq_refl) as [E _].
  rewrite E. reflexivity.
Defined.

(** ** [editImage] *)

Lemma editImage_on_throw (w : World) (d p : string) (t t0 : Trace) (e0 : Thrown) :
  editImage_try w d p t = (inl e0, t0) ->
  editImage w d p t = editImage_catch e0 t0.
Proof. intros H. unfold editImage, try_catch. now rewrite H. Qed.

Lemma editImage_catch_calls (e : Thrown) (t : Trace) :
  calls (snd (editImage_catch e t)) = calls t.
Proof.
  unfold editImage_catch, bind, console_error, throw.
  destruct e as [msg|v]; [|reflexivity].
  destruct (Js.includes msg "API key not valid"); [reflexivity|].
  destruct (Js.includes msg "429" || Js.includes msg "RESOURCE_EXHAUSTED");
    [reflexivity|].
  destruct (Js.includes msg "blocked"); reflexivity.
Qed.

Lemma edit_response_trace (p : string) (r : GenerateContentResponse) (t : Trace) :
  snd (edit_response p r t) = t.
Proof.
  unfold edit_response.
  destruct (scan_candidate (first_candidate r)); [reflexivity|].
  destruct (block_signal _ _); reflexivity.
Qed.

(** The two [catch] clauses triage alike: they throw the same error,
    except in the catch-all case, where each throws its own fixed
    message. *)
Lemma edit_catch_agrees_with_dispatch
    (m : RegenerationModel) (e : Thrown) (t : Trace) :
  fst (editImage_catch e t) = fst (regenerateImage_catch m e t)
  \/ (is_credentials_signal e = false
      /\ is_rate_signal e = false
      /\ is_blocked e = false
      /\ fst (editImage_catch e t) = inl edit_failure_error
      /\ fst (regenerateImage_catch m e t) = inl (unknown_failure_error m)).
Proof.
  unfold is_credentials_signal, is_rate_signal, is_blocked, mentions.
  unfold editImage_catch, regenerateImage_catch, bind, console_error, throw.
  destruct e as [msg|v].
  - destruct (Js.includes msg "API key not valid"); [now left|].
    destruct (Js.includes msg "429" || Js.includes msg "RESOURCE_EXHAUSTED");
      [now left|].
    destruct (Js.includes msg "blocked"); [now left|].
    right. repeat split.
  - right. repeat split.
Qed.

Lemma edit_record_differs (p : string) : edit_record p <> p.
Proof.
  intros H. apply (f_equal String.length) in H.
  unfold edit_record in H. rewrite !length_app in H. simpl in H. lia.
Qed.

(** C9.  With a client that can be built, [editImage] makes one
    network call, whose text part is the caller's prompt as given (no
    style text is added to it); when the response carries an inline
    image the returned [prompt] is the edit record built around the
    caller's prompt, which contains that prompt and differs from it;
    an error raised inside goes through a [catch] clause that triages
    as the one of [regenerateImage] does (credentials, rate limit,
    blocked pass-through, catch-all). *)
Theorem editImage_contract
    (w : World) (key d p : string) (t : Trace) :
  API_KEY w = Some key ->
  Js.truthy_string key = true ->
  calls (snd (editImage w d p t))
    = (calls t ++ [CallGenerateContent key (edit_request d p)])%list
  /\ map text (content_parts (edit_request d p)) = [None; Some p]
  /\ (forall response b,
        remote_generateContent w key (edit_request d p) = inr response ->
        scan_candidate (first_candidate response) = Some b ->
        fst (editImage w d p t)
          = inr {| image := data b; prompt := edit_record p |})
  /\ Js.includes (edit_record p) p = true
  /\ edit_record p <> p
  /\ (forall e0 t0,
        editImage_try w d p t = (inl e0, t0) ->
        editImage w d p t = editImage_catch e0 t0)
  /\ (forall m e t',
        fst (editImage_catch e t') = fst (regenerateImage_catch m e t')
        \/ (is_credentials_signal e = false
            /\ is_rate_signal e = false
            /\ is_blocked e = false
            /\ fst (editImage_catch e t') = inl edit_failure_error
            /\ fst (regenerateImage_catch m e t')
               = inl (unknown_failure_error m))).
Proof.
  intros K T.
  assert (Htry : editImage_try w d p t
            = match remote_generateContent w key (edit_request d p) with
              | inl e =>
                  (inl e, {| calls := (calls t ++
                               [CallGenerateContent key (edit_request d p)])%list;
                             console := console t |})
              | inr r =>
                  edit_response p r
                    {| calls := (calls t ++
                         [CallGenerateContent key (edit_request d p)])%list;
                       console := console t |}
              end).
  { unfold editImage_try, bind. rewrite (getAiClient_ok w key t K T).
    unfold generateContent, bind, record_call, lift_remote, throw, ret.
    destruct (remote_generateContent w key (edit_request d p)); reflexivity. }
  split.
  { unfold editImage, try_catch. rewrite Htry.
    destruct (remote_generateContent w key (edit_request d p)) as [e|r].
    - now rewrite editImage_catch_calls.
    - pose proof (edit_response_trace p r
        {| calls := (calls t ++ [CallGenerateContent key (edit_request d p)])%list;
           console := console t |}) as Ht.
      destruct (edit_response p r _) as [[e|res] t1]; simpl in Ht; subst t1.
      + now rewrite editImage_catch_calls.
      + reflexivity. }
  split; [reflexivity|].
  split.
  { intros response b R S.
    unfold editImage, try_catch. rewrite Htry, R.
    unfold edit_response. rewrite S. reflexivity. }
  split; [apply (includes_middle ("Edited with user prompt: " ++ Js.dquote))|].
  split; [apply edit_record_differs|].
  split; [intros e0 t0; apply editImage_on_throw|].
  intros m e t'. apply edit_catch_agrees_with_dispatch.
Qed.

Lemma editImage_contract_witness :
  fst (editImage
         (Sample.answering
            (Sample.content_response
               [Sample.text_part "Here it is."; Sample.image_part "iVBORw0KGgo="]
               (Some "STOP") None)
            Sample.no_images)
         "QUJD" "make the sky purple" no_trace)
  = inr {| image := Some "iVBORw0KGgo=";
           prompt := edit_record "make the sky purple" |}.
Proof.
  destruct (editImage_contract
              (Sample.answering
                 (Sample.content_response
                    [Sample.text_part "Here it is."; Sample.image_part "iVBORw0KGgo="]
                    (Some "STOP") None)
                 Sample.no_images)
              "k" "QUJD" "make the sky purple" no_trace eq_refl eq_refl)
    as (_ & _ & S & _).
  exact (S _ _ eq_refl eq_refl).
Defined.

(** ** Searching framed strings *)

Section FramedStrings.

Lemma startsWith_nil_r (p : string) :
  Js.startsWith p EmptyString = match p with EmptyString => true | _ => false end.
Proof. now destruct p. Qed.

Lemma startsWith_before (p r post : string) (c : ascii) :
  Frame.occurs c p = false ->
  Js.startsWith p (r ++ String c post) = Js.startsWith p r.
Proof.
  revert p. induction r as [|b r IH]; intros p H.
  - destruct p as [|a p]; [reflexivity|].
    simpl in *. apply orb_false_iff in H. destruct H as [H _]. now rewrite H.
  - destruct p as [|a p]; [reflexivity|].
    simpl in *. apply orb_false_iff in H. destruct H as [_ H].
    destruct (Ascii.eqb a b); [now apply IH|reflexivity].
Qed.

Lemma includes_nil (p : string) :
  Js.includes EmptyString p = match p with EmptyString => true | _ => false end.
Proof. now destruct p. Qed.

Lemma includes_before (r post p : string) (c : ascii) :
  Frame.occurs c p = false ->
  Js.includes (r ++ String c post) p
  = Js.includes r p || Js.includes (String c post) p.
Proof.
  intros H. induction r as [|b r IH].
  - rewrite includes_nil. destruct p; [reflexivity|]. reflexivity.
  - change (String b r ++ String c post) with (String b (r ++ String c post)).
    cbn [Js.includes].
    change (String b (r ++ String c post)) with (String b r ++ String c post).
    rewrite (startsWith_before p (String b r) post c H), IH.
    now destruct (Js.startsWith p (String b r)).
Qed.

Lemma compatible_startsWith (p b s : string) :
  Frame.compatible p b = false -> Js.startsWith p (b ++ s) = false.
Proof.
  revert b. induction p as [|a p IH]; intros b H; [discriminate|].
  destruct b as [|c b]; [discriminate|].
  simpl in *. destruct (Ascii.eqb a c); [now apply IH|reflexivity].
Qed.

Lemma includes_after (pre s p : string) :
  Frame.no_overlap pre p = true ->
  Js.includes (pre ++ s) p = Js.includes s p.
Proof.
  induction pre as [|c pre IH]; intros H; [reflexivity|].
  cbn [Frame.no_overlap] in H. apply andb_true_iff in H. destruct H as [H1 H2].
  apply negb_true_iff in H1.
  change (String c pre ++ s) with (String c (pre ++ s)).
  cbn [Js.includes].
  change (String c (pre ++ s)) with (String c pre ++ s).
  rewrite (compatible_startsWith p (String c pre) s H1). now apply IH.
Qed.

(** Searching a framed string for a needle that can neither begin in
    the text before nor reach into the text after is searching what is
    framed. *)
Lemma includes_framed (pre r post p : string) (c : ascii) :
  Frame.no_overlap pre p = true ->
  Frame.occurs c p = false ->
  Js.includes (String c post) p = false ->
  Js.includes (pre ++ r ++ String c post) p = Js.includes r p.
Proof.
  intros H1 H2 H3.
  rewrite (includes_after pre _ p H1), (includes_before r post p c H2), H3.
  apply orb_false_r.
Qed.

Lemma startsWith_app_l (p s t : string) :
  Js.startsWith p s = true -> Js.startsWith p (s ++ t) = true.
Proof.
  revert s. induction p as [|a p IH]; intros s H; [reflexivity|].
  destruct s as [|b s]; [discriminate|].
  simpl in *. destruct (Ascii.eqb a b); [now apply IH|discriminate].
Qed.

Lemma includes_app_l (s t p : string) :
  Js.includes s p = true -> Js.includes (s ++ t) p = true.
Proof.
  induction s as [|b s IH]; intros H.
  - rewrite includes_nil in H. destruct p; [|discriminate]. now destruct t.
  - cbn [Js.includes] in H.
    change (String b s ++ t) with (String b (s ++ t)). cbn [Js.includes].
    change (String b (s ++ t)) with (String b s ++ t).
    destruct (Js.startsWith p (String b s)) eqn:E.
    + now rewrite (startsWith_app_l p (String b s) t E).
    + destruct (Js.startsWith p (String b s ++ t)); [reflexivity|now apply IH].
Qed.

End FramedStrings.

(** ** The operations end to end *)

Section Runs.

Variable w : World.
Variable key : string.
Hypothesis key_set : API_KEY w = Some key.
Hypothesis key_truthy : Js.truthy_string key = true.

Lemma generateImageWithImagen_run
    (p : string) (st : ArtStyle) (ratio : Num.number) (t : Trace) :
  let req := imagen_request (p ++ getImagenStyleSuffix st) ratio in
  generateImageWithImagen w p st ratio t
  = match remote_generateImages w key req with
    | inl e => (inl e, called (CallGenerateImages key req) t)
    | inr response =>
        imagen_response (p ++ getImagenStyleSuffix st) response
          (called (CallGenerateImages key req) t)
    end.
Proof.
  cbv zeta. unfold generateImageWithImagen, bind.
  rewrite (getAiClient_ok w key t key_set key_truthy).
  unfold generateImages, bind, record_call, lift_remote, throw, ret, called.
  destruct (remote_generateImages w key _); reflexivity.
Qed.

Lemma regenerateImageWithGemini_run (d : string) (st : ArtStyle) (t : Trace) :
  let req := gemini_request d (getGeminiInstructionalPrompt st) in
  regenerateImageWithGemini w d st t
  = match remote_generateContent w key req with
    | inl e => (inl e, called (CallGenerateContent key req) t)
    | inr response =>
        gemini_response (getGeminiInstructionalPrompt st) response
          (called (CallGenerateContent key req) t)
    end.
Proof.
  cbv zeta. unfold regenerateImageWithGemini, bind.
  rewrite (getAiClient_ok w key t key_set key_truthy).
  unfold generateContent, bind, record_call, lift_remote, throw, ret, called.
  destruct (remote_generateContent w key _); reflexivity.
Qed.

Lemma editImage_try_run (d p : string) (t : Trace) :
  editImage_try w d p t
  = match remote_generateContent w key (edit_request d p) with
    | inl e => (inl e, called (CallGenerateContent key (edit_request d p)) t)
    | inr response =>
        edit_response p response (called (CallGenerateContent key (edit_request d p)) t)
    end.
Proof.
  unfold editImage_try, bind.
  rewrite (getAiClient_ok w key t key_set key_truthy).
  unfold generateContent, bind, record_call, lift_remote, throw, ret, called.
  destruct (remote_generateContent w key _); reflexivity.
Qed.

End Runs.

Lemma regenerateImage_try_imagen (w : World) (o : RegenerateOptions) (p : string) (t : Trace) :
  model o = imagen -> prompt_opt o = Some p -> Js.truthy_string p = true ->
  regenerateImage_try w o t = generateImageWithImagen w p (style o) (aspectRatio o) t.
Proof. intros M P T. unfold regenerateImage_try. now rewrite M, P, T. Qed.

Lemma regenerateImage_try_gemini (w : World) (o : RegenerateOptions) (d : string) (t : Trace) :
  model o = gemini -> base64Data o = Some d -> Js.truthy_string d = true ->
  regenerateImage_try w o t = regenerateImageWithGemini w d (style o) t.
Proof. intros M P T. unfold regenerateImage_try. now rewrite M, P, T. Qed.

(** The three searches of the [catch] clauses, on a "blocked" message
    built around a reason. *)
Lemma blocked_message_signals (pre reason post : string) :
  Frame.no_overlap pre "API key not valid" = true ->
  Frame.no_overlap pre "429" = true ->
  Frame.no_overlap pre "RESOURCE_EXHAUSTED" = true ->
  Js.includes pre "blocked" = true ->
  let msg := pre ++ reason ++ String "."%char post in
  Js.includes (String "."%char post) "API key not valid" = false ->
  Js.includes (String "."%char post) "429" = false ->
  Js.includes (String "."%char post) "RESOURCE_EXHAUSTED" = false ->
  Js.includes msg "API key not valid" = Js.includes reason "API key not valid"
  /\ Js.includes msg "429" = Js.includes reason "429"
  /\ Js.includes msg "RESOURCE_EXHAUSTED" = Js.includes reason "RESOURCE_EXHAUSTED"
  /\ Js.includes msg "blocked" = true.
Proof.
  intros A B C D msg A' B' C'. unfold msg.
  repeat split; try (apply includes_framed; [assumption|reflexivity|assumption]).
  now apply includes_app_l.
Qed.

Lemma regenerateImage_catch_blocked_message
    (m : RegenerationModel) (pre reason post : string) (t : Trace) :
  Frame.no_overlap pre "API key not valid" = true ->
  Frame.no_overlap pre "429" = true ->
  Frame.no_overlap pre "RESOURCE_EXHAUSTED" = true ->
  Js.includes pre "blocked" = true ->
  Js.includes (String "."%char post) "API key not valid" = false ->
  Js.includes (String "."%char post) "429" = false ->
  Js.includes (String "."%char post) "RESOURCE_EXHAUSTED" = false ->
  let blocked := JsError (pre ++ reason ++ String "."%char post) in
  regenerateImage_catch m blocked t
  = (inl (blocked_outcome reason blocked), logged m blocked t).
Proof.
  intros A B C D A' B' C' blocked.
  destruct (blocked_message_signals pre reason post A B C D A' B' C')
    as (S1 & S2 & S3 & S4).
  unfold blocked_outcome.
  destruct (Js.includes reason "API key not valid") eqn:E1.
  { apply catch_credentials. unfold is_credentials_signal, blocked, mentions.
    now rewrite S1. }
  destruct (Js.includes reason "429" || Js.includes reason "RESOURCE_EXHAUSTED") eqn:E2.
  { apply catch_rate; unfold is_credentials_signal, is_rate_signal, blocked, mentions.
    - now rewrite S1.
    - now rewrite S2, S3. }
  apply catch_blocked;
    unfold is_credentials_signal, is_rate_signal, is_blocked, blocked, mentions.
  - now rewrite S1.
  - now rewrite S2, S3.
  - exact S4.
Qed.

Lemma editImage_catch_blocked_message
    (pre reason post : string) (t : Trace) :
  Frame.no_overlap pre "API key not valid" = true ->
  Frame.no_overlap pre "429" = true ->
  Frame.no_overlap pre "RESOURCE_EXHAUSTED" = true ->
  Js.includes pre "blocked" = true ->
  Js.includes (String "."%char post) "API key not valid" = false ->
  Js.includes (String "."%char post) "429" = false ->
  Js.includes (String "."%char post) "RESOURCE_EXHAUSTED" = false ->
  let blocked := JsError (pre ++ reason ++ String "."%char post) in
  editImage_catch blocked t
  = (inl (blocked_outcome reason blocked), logged_edit blocked t).
Proof.
  intros A B C D A' B' C' blocked.
  destruct (blocked_message_signals pre reason post A B C D A' B' C')
    as (S1 & S2 & S3 & S4).
  unfold blocked_outcome, editImage_catch, bind, console_error, throw, blocked,
    logged_edit.
  rewrite S1, S2, S3, S4.
  destruct (Js.includes reason "API key not valid"); [reflexivity|].
  destruct (Js.includes reason "429" || Js.includes reason "RESOURCE_EXHAUSTED");
    reflexivity.
Qed.

(** X1.  [regenerateImage] with the text-conditioned model, a key and a
    prompt, when the backend answers without image bytes and with a
    block reason: the adapter raises "Image generation was blocked.
    Reason: <reason>. Please try a different frame.", and what leaves
    [regenerateImage] is decided by the reason alone.  If the reason
    contains "API key not valid" it is the invalid-credentials error;
    otherwise, if it contains "429" or "RESOURCE_EXHAUSTED", the
    rate-limit error; otherwise the blocked error itself, unchanged.
    One call has been made and the blocked error has been logged. *)
Theorem imagen_block_reason_decides_the_error
    (w : World) (key p reason : string) (o : RegenerateOptions)
    (response : GenerateImagesResponse) (t : Trace) :
  API_KEY w = Some key -> Js.truthy_string key = true ->
  model o = imagen -> prompt_opt o = Some p -> Js.truthy_string p = true ->
  let req := imagen_request (p ++ getImagenStyleSuffix (style o)) (aspectRatio o) in
  remote_generateImages w key req = inr response ->
  Js.truthy (generated_bytes (first_generated response)) = false ->
  feedback_blockReason (imagesPromptFeedback response) = Some reason ->
  Js.truthy_string reason = true ->
  let blocked := JsError ("Image generation was blocked. Reason: " ++ reason
                          ++ ". Please try a different frame.") in
  regenerateImage w o t
  = (inl (blocked_outcome reason blocked),
     logged imagen blocked (called (CallGenerateImages key req) t)).
Proof.
  intros K KT M P PT req R B F FT blocked.
  assert (Htry : regenerateImage_try w o t
                 = (inl blocked, called (CallGenerateImages key req) t)).
  { rewrite (regenerateImage_try_imagen w o p t M P PT).
    rewrite (generateImageWithImagen_run w key K KT). fold req. rewrite R.
    unfold imagen_response. rewrite B, F. cbn [Js.truthy]. rewrite FT.
    reflexivity. }
  rewrite (regenerateImage_on_throw w o t _ _ Htry), M.
  apply (regenerateImage_catch_blocked_message imagen
           "Image generation was blocked. Reason: " reason
           " Please try a different frame."); reflexivity.
Qed.

Lemma imagen_block_reason_decides_the_error_witness :
  fst (regenerateImage
         (Sample.answering Sample.safety_stop
            {| generatedImages := Some [];
               imagesPromptFeedback := Some {| blockReason := Some "PROHIBITED_CONTENT" |} |})
         (Sample.options imagen None (Some "a red kite")) no_trace)
  = inl (JsError "Image generation was blocked. Reason: PROHIBITED_CONTENT. Please try a different frame.").
Proof.
  rewrite (imagen_block_reason_decides_the_error
             (Sample.answering Sample.safety_stop
                {| generatedImages := Some [];
                   imagesPromptFeedback := Some {| blockReason := Some "PROHIBITED_CONTENT" |} |})
             "k" "a red kite" "PROHIBITED_CONTENT"
             (Sample.options imagen None (Some "a red kite")) _ no_trace
             eq_refl eq_refl eq_refl eq_refl eq_refl eq_refl eq_refl eq_refl eq_refl).
  reflexivity.
Defined.

(** X2.  The same for the image-conditioned model: when the response
    has no inline image and the block condition holds, the reason
    stated is [finishReason || blockReason], the adapter raises "Image
    regeneration was blocked. Reason: <reason>. Please try a different
    style or frame.", and what leaves [regenerateImage] is decided by
    that reason in the same way. *)
Theorem gemini_block_reason_decides_the_error
    (w : World) (key d reason : string) (o : RegenerateOptions)
    (response : GenerateContentResponse) (t : Trace) :
  API_KEY w = Some key -> Js.truthy_string key = true ->
  model o = gemini -> base64Data o = Some d -> Js.truthy_string d = true ->
  let req := gemini_request d (getGeminiInstructionalPrompt (style o)) in
  remote_generateContent w key req = inr response ->
  let candidate := first_candidate response in
  let fr := candidate_finishReason candidate in
  let br := feedback_blockReason (promptFeedback response) in
  scan_candidate candidate = None ->
  block_signal fr br = true ->
  Js.or_else fr br = Some reason ->
  let blocked := JsError ("Image regeneration was blocked. Reason: " ++ reason
                          ++ ". Please try a different style or frame.") in
  regenerateImage w o t
  = (inl (blocked_outcome reason blocked),
     logged gemini blocked (called (CallGenerateContent key req) t)).
Proof.
  intros K KT M P PT req R candidate fr br S B O blocked.
  assert (Htry : regenerateImage_try w o t
                 = (inl blocked, called (CallGenerateContent key req) t)).
  { rewrite (regenerateImage_try_gemini w o d t M P PT).
    rewrite (regenerateImageWithGemini_run w key K KT). fold req. rewrite R.
    unfold gemini_response. fold candidate. rewrite S. fold fr br.
    rewrite B, O. reflexivity. }
  rewrite (regenerateImage_on_throw w o t _ _ Htry), M.
  apply (regenerateImage_catch_blocked_message gemini
           "Image regeneration was blocked. Reason: " reason
           " Please try a different style or frame."); reflexivity.
Qed.

Lemma gemini_block_reason_decides_the_error_witness :
  fst (regenerateImage
         (Sample.answering
            (Sample.content_response [] None (Some "PROHIBITED_CONTENT"))
            Sample.no_images)
         (Sample.options gemini (Some "QUJD") None) no_trace)
  = inl (JsError "Image regeneration was blocked. Reason: PROHIBITED_CONTENT. Please try a different style or frame.").
Proof.
  rewrite (gemini_block_reason_decides_the_error
             (Sample.answering
                (Sample.content_response [] None (Some "PROHIBITED_CONTENT"))
                Sample.no_images)
             "k" "QUJD" "PROHIBITED_CONTENT"
             (Sample.options gemini (Some "QUJD") None) _ no_trace
             eq_refl eq_refl eq_refl eq_refl eq_refl eq_refl eq_refl eq_refl eq_refl).
  reflexivity.
Defined.

(** X3.  The same for [editImage], with its own text: "Image editing
    was blocked. Reason: <reason>. Please modify your prompt and try
    again." leaves it unchanged unless the reason itself contains one
    of the credential or rate-limit signals. *)
Theorem edit_block_reason_decides_the_error
    (w : World) (key d p reason : string)
    (response : GenerateContentResponse) (t : Trace) :
  API_KEY w = Some key -> Js.truthy_string key = true ->
  remote_generateContent w key (edit_request d p) = inr response ->
  let candidate := first_candidate response in
  let fr := candidate_finishReason candidate in
  let br := feedback_blockReason (promptFeedback response) in
  scan_candidate candidate = None ->
  block_signal fr br = true ->
  Js.or_else fr br = Some reason ->
  let blocked := JsError ("Image editing was blocked. Reason: " ++ reason
                          ++ ". Please modify your prompt and try again.") in
  editImage w d p t
  = (inl (blocked_outcome reason blocked),
     logged_edit blocked (called (CallGenerateContent key (edit_request d p)) t)).
Proof.
  intros K KT R candidate fr br S B O blocked.
  assert (Htry : editImage_try w d p t
                 = (inl blocked, called (CallGenerateContent key (edit_request d p)) t)).
  { rewrite (editImage_try_run w key K KT). rewrite R.
    unfold edit_response. fold candidate. rewrite S. fold fr br.
    rewrite B, O. reflexivity. }
  rewrite (editImage_on_throw w d p t _ _ Htry).
  apply (editImage_catch_blocked_message
           "Image editing was blocked. Reason: " reason
           " Please modify your prompt and try again."); reflexivity.
Qed.

Lemma edit_block_reason_decides_the_error_witness :
  fst (editImage
         (Sample.answering Sample.safety_stop Sample.no_images)
         "QUJD" "make the sky purple" no_trace)
  = inl (JsError "Image editing was blocked. Reason: SAFETY. Please modify your prompt and try again.").
Proof.
  rewrite (edit_block_reason_decides_the_error
             (Sample.answering Sample.safety_stop Sample.no_images)
             "k" "QUJD" "make the sky purple" "SAFETY" _ no_trace
             eq_refl eq_refl eq_refl eq_refl eq_refl eq_refl).
  reflexivity.
Defined.

(** ** No image and no block *)

(** X4.  When the backend answers without an image and without a
    block signal, each operation raises its "no image" message inside
    its [try] block and its own [catch] clause replaces it: the caller
    of [regenerateImage] gets the fixed failure that names the model,
    the caller of [editImage] the fixed editing failure; the "no
    image" message is logged, and one call has been made. *)
Theorem no_image_leaves_as_fixed_failure
    (w : World) (key : string) (t : Trace) :
  API_KEY w = Some key -> Js.truthy_string key = true ->
  (forall o p response,
      model o = imagen -> prompt_opt o = Some p -> Js.truthy_string p = true ->
      let req := imagen_request (p ++ getImagenStyleSuffix (style o)) (aspectRatio o) in
      remote_generateImages w key req = inr response ->
      Js.truthy (generated_bytes (first_generated response)) = false ->
      Js.truthy (feedback_blockReason (imagesPromptFeedback response)) = false ->
      regenerateImage w o t
      = (inl (unknown_failure_error imagen),
         logged imagen (JsError "No image was generated by Imagen.")
           (called (CallGenerateImages key req) t)))
  /\ (forall o d response,
      model o = gemini -> base64Data o = Some d -> Js.truthy_string d = true ->
      let req := gemini_request d (getGeminiInstructionalPrompt (style o)) in
      remote_generateContent w key req = inr response ->
      scan_candidate (first_candidate response) = None ->
      block_signal (candidate_finishReason (first_candidate response))
                   (feedback_blockReason (promptFeedback response)) = false ->
      regenerateImage w o t
      = (inl (unknown_failure_error gemini),
         logged gemini (JsError "No image was generated by Gemini.")
           (called (CallGenerateContent key req) t)))
  /\ (forall d p response,
      remote_generateContent w key (edit_request d p) = inr response ->
      scan_candidate (first_candidate response) = None ->
      block_signal (candidate_finishReason (first_candidate response))
                   (feedback_blockReason (promptFeedback response)) = false ->
      editImage w d p t
      = (inl edit_failure_error,
         logged_edit (JsError "No image was generated in the API response for editing.")
           (called (CallGenerateContent key (edit_request d p)) t))).
Proof.
  intros K KT. split; [|split].
  - intros o p response M P PT req R B F.
    assert (Htry : regenerateImage_try w o t
              = (inl (JsError "No image was generated by Imagen."),
                 called (CallGenerateImages key req) t)).
    { rewrite (regenerateImage_try_imagen w o p t M P PT).
      rewrite (generateImageWithImagen_run w key K KT). fold req. rewrite R.
      unfold imagen_response. now rewrite B, F. }
    rewrite (regenerateImage_on_throw w o t _ _ Htry), M.
    now apply catch_unknown.
  - intros o d response M P PT req R S B.
    assert (Htry : regenerateImage_try w o t
              = (inl (JsError "No image was generated by Gemini."),
                 called (CallGenerateContent key req) t)).
    { rewrite (regenerateImage_try_gemini w o d t M P PT).
      rewrite (regenerateImageWithGemini_run w key K KT). fold req. rewrite R.
      unfold gemini_response. now rewrite S, B. }
    rewrite (regenerateImage_on_throw w o t _ _ Htry), M.
    now apply catch_unknown.
  - intros d p response R S B.
    assert (Htry : editImage_try w d p t
              = (inl (JsError "No image was generated in the API response for editing."),
                 called (CallGenerateContent key (edit_request d p)) t)).
    { rewrite (editImage_try_run w key K KT), R.
      unfold edit_response. now rewrite S, B. }
    rewrite (editImage_on_throw w d p t _ _ Htry). reflexivity.
Qed.

Lemma no_image_leaves_as_fixed_failure_witness :
  fst (regenerateImage Sample.text_only
         (Sample.options imagen None (Some "a red kite")) no_trace)
    = inl (unknown_failure_error imagen)
  /\ fst (editImage Sample.text_only "QUJD" "make the sky purple" no_trace)
    = inl edit_failure_error.
Proof.
  destruct (no_image_leaves_as_fixed_failure Sample.text_only "k" no_trace
              eq_refl eq_refl) as (A & _ & C).
  split.
  - rewrite (A (Sample.options imagen None (Some "a red kite")) "a red kite"
               Sample.no_images eq_refl eq_refl eq_refl eq_refl eq_refl eq_refl).
    reflexivity.
  - rewrite (C "QUJD" "make the sky purple" _ eq_refl eq_refl eq_refl).
    reflexivity.
Defined.

(** ** Missing API key *)

Lemma getAiClient_unset (w : World) (t : Trace) :
  Js.truthy (API_KEY w) = false ->
  getAiClient w t
  = (inl (JsError "Gemini API key is not set. Please configure the API_KEY environment variable."), t).
Proof.
  intros H. unfold getAiClient. destruct (API_KEY w) as [k|]; [|reflexivity].
  simpl in H. now rewrite H.
Qed.

(** X5.  Without an API key (unset or empty) no call is made.  The
    "API key is not set" error of [getAiClient] is raised inside the
    [try] blocks, so it is logged and replaced: [regenerateImage]
    raises the fixed failure naming the model, whatever the options,
    and [editImage] the fixed editing failure. *)
Theorem missing_key_is_reported_as_fixed_failure
    (w : World) (t : Trace) :
  Js.truthy (API_KEY w) = false ->
  let unset := JsError "Gemini API key is not set. Please configure the API_KEY environment variable." in
  (forall o,
      input_present o = true ->
      regenerateImage w o t
      = (inl (unknown_failure_error (model o)), logged (model o) unset t))
  /\ (forall o, fst (regenerateImage w o t) = inl (unknown_failure_error (model o))
                /\ calls (snd (regenerateImage w o t)) = calls t)
  /\ (forall d p, editImage w d p t = (inl edit_failure_error, logged_edit unset t)).
Proof.
  intros K unset.
  assert (A : forall o,
      input_present o = true ->
      regenerateImage w o t
      = (inl (unknown_failure_error (model o)), logged (model o) unset t)).
  { intros o Hp.
    assert (Htry : regenerateImage_try w o t = (inl unset, t)).
    { unfold regenerateImage_try. unfold input_present in Hp.
      destruct (model o).
      - destruct (base64Data o) as [d|]; [|discriminate].
        simpl in Hp. rewrite Hp.
        unfold regenerateImageWithGemini, bind. now rewrite (getAiClient_unset w t K).
      - destruct (prompt_opt o) as [p|]; [|discriminate].
        simpl in Hp. rewrite Hp.
        unfold generateImageWithImagen, bind. now rewrite (getAiClient_unset w t K). }
    rewrite (regenerateImage_on_throw w o t _ _ Htry).
    now apply catch_unknown. }
  split; [exact A|]. split.
  - intros o.
    destruct (input_present o) eqn:D.
    + rewrite (A o D). split; reflexivity.
    + unfold input_present in D. destruct (model o) eqn:M.
      * assert (Htry : regenerateImage_try w o t
                  = (inl (JsError "Base64 image data is required for the Gemini model."), t)).
        { unfold regenerateImage_try. rewrite M.
          destruct (base64Data o) as [d|]; [|reflexivity]. simpl in D. now rewrite D. }
        rewrite (regenerateImage_on_throw w o t _ _ Htry), M.
        rewrite catch_unknown by reflexivity. split; reflexivity.
      * assert (Htry : regenerateImage_try w o t
                  = (inl (JsError "A text prompt is required for the Imagen model."), t)).
        { unfold regenerateImage_try. rewrite M.
          destruct (prompt_opt o) as [d|]; [|reflexivity]. simpl in D. now rewrite D. }
        rewrite (regenerateImage_on_throw w o t _ _ Htry), M.
        rewrite catch_unknown by reflexivity. split; reflexivity.
  - intros d p.
    assert (Htry : editImage_try w d p t = (inl unset, t)).
    { unfold editImage_try, bind. now rewrite (getAiClient_unset w t K). }
    rewrite (editImage_on_throw w d p t _ _ Htry). reflexivity.
Qed.

Lemma missing_key_is_reported_as_fixed_failure_witness :
  regenerateImage (keyless (Sample.answering Sample.safety_stop (Sample.one_image "/9j/4AAQ")))
    (Sample.options imagen None (Some "a red kite")) no_trace
  = (inl (JsError "Failed to regenerate image with imagen. Check the console for details."),
     {| calls := [];
        console := [("Error calling imagen API for regeneration:",
                     JsError "Gemini API key is not set. Please configure the API_KEY environment variable.")] |}).
Proof.
  destruct (missing_key_is_reported_as_fixed_failure
              (keyless (Sample.answering Sample.safety_stop (Sample.one_image "/9j/4AAQ")))
              no_trace eq_refl) as [A _].
  rewrite (A (Sample.options imagen None (Some "a red kite")) eq_refl).
    reflexivity.
Defined.

(** ** What a call of [regenerateImage] leaves behind *)

Lemma app_one_trace (t : Trace) :
  t = {| calls := (calls t ++ [])%list; console := console t |}.
Proof. destruct t. cbn. now rewrite app_nil_r. Qed.

Lemma gemini_response_trace (fp : string) (r : GenerateContentResponse) (t : Trace) :
  snd (gemini_response fp r t) = t.
Proof.
  unfold gemini_response.
  destruct (scan_candidate (first_candidate r)); [reflexivity|].
  destruct (block_signal _ _); reflexivity.
Qed.

Lemma imagen_response_trace (fp : string) (r : GenerateImagesResponse) (t : Trace) :
  snd (imagen_response fp r t) = t.
Proof.
  unfold imagen_response.
  destruct (Js.truthy (generated_bytes (first_generated r))); [reflexivity|].
  destruct (Js.truthy _); reflexivity.
Qed.

(** The [try] block makes at most one call, of the operation of the
    model selected and with the key of the environment, logs nothing,
    and does not return without having made the call. *)
Lemma regenerateImage_try_effects (w : World) (o : RegenerateOptions) (t : Trace) :
  exists cs,
    snd (regenerateImage_try w o t)
      = {| calls := (calls t ++ cs)%list; console := console t |}
    /\ (List.length cs <= 1)%nat
    /\ forallb (call_for (model o)) cs = true
    /\ Forall (fun c => API_KEY w = Some (call_key c)) cs
    /\ (forall r, fst (regenerateImage_try w o t) = inr r -> List.length cs = 1%nat).
Proof.
  assert (None_case : forall e,
            regenerateImage_try w o t = (inl e, t) ->
            exists cs,
              snd (regenerateImage_try w o t)
                = {| calls := (calls t ++ cs)%list; console := console t |}
              /\ (List.length cs <= 1)%nat
              /\ forallb (call_for (model o)) cs = true
              /\ Forall (fun c => API_KEY w = Some (call_key c)) cs
              /\ (forall r, fst (regenerateImage_try w o t) = inr r
                            -> List.length cs = 1%nat)).
  { intros e E. exists []. rewrite E. cbn [fst snd].
    repeat split; [apply app_one_trace|cbn; lia|constructor|discriminate]. }
  destruct (Js.truthy (API_KEY w)) eqn:K;
    [destruct (API_KEY w) as [key|] eqn:K'; [cbn in K|discriminate]|].
  2:{ (* no key *)
    destruct (model o) eqn:M.
    - destruct (base64Data o) as [d|] eqn:D; [destruct (Js.truthy_string d) eqn:DT|].
      + eapply None_case. unfold regenerateImage_try. rewrite M, D, DT.
        unfold regenerateImageWithGemini, bind. now rewrite (getAiClient_unset w t K).
      + eapply None_case. unfold regenerateImage_try. now rewrite M, D, DT.
      + eapply None_case. unfold regenerateImage_try. now rewrite M, D.
    - destruct (prompt_opt o) as [d|] eqn:D; [destruct (Js.truthy_string d) eqn:DT|].
      + eapply None_case. unfold regenerateImage_try. rewrite M, D, DT.
        unfold generateImageWithImagen, bind. now rewrite (getAiClient_unset w t K).
      + eapply None_case. unfold regenerateImage_try. now rewrite M, D, DT.
      + eapply None_case. unfold regenerateImage_try. now rewrite M, D. }
  destruct (model o) eqn:M.
  - destruct (base64Data o) as [d|] eqn:D; [destruct (Js.truthy_string d) eqn:DT|].
    + rewrite (regenerateImage_try_gemini w o d t M D DT).
      rewrite (regenerateImageWithGemini_run w key K' K).
      set (c := CallGenerateContent key _).
      exists [c].
      assert (S : snd match remote_generateContent w key
                              (gemini_request d (getGeminiInstructionalPrompt (style o))) with
                      | inl e => (inl e, called c t)
                      | inr response =>
                          gemini_response (getGeminiInstructionalPrompt (style o))
                            response (called c t)
                      end = called c t).
      { destruct (remote_generateContent w key _); [reflexivity|].
        apply gemini_response_trace. }
      rewrite S. repeat split; try (cbn; lia); try reflexivity.
      now repeat constructor.
    + eapply None_case. unfold regenerateImage_try. now rewrite M, D, DT.
    + eapply None_case. unfold regenerateImage_try. now rewrite M, D.
  - destruct (prompt_opt o) as [p|] eqn:D; [destruct (Js.truthy_string p) eqn:DT|].
    + rewrite (regenerateImage_try_imagen w o p t M D DT).
      rewrite (generateImageWithImagen_run w key K' K).
      set (c := CallGenerateImages key _).
      exists [c].
      assert (S : snd match remote_generateImages w key
                              (imagen_request (p ++ getImagenStyleSuffix (style o))
                                 (aspectRatio o)) with
                      | inl e => (inl e, called c t)
                      | inr response =>
                          imagen_response (p ++ getImagenStyleSuffix (style o))
                            response (called c t)
                      end = called c t).
      { destruct (remote_generateImages w key _); [reflexivity|].
        apply imagen_response_trace. }
      rewrite S. repeat split; try (cbn; lia); try reflexivity.
      now repeat constructor.
    + eapply None_case. unfold regenerateImage_try. now rewrite M, D, DT.
    + eapply None_case. unfold regenerateImage_try. now rewrite M, D.
Qed.

Lemma category_is_error (m : RegenerationModel) (e : Thrown) (c : Category) :
  in_category m e c -> exists msg, e = JsError msg.
Proof.
  destruct c; cbn.
  - destruct e as [msg|v]; [now exists msg|discriminate].
  - intros ->. eexists; reflexivity.
  - intros ->. eexists; reflexivity.
  - intros ->. eexists; reflexivity.
Qed.

(** X6.  What one call of [regenerateImage] leaves behind, in every
    world and for all options: at most one network call, of the
    operation of the selected model and made with the key of the
    environment; when it returns, exactly one call was made and
    nothing was logged; when it fails, what it throws is an [Error]
    and exactly one line was logged, the one naming the model. *)
Theorem regenerateImage_effects (w : World) (o : RegenerateOptions) (t : Trace) :
  exists cs,
    calls (snd (regenerateImage w o t)) = (calls t ++ cs)%list
    /\ (List.length cs <= 1)%nat
    /\ forallb (call_for (model o)) cs = true
    /\ Forall (fun c => API_KEY w = Some (call_key c)) cs
    /\ match fst (regenerateImage w o t) with
       | inr _ =>
           List.length cs = 1%nat
           /\ console (snd (regenerateImage w o t)) = console t
       | inl e =>
           (exists msg, e = JsError msg)
           /\ exists e0,
                console (snd (regenerateImage w o t))
                = (console t
                   ++ [(("Error calling " ++ model_label (model o)
                         ++ " API for regeneration:")%string, e0)])%list
       end.
Proof.
  destruct (regenerateImage_try_effects w o t) as (cs & S & L & F & A & R).
  exists cs.
  destruct (regenerateImage_try w o t) as [[e0|r] t0] eqn:Htry; cbn [fst snd] in *.
  - rewrite (regenerateImage_on_throw w o t t0 e0 Htry).
    destruct (catch_classifies (model o) e0 t0) as (e' & E & c & C).
    rewrite E. cbn [fst snd]. subst t0. cbn.
    repeat split; try assumption.
    + eapply category_is_error; exact C.
    + now exists e0.
  - rewrite (regenerateImage_on_return w o t t0 r Htry). cbn [fst snd].
    subst t0. cbn. repeat split; try assumption. now apply (R r).
Qed.

(** ** [regenerateImage] with the image-conditioned model and [editImage] *)

Lemma regenerateImage_catch_calls (m : RegenerationModel) (e : Thrown) (t : Trace) :
  calls (snd (regenerateImage_catch m e t)) = calls t.
Proof.
  destruct (catch_classifies m e t) as (e' & E & _). now rewrite E.
Qed.

(** X7.  [regenerateImage] with the image-conditioned model and
    [editImage] given the instructional prompt of the style make the
    same network calls, and one returns an image exactly when the
    other does, the same one; they differ in the [prompt] they return
    (the instructional prompt, or the edit record around it). *)
Theorem gemini_regeneration_is_an_edit_with_the_style_prompt
    (w : World) (o : RegenerateOptions) (d : string) (t : Trace) :
  model o = gemini -> base64Data o = Some d -> Js.truthy_string d = true ->
  let fp := getGeminiInstructionalPrompt (style o) in
  calls (snd (regenerateImage w o t)) = calls (snd (editImage w d fp t))
  /\ (forall r, fst (regenerateImage w o t) = inr r ->
                prompt r = fp
                /\ fst (editImage w d fp t)
                   = inr {| image := image r; prompt := edit_record fp |})
  /\ (forall r', fst (editImage w d fp t) = inr r' ->
                 fst (regenerateImage w o t)
                 = inr {| image := image r'; prompt := fp |}).
Proof.
  intros M D DT fp.
  unfold regenerateImage, editImage, try_catch.
  rewrite (regenerateImage_try_gemini w o d t M D DT).
  unfold regenerateImageWithGemini, editImage_try, bind. fold fp.
  change (edit_request d fp) with (gemini_request d fp).
  destruct (getAiClient w t) as [[e|key] t1].
  { rewrite regenerateImage_catch_calls, editImage_catch_calls.
    pose proof (catch_classifies (model o) e t1) as (e1 & E1 & _).
    rewrite E1. cbn [fst].
    repeat split; try discriminate.
    intros r' H. exfalso. revert H.
    unfold editImage_catch, bind, console_error, throw.
    destruct e as [msg|v]; [|discriminate].
    destruct (Js.includes msg "API key not valid"); [discriminate|].
    destruct (_ || _); [discriminate|].
    destruct (Js.includes msg "blocked"); discriminate. }
  destruct (generateContent w key (gemini_request d fp) t1) as [[e|response] t2].
  { rewrite regenerateImage_catch_calls, editImage_catch_calls.
    pose proof (catch_classifies (model o) e t2) as (e1 & E1 & _).
    rewrite E1. cbn [fst].
    repeat split; try discriminate.
    intros r' H. exfalso. revert H.
    unfold editImage_catch, bind, console_error, throw.
    destruct e as [msg|v]; [|discriminate].
    destruct (Js.includes msg "API key not valid"); [discriminate|].
    destruct (_ || _); [discriminate|].
    destruct (Js.includes msg "blocked"); discriminate. }
  unfold gemini_response, edit_response.
  destruct (scan_candidate (first_candidate response)) as [b|].
  { cbn. split; [reflexivity|]. split.
    - intros r H. injection H as <-. split; reflexivity.
    - intros r' H. injection H as <-. reflexivity. }
  assert (NoRet : forall e t', forall r' : Regenerated,
            fst (editImage_catch e t') <> inr r').
  { intros e t' r'. unfold editImage_catch, bind, console_error, throw.
    destruct e as [msg|v]; [|discriminate].
    destruct (Js.includes msg "API key not valid"); [discriminate|].
    destruct (_ || _); [discriminate|].
    destruct (Js.includes msg "blocked"); discriminate. }
  destruct (block_signal _ _); cbn [throw];
    rewrite regenerateImage_catch_calls, editImage_catch_calls;
    (split; [reflexivity|]);
    (split; [intros r H; exfalso;
             match type of H with
             | fst (regenerateImage_catch ?m ?e ?t') = _ =>
                 destruct (catch_classifies m e t') as (e1 & E1 & _);
                 rewrite E1 in H; discriminate
             end
            |intros r' H; exfalso; exact (NoRet _ _ _ H)]).
Qed.

Lemma gemini_regeneration_is_an_edit_with_the_style_prompt_witness :
  fst (editImage
         (Sample.answering
            (Sample.content_response [Sample.image_part "iVBORw0KGgo="] (Some "STOP") None)
            Sample.no_images)
         "QUJD" (getGeminiInstructionalPrompt Style.ANIME) no_trace)
  = inr {| image := Some "iVBORw0KGgo=";
           prompt := edit_record (getGeminiInstructionalPrompt Style.ANIME) |}.
Proof.
  destruct (gemini_regeneration_is_an_edit_with_the_style_prompt
              (Sample.answering
                 (Sample.content_response [Sample.image_part "iVBORw0KGgo="] (Some "STOP") None)
                 Sample.no_images)
              (Sample.options gemini (Some "QUJD") None) "QUJD" no_trace
              eq_refl eq_refl eq_refl) as (_ & A & _).
  exact (proj2 (A _ eq_refl)).
Defined.

(** ** Trimming *)

Section Strings.

Lemma string_app_nil_r (s : string) : s ++ EmptyString = s.
Proof. induction s; simpl; congruence. Qed.

Lemma string_app_assoc (a b c : string) : (a ++ b) ++ c = a ++ b ++ c.
Proof. induction a; simpl; congruence. Qed.

Lemma rev_onto_app (s acc : string) :
  Whitespace.rev_onto s acc = Whitespace.reverse s ++ acc.
Proof.
  unfold Whitespace.reverse. revert acc.
  induction s as [|c s IH]; intros acc; [reflexivity|].
  simpl. rewrite IH, (IH (String c EmptyString)), string_app_assoc. reflexivity.
Qed.

Lemma reverse_cons (c : ascii) (s : string) :
  Whitespace.reverse (String c s) = Whitespace.reverse s ++ String c EmptyString.
Proof. unfold Whitespace.reverse at 1. simpl. apply rev_onto_app. Qed.

Lemma reverse_app (a b : string) :
  Whitespace.reverse (a ++ b) = Whitespace.reverse b ++ Whitespace.reverse a.
Proof.
  induction a as [|c a IH]; simpl.
  - now rewrite string_app_nil_r.
  - now rewrite !reverse_cons, IH, string_app_assoc.
Qed.

Lemma reverse_involutive (s : string) :
  Whitespace.reverse (Whitespace.reverse s) = s.
Proof.
  induction s as [|c s IH]; [reflexivity|].
  rewrite reverse_cons, reverse_app, IH. reflexivity.
Qed.

Lemma join_app (a b : list string) :
  Whitespace.join (a ++ b)%list = Whitespace.join a ++ Whitespace.join b.
Proof.
  induction a as [|x a IH]; [reflexivity|].
  cbn [List.app Whitespace.join fold_right] in *.
  fold (Whitespace.join (a ++ b)%list). fold (Whitespace.join a).
  now rewrite IH, string_app_assoc.
Qed.

Lemma reverse_join (l : list string) :
  Whitespace.reverse (Whitespace.join l)
  = Whitespace.join (rev (map Whitespace.reverse l)).
Proof.
  induction l as [|x l IH]; [reflexivity|].
  change (Whitespace.join (x :: l)) with (x ++ Whitespace.join l).
  rewrite reverse_app, IH. cbn [map rev]. rewrite join_app.
  cbn [Whitespace.join fold_right]. now rewrite string_app_nil_r.
Qed.

End Strings.

Section Stripping.

Variable ps : list string.
Hypothesis ps_nonempty : Forall (fun p => p <> EmptyString) ps.

Lemma drop_prefix_spec (p s r : string) :
  Whitespace.drop_prefix p s = Some r <-> s = p ++ r.
Proof.
  revert s. induction p as [|a p IH]; intros s; simpl.
  - split; [now intros [= ->]|now intros ->].
  - destruct s as [|c s]; [split; discriminate|].
    destruct (Ascii.eqb_spec a c) as [->|N].
    + rewrite IH. split; [now intros ->|now intros [= ->]].
    + split; [discriminate|]. intros [= E _]. congruence.
Qed.

Lemma drop_any_some (s r : string) :
  Whitespace.drop_any ps s = Some r -> exists p, In p ps /\ s = p ++ r.
Proof.
  clear ps_nonempty. induction ps as [|p l IH]; simpl; [discriminate|].
  destruct (Whitespace.drop_prefix p s) as [r'|] eqn:E.
  - intros [= ->]. exists p. split; [now left|]. now apply drop_prefix_spec.
  - intros H. destruct (IH H) as (q & I & ->). exists q. split; [now right|reflexivity].
Qed.

Lemma drop_any_none (s : string) :
  Whitespace.drop_any ps s = None ->
  forall p r, In p ps -> s <> p ++ r.
Proof.
  clear ps_nonempty. induction ps as [|q l IH]; simpl; [intros _ p r []|].
  destruct (Whitespace.drop_prefix q s) as [r'|] eqn:E; [discriminate|].
  intros H p r [->|I] C.
  - apply drop_prefix_spec in C. congruence.
  - exact (IH H p r I C).
Qed.

Lemma drop_any_shorter (s r : string) :
  Whitespace.drop_any ps s = Some r -> String.length r < String.length s.
Proof.
  intros H. destruct (drop_any_some s r H) as (p & I & ->).
  rewrite length_app.
  assert (p <> EmptyString) by (rewrite Forall_forall in ps_nonempty; now apply ps_nonempty).
  destruct p; [congruence|simpl; lia].
Qed.

Lemma drop_any_nil : Whitespace.drop_any ps EmptyString = None.
Proof.
  destruct (Whitespace.drop_any ps EmptyString) as [r|] eqn:E; [|reflexivity].
  apply drop_any_shorter in E. simpl in E. lia.
Qed.

Lemma strip_fuel_enough (n m : nat) (s : string) :
  String.length s <= n -> String.length s <= m ->
  Whitespace.strip_fuel ps n s = Whitespace.strip_fuel ps m s.
Proof.
  revert m s. induction n as [|n IH]; intros m s Hn Hm.
  - destruct s; [|simpl in Hn; lia].
    destruct m; [reflexivity|]. simpl. now rewrite drop_any_nil.
  - destruct m.
    + destruct s; [|simpl in Hm; lia]. simpl. now rewrite drop_any_nil.
    + simpl. destruct (Whitespace.drop_any ps s) as [r|] eqn:E; [|reflexivity].
      apply drop_any_shorter in E. apply IH; lia.
Qed.

Lemma strip_step (s r : string) :
  Whitespace.drop_any ps s = Some r -> Whitespace.strip ps s = Whitespace.strip ps r.
Proof.
  intros E. unfold Whitespace.strip.
  pose proof (drop_any_shorter s r E) as L.
  destruct (String.length s) as [|n] eqn:Ls; [lia|].
  simpl. rewrite E. apply strip_fuel_enough; lia.
Qed.

Lemma strip_fixed (s : string) :
  Whitespace.drop_any ps s = None -> Whitespace.strip ps s = s.
Proof.
  intros E. unfold Whitespace.strip.
  destruct (String.length s); [reflexivity|]. simpl. now rewrite E.
Qed.

(** What [strip] leaves begins with none of [ps], and what it took
    off is a sequence of members of [ps]. *)
Lemma strip_spec (s : string) :
  Whitespace.drop_any ps (Whitespace.strip ps s) = None
  /\ exists l, Forall (fun p => In p ps) l
               /\ s = Whitespace.join l ++ Whitespace.strip ps s.
Proof.
  remember (String.length s) as n eqn:Hn.
  revert s Hn. induction n as [n IH] using lt_wf_ind. intros s Hn.
  destruct (Whitespace.drop_any ps s) as [r|] eqn:E.
  - rewrite (strip_step s r E).
    pose proof (drop_any_shorter s r E) as L.
    destruct (IH (String.length r) ltac:(lia) r eq_refl) as [A (l & F & D)].
    split; [exact A|].
    destruct (drop_any_some s r E) as (p & I & ->).
    exists (p :: l). split; [now constructor|].
    rewrite D at 1.
    change (Whitespace.join (p :: l)) with (p ++ Whitespace.join l).
    now rewrite string_app_assoc.
  - rewrite (strip_fixed s E). split; [exact E|].
    exists []. split; [constructor|reflexivity].
Qed.

Lemma strip_idempotent (s : string) :
  Whitespace.strip ps (Whitespace.strip ps s) = Whitespace.strip ps s.
Proof. apply strip_fixed, strip_spec. Qed.

End Stripping.

Lemma code_points_nonempty : Forall (fun p => p <> EmptyString) Whitespace.code_points.
Proof. repeat constructor; discriminate. Qed.

Lemma reversed_code_points_nonempty :
  Forall (fun p => p <> EmptyString) (map Whitespace.reverse Whitespace.code_points).
Proof. repeat constructor; discriminate. Qed.

Lemma trimEnd_spec (s : string) :
  Whitespace.trimEnd (Whitespace.trimEnd s) = Whitespace.trimEnd s
  /\ exists l, Forall (fun p => In p Whitespace.code_points) l
               /\ s = Whitespace.trimEnd s ++ Whitespace.join l.
Proof.
  unfold Whitespace.trimEnd. split.
  - rewrite reverse_involutive.
    now rewrite (strip_idempotent _ reversed_code_points_nonempty).
  - destruct (strip_spec _ reversed_code_points_nonempty (Whitespace.reverse s))
      as [_ (l & F & D)].
    exists (rev (map Whitespace.reverse l)). split.
    + apply Forall_rev. apply Forall_map.
      eapply Forall_impl; [|exact F]. intros p Hp. cbv beta in Hp.
      apply in_map_iff in Hp. destruct Hp as (q & <- & Hq).
      now rewrite reverse_involutive.
    + rewrite <- reverse_join, <- reverse_app, <- D.
      now rewrite reverse_involutive.
Qed.

(** [trim] takes white space off both ends, leaves none at either
    end, and so changes nothing when applied again. *)
Lemma trim_spec (s : string) :
  (exists before after,
      Forall (fun p => In p Whitespace.code_points) before
      /\ Forall (fun p => In p Whitespace.code_points) after
      /\ s = Whitespace.join before ++ Whitespace.trim s ++ Whitespace.join after)
  /\ Whitespace.trimStart (Whitespace.trim s) = Whitespace.trim s
  /\ Whitespace.trimEnd (Whitespace.trim s) = Whitespace.trim s
  /\ Whitespace.trim (Whitespace.trim s) = Whitespace.trim s.
Proof.
  destruct (strip_spec _ code_points_nonempty s) as [N (before & Fb & Db)].
  fold (Whitespace.trimStart s) in N, Db.
  destruct (trimEnd_spec (Whitespace.trimStart s)) as [I (after & Fa & Da)].
  fold (Whitespace.trim s) in I, Da.
  assert (S : Whitespace.trimStart (Whitespace.trim s) = Whitespace.trim s).
  { apply strip_fixed.
    destruct (Whitespace.drop_any Whitespace.code_points (Whitespace.trim s))
      as [r|] eqn:E; [|reflexivity].
    destruct (drop_any_some _ _ _ E) as (p & Hp & Hr).
    exfalso. apply (drop_any_none _ _ N p (r ++ Whitespace.join after) Hp).
    rewrite Da at 1. rewrite Hr. apply string_app_assoc. }
  split; [|split; [exact S|split; [exact I|]]].
  - exists before, after. split; [exact Fb|]. split; [exact Fa|].
    rewrite Db at 1. now rewrite Da at 1.
  - unfold Whitespace.trim at 1. rewrite S. exact I.
Qed.

(** ** The text operations *)

Section TextRuns.

Variable w : TextWorld.
Variable key : string.
Hypothesis key_set : API_KEY (env w) = Some key.
Hypothesis key_truthy : Js.truthy_string key = true.

Lemma lift_getAiClient_ok (s : Trace * list TextCall) :
  lift (getAiClient (env w)) s = (inr key, s).
Proof.
  unfold lift. rewrite (getAiClient_ok (env w) key (fst s) key_set key_truthy).
  now destruct s.
Qed.

Lemma translateText_run (textToTranslate targetLanguage : string)
    (s : Trace * list TextCall) :
  let req := translate_request textToTranslate targetLanguage in
  translateText w textToTranslate targetLanguage s
  = match remote_generateText w key req with
    | inl e => (inl e, (fst s, (snd s ++ [(key, req)])%list))
    | inr response =>
        match response_text response with
        | Some answer =>
            (inr (Whitespace.trim answer), (fst s, (snd s ++ [(key, req)])%list))
        | None =>
            (inl (JsError (undefined_read w "trim")),
             (fst s, (snd s ++ [(key, req)])%list))
        end
    end.
Proof.
  cbv zeta. unfold translateText, bindT. rewrite lift_getAiClient_ok.
  unfold generateText.
  destruct (remote_generateText w key _) as [e|response]; [reflexivity|].
  destruct (response_text response); reflexivity.
Qed.

Lemma describeImage_run (base64Data : string) (s : Trace * list TextCall) :
  let req := describe_request base64Data in
  describeImage w base64Data s
  = match remote_generateText w key req with
    | inl e => (inl e, (fst s, (snd s ++ [(key, req)])%list))
    | inr response =>
        (inr (response_text response), (fst s, (snd s ++ [(key, req)])%list))
    end.
Proof.
  cbv zeta. unfold describeImage, bindT. rewrite lift_getAiClient_ok.
  unfold generateText.
  destruct (remote_generateText w key _) as [e|response]; reflexivity.
Qed.

End TextRuns.

(** X8.  With a key, when the backend answers with a text,
    [translateText] makes one call and returns that text without the
    white space at its two ends: the answer is the result between two
    runs of white-space code points, and the result neither begins
    nor ends with one.  The request has one part, a text that
    contains the target language and ends with the text to translate
    between double quotes. *)
Theorem translateText_returns_the_trimmed_answer
    (w : TextWorld) (key textToTranslate targetLanguage answer : string)
    (response : TextResponse) (s : Trace * list TextCall) :
  API_KEY (env w) = Some key -> Js.truthy_string key = true ->
  let req := translate_request textToTranslate targetLanguage in
  remote_generateText w key req = inr response ->
  response_text response = Some answer ->
  exists result,
    translateText w textToTranslate targetLanguage s
      = (inr result, (fst s, (snd s ++ [(key, req)])%list))
    /\ (exists before after,
          Forall (fun p => In p Whitespace.code_points) before
          /\ Forall (fun p => In p Whitespace.code_points) after
          /\ answer = Whitespace.join before ++ result ++ Whitespace.join after)
    /\ Whitespace.trimStart result = result
    /\ Whitespace.trimEnd result = result
    /\ (exists intro,
          map text (text_parts req)
          = [Some (intro ++ Js.dquote ++ textToTranslate ++ Js.dquote)]
          /\ Js.includes intro targetLanguage = true).
Proof.
  intros K KT req R A. exists (Whitespace.trim answer).
  split.
  { rewrite (translateText_run w key K KT). fold req. now rewrite R, A. }
  destruct (trim_spec answer) as (D & S & E & _).
  split; [exact D|]. split; [exact S|]. split; [exact E|].
  exists ("Translate the following text to " ++ targetLanguage
          ++ ". Only return the translated text, without any additional explanations, labels, or context."
          ++ newline ++ "Text: ").
  split.
  - cbn [req translate_request text_parts map text]. unfold translate_prompt.
    do 2 f_equal. now rewrite !string_app_assoc.
  - apply includes_middle.
Qed.

Lemma translateText_returns_the_trimmed_answer_witness :
  fst (translateText (TextSample.answering (Some "k") (Some TextSample.padded_answer))
         "Good morning" "Indonesian" TextSample.start)
  = inr "Selamat pagi".
Proof.
  destruct (translateText_returns_the_trimmed_answer
              (TextSample.answering (Some "k") (Some TextSample.padded_answer))
              "k" "Good morning" "Indonesian" TextSample.padded_answer
              {| response_text := Some TextSample.padded_answer |} TextSample.start
              eq_refl eq_refl eq_refl eq_refl) as (r & E & _).
  pose proof E as C. vm_compute in C. injection C as C. subst r.
  rewrite E. reflexivity.
Defined.

(** X9.  [translateText] and [describeImage] have no [catch] clause:
    without an API key the error of [getAiClient] reaches the caller
    as it is and no call is made; with a key, what the transport
    rejects with reaches the caller as it is, after the one call.
    Nothing is logged in either case. *)
Theorem text_operations_pass_errors_on_unchanged
    (w : TextWorld) (s : Trace * list TextCall) :
  let unset := JsError "Gemini API key is not set. Please configure the API_KEY environment variable." in
  (Js.truthy (API_KEY (env w)) = false ->
   forall a b, translateText w a b s = (inl unset, s)
               /\ describeImage w a s = (inl unset, s))
  /\ (forall key e a b,
        API_KEY (env w) = Some key -> Js.truthy_string key = true ->
        remote_generateText w key (translate_request a b) = inl e ->
        translateText w a b s
        = (inl e, (fst s, (snd s ++ [(key, translate_request a b)])%list)))
  /\ (forall key e d,
        API_KEY (env w) = Some key -> Js.truthy_string key = true ->
        remote_generateText w key (describe_request d) = inl e ->
        describeImage w d s
        = (inl e, (fst s, (snd s ++ [(key, describe_request d)])%list))).
Proof.
  intros unset. split; [|split].
  - intros K a b.
    unfold translateText, describeImage, bindT, lift.
    rewrite (getAiClient_unset (env w) (fst s) K). now destruct s.
  - intros key e a b K KT R.
    rewrite (translateText_run w key K KT). now rewrite R.
  - intros key e d K KT R.
    rewrite (describeImage_run w key K KT). now rewrite R.
Qed.

Lemma text_operations_pass_errors_on_unchanged_witness :
  fst (translateText (TextSample.failing (JsError "got status: 429 Too Many Requests"))
         "Good morning" "Indonesian" TextSample.start)
    = inl (JsError "got status: 429 Too Many Requests")
  /\ translateText (TextSample.answering None (Some "Selamat pagi"))
        "Good morning" "Indonesian" TextSample.start
    = (inl (JsError "Gemini API key is not set. Please configure the API_KEY environment variable."),
       TextSample.start).
Proof.
  destruct (text_operations_pass_errors_on_unchanged
              (TextSample.failing (JsError "got status: 429 Too Many Requests"))
              TextSample.start) as (_ & A & _).
  destruct (text_operations_pass_errors_on_unchanged
              (TextSample.answering None (Some "Selamat pagi"))
              TextSample.start) as (B & _).
  split.
  - rewrite (A "k" (JsError "got status: 429 Too Many Requests")
               "Good morning" "Indonesian" eq_refl eq_refl eq_refl).
    reflexivity.
  - exact (proj1 (B eq_refl "Good morning" "Indonesian")).
Defined.

(** X10.  When the response has no text, [describeImage] returns
    [undefined] (it returns the [text] of the response whatever it
    is), while [translateText], which calls [trim] on it, raises the
    [TypeError] of the engine. *)
Theorem absent_text_is_returned_by_describeImage_and_fatal_to_translateText
    (w : TextWorld) (key : string) (s : Trace * list TextCall) :
  API_KEY (env w) = Some key -> Js.truthy_string key = true ->
  (forall d response,
      remote_generateText w key (describe_request d) = inr response ->
      describeImage w d s
      = (inr (response_text response),
         (fst s, (snd s ++ [(key, describe_request d)])%list)))
  /\ (forall a b response,
        remote_generateText w key (translate_request a b) = inr response ->
        response_text response = None ->
        translateText w a b s
        = (inl (JsError (undefined_read w "trim")),
           (fst s, (snd s ++ [(key, translate_request a b)])%list))).
Proof.
  intros K KT. split.
  - intros d response R. rewrite (describeImage_run w key K KT). now rewrite R.
  - intros a b response R N.
    rewrite (translateText_run w key K KT). now rewrite R, N.
Qed.

Lemma absent_text_is_returned_by_describeImage_and_fatal_to_translateText_witness :
  fst (describeImage (TextSample.answering (Some "k") None) "QUJD" TextSample.start)
    = inr None
  /\ fst (translateText (TextSample.answering (Some "k") None)
            "Good morning" "Indonesian" TextSample.start)
    = inl (JsError "Cannot read properties of undefined (reading 'trim')").
Proof.
  destruct (absent_text_is_returned_by_describeImage_and_fatal_to_translateText
              (TextSample.answering (Some "k") None) "k" TextSample.start
              eq_refl eq_refl) as [A B].
  split.
  - rewrite (A "QUJD" {| response_text := None |} eq_refl). reflexivity.
  - rewrite (B "Good morning" "Indonesian" {| response_text := None |}
               eq_refl eq_refl).
    reflexivity.
Defined.

(** ** The controls *)

(** X11.  [Controls] renders two radio buttons of one group, for
    "gemini" and "imagen" in this order, and exactly one of them is
    checked: the one whose value is [regenerationModel]. *)
Theorem one_radio_per_model_and_the_selected_one_checked
    {A : Type} (props : ControlsProps A) :
  map (Dom.text_attribute "type") (radios props) = [Some "radio"; Some "radio"]
  /\ map (Dom.text_attribute "name") (radios props)
     = [Some "regeneration-model"; Some "regeneration-model"]
  /\ map (Dom.text_attribute "value") (radios props)
     = [Some "gemini"; Some "imagen"]
  /\ map (Dom.text_attribute "value") (filter is_checked (radios props))
     = [Some (model_label (regenerationModel props))].
Proof.
  destruct props as [st osc oreg m omc d]. unfold radios.
  destruct m; (split; [reflexivity|]); (split; [reflexivity|]);
    split; reflexivity.
Qed.

(** X12.  The elements of [Controls] that carry a handler are the
    style selector, the two radio buttons and the button, in this
    order; each has [disabled] set to the [disabled] of the props; and
    an event on them calls, respectively, [onStyleChange] with the
    value of the event's target, [onModelChange] with "gemini",
    [onModelChange] with "imagen", and [onRegenerate]. *)
Theorem the_four_controls_share_disabled_and_call_their_callbacks
    {A : Type} (props : ControlsProps A) (e : Event) :
  map Dom.tag_of (controls props) = ["select"; "input"; "input"; "button"]
  /\ Forall (fun n => Dom.flag_attribute "disabled" n = Some (disabled props))
            (controls props)
  /\ map (fun h => h e) (flat_map Dom.handlers_of (Dom.elements (Controls props)))
     = [ onStyleChange props (target_value e);
         onModelChange props gemini;
         onModelChange props imagen;
         onRegenerate props tt ].
Proof.
  destruct props as [st osc oreg m omc d]. unfold controls.
  split; [reflexivity|]. split; [|reflexivity].
  cbv [Controls]. cbn. repeat constructor.
Qed.

(** X13.  [Controls] renders one style selector, whose value is
    [selectedStyle] and whose children are one option per member of
    [ArtStyle], in declaration order, each with the label of the style
    as key, value and text; the keys are pairwise different; and the
    value of the selector is the value of one of its options exactly
    when [selectedStyle] is a member of [ArtStyle]. *)
Theorem style_selector_lists_the_eight_styles
    {A : Type} (props : ControlsProps A) :
  exists sel,
    Dom.by_tag "select" (Controls props) = [sel]
    /\ Dom.text_attribute "value" sel = Some (selectedStyle props)
    /\ map (fun o => (Dom.tag_of o, Dom.text_attribute "key" o,
                      Dom.text_attribute "value" o, Dom.text_of o))
           (Dom.children_of sel)
       = map (fun s => ("option", Some s, Some s, [s])) Style.named
    /\ NoDup (map (Dom.text_attribute "key") (Dom.children_of sel))
    /\ (In (Dom.text_attribute "value" sel)
           (map (Dom.text_attribute "value") (Dom.children_of sel))
        <-> In (selectedStyle props) Style.named).
Proof.
  destruct props as [st osc oreg m omc d].
  eexists. split; [reflexivity|]. split; [reflexivity|]. split; [reflexivity|].
  split.
  - cbn. repeat (apply NoDup_cons; [cbn [In]; intuition discriminate|]).
    apply NoDup_nil.
  - cbn. split; intros H;
      repeat (destruct H as [H|H]; [injection H as H; subst; cbn; tauto|]);
      try contradiction.
    all: repeat (destruct H as [H|H]; [subst; tauto|]); contradiction.
Qed.

(** ** Order on binary64 values *)

Ltac cmp_cases :=
  repeat match goal with
         | |- context [Z.compare ?a ?b] => destruct (Z.compare_spec a b)
         | |- context [Pos.compare_cont Eq ?a ?b] =>
             change (Pos.compare_cont Eq a b) with (Pos.compare a b);
             destruct (Pos.compare_spec a b)
         end.

Ltac order_cases3 a b c :=
  destruct a as [[|]|[|]| |[|] ? ?], b as [[|]|[|]| |[|] ? ?],
           c as [[|]|[|]| |[|] ? ?];
  unfold Num.ltb, Num.leb, SFltb, SFleb, SFcompare; try (intros; congruence);
  cmp_cases; simpl; intros; subst; try congruence; try lia.

Ltac order_cases2 a b :=
  destruct a as [[|]|[|]| |[|] ? ?], b as [[|]|[|]| |[|] ? ?];
  unfold Num.ltb, Num.leb, SFltb, SFleb, SFcompare; try (intros; congruence);
  cmp_cases; simpl; intros; subst; try congruence; try lia.

Lemma ltb_trans (a b c : Num.number) :
  Num.ltb a b = true -> Num.ltb b c = true -> Num.ltb a c = true.
Proof. order_cases3 a b c. Qed.

Lemma leb_ltb_trans (a b c : Num.number) :
  Num.leb a b = true -> Num.ltb b c = true -> Num.ltb a c = true.
Proof. order_cases3 a b c. Qed.

Lemma ltb_not_leb (a b : Num.number) :
  Num.ltb a b = true -> Num.leb b a = false.
Proof. order_cases2 a b. Qed.

Lemma ltb_asym (a b : Num.number) :
  Num.ltb a b = true -> Num.ltb b a = false.
Proof. order_cases2 a b. Qed.

Lemma ltb_irrefl (a : Num.number) : Num.ltb a a = false.
Proof.
  destruct (Num.ltb a a) eqn:E; [|reflexivity].
  now rewrite (ltb_asym a a E) in E.
Qed.

(** ** The aspect-ratio mapper *)

Section Loop.

Variable ratio : Num.number.

Let d := diff_to ratio.

(** The loop started on [c] with its own difference: the token it
    ends on is [c], or a key that is strictly closer than [c] and
    that no key visited before it equals or beats; no key visited
    is strictly closer than the final token. *)
Lemma loop_selects (keys : list ImagenAspect) (c : ImagenAspect) :
  let k := fst (fold_left (ratio_step ratio) keys (c, d c)) in
  snd (fold_left (ratio_step ratio) keys (c, d c)) = d k
  /\ Num.ltb (d c) (d k) = false
  /\ (forall j, In j keys -> Num.ltb (d j) (d k) = false)
  /\ (k = c
      \/ (Num.ltb (d k) (d c) = true
          /\ exists pre post,
               keys = (pre ++ k :: post)%list
               /\ forall j, In j pre -> Num.leb (d j) (d k) = false)).
Proof.
  cbv zeta. revert c.
  induction keys as [|x keys IH]; intros c.
  - simpl. repeat split; [apply ltb_irrefl|contradiction|now left].
  - cbn [fold_left].
    assert (Hstep : ratio_step ratio (c, d c) x
              = if Num.ltb (d x) (d c) then (x, d x) else (c, d c))
      by reflexivity.
    rewrite Hstep. clear Hstep.
    destruct (Num.ltb (d x) (d c)) eqn:Hx.
    + destruct (IH x) as (Hm & Hc & Hall & Hsel).
      remember (fst (fold_left (ratio_step ratio) keys (x, d x))) as k eqn:Ek.
      assert (Hkc : Num.ltb (d k) (d c) = true).
      { destruct Hsel as [-> | [Hk _]]; [assumption|].
        now apply ltb_trans with (d x). }
      repeat split.
      * assumption.
      * now apply ltb_asym.
      * intros j [<- | Hj]; [assumption | now apply Hall].
      * right. split; [assumption|].
        destruct Hsel as [Hk | [Hk (pre & post & -> & Hpre)]].
        -- exists [], keys. rewrite Hk. split; [reflexivity|]. intros j [].
        -- exists (x :: pre), post. split; [reflexivity|].
           intros j [<- | Hj]; [now apply ltb_not_leb | now apply Hpre].
    + destruct (IH c) as (Hm & Hc & Hall & Hsel).
      remember (fst (fold_left (ratio_step ratio) keys (c, d c))) as k eqn:Ek.
      repeat split.
      * assumption.
      * assumption.
      * intros j [<- | Hj]; [|now apply Hall].
        destruct Hsel as [-> | [Hk _]]; [assumption|].
        destruct (Num.ltb (d x) (d k)) eqn:E; [|reflexivity].
        now rewrite (ltb_trans _ _ _ E Hk) in Hx.
      * destruct Hsel as [Hk | [Hk (pre & post & -> & Hpre)]]; [now left|].
        right. split; [assumption|].
        exists (x :: pre), post. split; [reflexivity|].
        intros j [<- | Hj]; [|now apply Hpre].
        destruct (Num.leb (d x) (d k)) eqn:E; [|reflexivity].
        now rewrite (leb_ltb_trans _ _ _ E Hk) in Hx.
Qed.

End Loop.

Lemma all_aspects_listed : all_aspects = [R1_1; R4_3; R3_4; R16_9; R9_16].
Proof. reflexivity. Qed.

Lemma every_aspect_listed (j : ImagenAspect) : In j all_aspects.
Proof. rewrite all_aspects_listed. destruct j; simpl; tauto. Qed.

(** What the loop computes, for every number: no token has a strictly
    smaller computed difference than the result, and no token listed
    before the result has a computed difference smaller than or equal
    to that of the result. *)
Lemma mapAspectRatioToImagen_selects (ratio : Num.number) :
  (forall j, Num.ltb (diff_to ratio j)
                     (diff_to ratio (mapAspectRatioToImagen ratio)) = false)
  /\ (forall j, aspect_index j < aspect_index (mapAspectRatioToImagen ratio) ->
                Num.leb (diff_to ratio j)
                        (diff_to ratio (mapAspectRatioToImagen ratio)) = false).
Proof.
  destruct (loop_selects ratio all_aspects R1_1) as (_ & _ & Hall & Hsel).
  change (fst (fold_left (ratio_step ratio) all_aspects
                 (R1_1, diff_to ratio R1_1)))
    with (mapAspectRatioToImagen ratio) in *.
  split.
  - intros j. apply Hall, every_aspect_listed.
  - destruct Hsel as [-> | [_ (pre & post & Heq & Hpre)]].
    + intros j Hj. simpl in Hj. lia.
    + rewrite all_aspects_listed in Heq.
      remember (mapAspectRatioToImagen ratio) as k eqn:Ek. clear Ek Hall.
      intros j Hj. apply Hpre.
      destruct pre as [|p1 [|p2 [|p3 [|p4 [|p5 pre]]]]];
        cbn [app] in Heq; inversion Heq; subst;
        try (destruct pre; discriminate);
        destruct j; simpl in Hj; try lia; simpl; tauto.
Qed.

(** ** Rounding to nearest, as the binary64 operations do it

    The subtraction of the mapper goes through [binary_round] of the
    library.  This part shows what that function computes: counting
    magnitudes in units of [2^-1074], the result is the magnitude cut
    to 53 bits and rounded to nearest, ties to even
    ([binary_round_units]).  Two consequences are used afterwards:
    magnitudes that are two spacings apart stay apart
    ([round_units_strict]), and magnitudes that need no rounding keep
    their order ([round_units_exact_strict]). *)

Local Open Scope Z_scope.

Lemma digits2_pos_size (p : positive) : digits2_pos p = Pos.size p.
Proof. induction p; simpl; congruence. Qed.

Lemma digits2_log2 (p : positive) : Zpos (digits2_pos p) = Z.log2 (Zpos p) + 1.
Proof.
  rewrite digits2_pos_size. destruct p; simpl; lia.
Qed.

Lemma iter_pos_nat {A} (f : A -> A) (p : positive) (x : A) :
  iter_pos f p x = Nat.iter (Pos.to_nat p) f x.
Proof.
  revert x. induction p as [p IH|p IH|]; intros x; cbn [iter_pos].
  - rewrite !IH, Pos2Nat.inj_xI.
    replace (S (2 * Pos.to_nat p)) with (Pos.to_nat p + S (Pos.to_nat p))%nat by lia.
    rewrite Nat.iter_add. now rewrite Nat.iter_succ_r.
  - rewrite !IH, Pos2Nat.inj_xO.
    replace (2 * Pos.to_nat p)%nat with (Pos.to_nat p + Pos.to_nat p)%nat by lia.
    now rewrite Nat.iter_add.
  - reflexivity.
Qed.

Lemma shr_1_nonneg (m : Z) (r s : bool) :
  0 <= m ->
  shr_1 {| shr_m := m; shr_r := r; shr_s := s |}
  = {| shr_m := m / 2; shr_r := Z.odd m; shr_s := r || s |}.
Proof.
  intros H. rewrite <- Z.div2_div.
  destruct m as [|[p|p|]|p]; try reflexivity; lia.
Qed.

(** After [k + 1] halvings of [M]: the quotient, the bit just dropped,
    and whether anything below it was dropped. *)
Lemma shr_iter (M : Z) (k : nat) :
  0 <= M ->
  exists m b lo,
    Nat.iter (S k) shr_1 {| shr_m := M; shr_r := false; shr_s := false |}
    = {| shr_m := m; shr_r := b; shr_s := negb (lo =? 0) |}
    /\ 0 <= m
    /\ 0 <= lo < 2 ^ Z.of_nat k
    /\ M = m * 2 ^ Z.of_nat (S k) + (if b then 2 ^ Z.of_nat k else 0) + lo.
Proof.
  intros HM. induction k as [|k IH].
  - exists (M / 2), (Z.odd M), 0. cbn [Nat.iter].
    rewrite shr_1_nonneg by assumption.
    split; [reflexivity|]. split; [apply Z.div_pos; lia|]. split; [simpl; lia|].
    change (2 ^ Z.of_nat 1) with 2. change (2 ^ Z.of_nat 0) with 1.
    pose proof (Z.div_mod M 2 ltac:(lia)) as D.
    rewrite Zmod_odd in D. destruct (Z.odd M); lia.
  - destruct IH as (m & b & lo & E & Hm & Hlo & HM').
    exists (m / 2), (Z.odd m), ((if b then 2 ^ Z.of_nat k else 0) + lo).
    rewrite Nat.iter_succ, E, shr_1_nonneg by assumption.
    assert (P : 2 ^ Z.of_nat (S k) = 2 * 2 ^ Z.of_nat k)
      by (rewrite Nat2Z.inj_succ, Z.pow_succ_r; lia).
    assert (P' : 2 ^ Z.of_nat (S (S k)) = 2 * 2 ^ Z.of_nat (S k))
      by (rewrite (Nat2Z.inj_succ (S k)), Z.pow_succ_r; lia).
    assert (Hp : 0 < 2 ^ Z.of_nat k) by (apply Z.pow_pos_nonneg; lia).
    split.
    { f_equal. destruct b; simpl.
      - destruct (Z.eqb_spec lo 0), (Z.eqb_spec (2 ^ Z.of_nat k + lo) 0); simpl; try reflexivity; lia.
      - reflexivity. }
    split; [apply Z.div_pos; lia|].
    split; [destruct b; lia|].
    pose proof (Z.div_mod m 2 ltac:(lia)) as D.
    rewrite Zmod_odd in D. rewrite P', P. rewrite P in HM'.
    destruct (Z.odd m), b; nia.
Qed.

(** Shifting [M] right by [p] bits and rounding on the recorded
    location gives [rne M p]. *)
Lemma shr_rounds (M : Z) (p : positive) :
  0 <= M ->
  round_nearest_even
    (shr_m (iter_pos shr_1 p {| shr_m := M; shr_r := false; shr_s := false |}))
    (loc_of_shr_record
       (iter_pos shr_1 p {| shr_m := M; shr_r := false; shr_s := false |}))
  = Num.rne M (Zpos p).
Proof.
  intros HM. rewrite iter_pos_nat.
  destruct (Pos2Nat.is_succ p) as [k Hk]. rewrite Hk.
  destruct (shr_iter M k HM) as (m & b & lo & E & Hm & Hlo & HM').
  rewrite E.
  assert (Hp : Zpos p = Z.of_nat (S k)) by (rewrite <- Hk; now rewrite positive_nat_Z).
  rewrite Hp.
  assert (P : 2 ^ Z.of_nat (S k) = 2 * 2 ^ Z.of_nat k)
    by (rewrite Nat2Z.inj_succ, Z.pow_succ_r; lia).
  assert (Hpow : 0 < 2 ^ Z.of_nat k) by (apply Z.pow_pos_nonneg; lia).
  set (rho := (if b then 2 ^ Z.of_nat k else 0) + lo) in *.
  assert (Hrho : 0 <= rho < 2 ^ Z.of_nat (S k)) by (unfold rho; destruct b; lia).
  assert (Hq : M / 2 ^ Z.of_nat (S k) = m)
    by (symmetry; apply Z.div_unique with rho; lia).
  assert (Hr : M mod 2 ^ Z.of_nat (S k) = rho)
    by (symmetry; apply Z.mod_unique with m; lia).
  unfold Num.rne. rewrite Hq, Hr. cbn [shr_m].
  unfold loc_of_shr_record, round_nearest_even, rho.
  destruct b, (Z.eqb_spec lo 0) as [L|L]; cbn [negb].
  - subst lo. replace (2 * (2 ^ Z.of_nat k + 0)) with (2 ^ Z.of_nat (S k)) by lia.
    now rewrite Z.compare_refl.
  - assert (C : (2 * (2 ^ Z.of_nat k + lo) ?= 2 ^ Z.of_nat (S k)) = Gt)
      by (apply Z.compare_gt_iff; lia).
    now rewrite C.
  - subst lo. assert (C : (2 * (0 + 0) ?= 2 ^ Z.of_nat (S k)) = Lt)
      by (apply Z.compare_lt_iff; lia).
    now rewrite C.
  - assert (C : (2 * (0 + lo) ?= 2 ^ Z.of_nat (S k)) = Lt)
      by (apply Z.compare_lt_iff; lia).
    now rewrite C.
Qed.

Lemma rne_bounds (M k : Z) :
  M / 2 ^ k <= Num.rne M k <= M / 2 ^ k + 1.
Proof.
  unfold Num.rne. destruct (_ ?= _); [destruct (Z.even _)| |]; lia.
Qed.

Lemma rne_exact (q k : Z) : 0 <= k -> Num.rne (q * 2 ^ k) k = q.
Proof.
  intros Hk. assert (0 < 2 ^ k) by (apply Z.pow_pos_nonneg; lia).
  unfold Num.rne. rewrite Z.div_mul, Z.mod_mul by lia.
  assert (C : (2 * 0 ?= 2 ^ k) = Lt) by (apply Z.compare_lt_iff; lia).
  now rewrite C.
Qed.

Lemma rne_scale (M j k : Z) :
  0 <= j -> 0 <= k -> Num.rne (M * 2 ^ j) (k + j) = Num.rne M k.
Proof.
  intros Hj Hk.
  assert (Pj : 0 < 2 ^ j) by (apply Z.pow_pos_nonneg; lia).
  assert (Pk : 0 < 2 ^ k) by (apply Z.pow_pos_nonneg; lia).
  unfold Num.rne. rewrite Z.pow_add_r by lia.
  rewrite Z.div_mul_cancel_r by lia.
  rewrite Zmult_mod_distr_r.
  replace (2 * (M mod 2 ^ k * 2 ^ j)) with (2 * (M mod 2 ^ k) * 2 ^ j) by lia.
  rewrite <- Zmult_compare_compat_r by lia. reflexivity.
Qed.

Lemma pos_iter_xO (P d : positive) :
  Zpos (Pos.iter xO P d) = Zpos P * 2 ^ Zpos d.
Proof.
  revert P. induction d using Pos.peano_ind; intros P.
  - simpl. lia.
  - rewrite Pos.iter_succ, Pos2Z.inj_xO, IHd, Pos2Z.inj_succ, Z.pow_succ_r; lia.
Qed.

Lemma Zdigits2_log2 (z : Z) : 0 < z -> Zdigits2 z = Z.log2 z + 1.
Proof.
  destruct z as [|p|p]; try lia. intros _. apply digits2_log2.
Qed.

Lemma fexp_64 (x : Z) : fexp 53 1024 x = Z.max (x - 53) (-1074).
Proof. reflexivity. Qed.

Lemma log2_bounds (z : Z) : 0 < z -> 2 ^ Z.log2 z <= z < 2 ^ (Z.log2 z + 1).
Proof. intros H. replace (Z.log2 z + 1) with (Z.succ (Z.log2 z)) by lia. now apply Z.log2_spec. Qed.

(** [binary_round] on a mantissa [P] and an exponent [e] not below
    [emin]: the binary64 number nearest to the [P * 2^e] it is given. *)
Lemma binary_round_units (P : positive) (e : Z) :
  Num.emin <= e ->
  Num.units P e < 2 ^ 2000 ->
  binary_round 53 1024 false P e = Num.round_units (Num.units P e).
Proof.
  unfold Num.units, Num.emin. intros He Hbound.
  set (j := e - -1074). assert (Hj : 0 <= j) by lia.
  set (d := Z.log2 (Zpos P) + 1).
  assert (Hd : Zpos (digits2_pos P) = d) by apply digits2_log2.
  assert (HlogW : Z.log2 (Zpos P * 2 ^ j) = j + Z.log2 (Zpos P))
    by (apply Z.log2_mul_pow2; lia).
  pose proof (Z.log2_nonneg (Zpos P)) as Hlog0.
  pose proof (log2_bounds (Zpos P) ltac:(lia)) as HlogP.
  assert (Hsmall : j + Z.log2 (Zpos P) < 2000).
  { apply (Z.pow_lt_mono_r_iff 2); try lia.
    rewrite <- HlogW. eapply Z.le_lt_trans; [|exact Hbound].
    apply (log2_bounds (Zpos P * 2 ^ j)). 
    apply Z.mul_pos_pos; [lia|apply Z.pow_pos_nonneg; lia]. }
  set (E := Z.max (d + e - 53) (-1074)).
  assert (HE : Num.excess (Zpos P * 2 ^ j) = E + 1074)
    by (unfold Num.excess; rewrite HlogW; unfold E, d, j; lia).
  unfold Num.round_units. rewrite HE.
  unfold binary_round. rewrite Hd, fexp_64. fold E.
  destruct (Z.compare_spec E e) as [Heq|Hlt|Hgt].
  - (* nothing to shift *)
    unfold shl_align.
    destruct (E - e) as [|dp|dp] eqn:Hdiff; try lia.
    unfold binary_round_aux, shr_fexp. cbn [Zdigits2 shr_record_of_loc].
    rewrite Hd, fexp_64. fold E. rewrite Hdiff.
    cbn [shr shr_m loc_of_shr_record round_nearest_even Zdigits2].
    rewrite Hd, fexp_64. fold E. rewrite Hdiff. cbn [shr shr_m].
    replace (E + 1074) with j by (unfold j; lia).
    rewrite rne_exact by lia.
    assert (HP : Zpos P < 2 ^ 53).
    { eapply Z.lt_le_trans; [apply HlogP|]. apply Z.pow_le_mono_r; lia. }
    destruct (Z.eqb_spec (Zpos P) (2 ^ 53)); [lia|].
    assert (HEb : (e <=? 1024 - 53) = true) by (apply Z.leb_le; lia).
    rewrite HEb. simpl Z.to_pos. f_equal. unfold Num.emin, j. lia.
  - (* shift left *)
    unfold shl_align.
    destruct (E - e) as [|dp|dp] eqn:Hdiff; try lia.
    assert (Hdp : Zpos dp = e - E) by lia.
    pose proof (pos_iter_xO P dp) as Hmz.
    set (mz := Pos.iter xO P dp) in *.
    assert (Hdz : Zpos (digits2_pos mz) = d + (e - E)).
    { rewrite digits2_log2, Hmz, Z.log2_mul_pow2 by lia. unfold d. lia. }
    unfold binary_round_aux, shr_fexp. cbn [Zdigits2 shr_record_of_loc].
    rewrite Hdz, fexp_64.
    replace (d + (e - E) + E) with (d + e) by lia. fold E. rewrite Z.sub_diag.
    cbn [shr shr_m loc_of_shr_record round_nearest_even Zdigits2].
    rewrite Hdz, fexp_64.
    replace (d + (e - E) + E) with (d + e) by lia. fold E. rewrite Z.sub_diag.
    cbn [shr shr_m].
    replace (Zpos P * 2 ^ j) with (Zpos mz * 2 ^ (E + 1074)).
    2:{ rewrite Hmz, Hdp, <- Z.mul_assoc, <- Z.pow_add_r by lia.
        f_equal. f_equal. unfold j. lia. }
    rewrite rne_exact by lia.
    assert (HP : Zpos mz < 2 ^ 53).
    { eapply Z.lt_le_trans; [apply (log2_bounds (Zpos mz)); lia|].
      apply Z.pow_le_mono_r; [lia|].
      rewrite <- digits2_log2, Hdz. lia. }
    destruct (Z.eqb_spec (Zpos mz) (2 ^ 53)); [lia|].
    assert (HEb : (E <=? 1024 - 53) = true) by (apply Z.leb_le; lia).
    rewrite HEb. simpl Z.to_pos. f_equal. unfold Num.emin. lia.
  - (* shift right and round *)
    unfold shl_align.
    destruct (E - e) as [|dp|dp] eqn:Hdiff; try lia.
    assert (Hdp : Zpos dp = d - 53) by lia.
    assert (HE' : E = d + e - 53) by lia.
    unfold binary_round_aux, shr_fexp. cbn [Zdigits2 shr_record_of_loc].
    rewrite Hd, fexp_64. fold E. rewrite Hdiff. cbn [shr].
    rewrite shr_rounds by lia.
    replace (E + 1074) with (Zpos dp + j) by (unfold j; lia).
    rewrite rne_scale by lia.
    set (q := Num.rne (Zpos P) (Zpos dp)).
    assert (Hq : 2 ^ 52 <= q <= 2 ^ 53).
    { pose proof (rne_bounds (Zpos P) (Zpos dp)) as B. fold q in B.
      assert (Hpd : 0 < 2 ^ Zpos dp) by (apply Z.pow_pos_nonneg; lia).
      assert (L : 2 ^ 52 <= Zpos P / 2 ^ Zpos dp).
      { apply Z.div_le_lower_bound; [lia|].
        rewrite Z.mul_comm, <- Z.pow_add_r by lia.
        replace (52 + Zpos dp) with (Z.log2 (Zpos P)) by (unfold d in Hdp; lia).
        apply HlogP. }
      assert (U : Zpos P / 2 ^ Zpos dp < 2 ^ 53).
      { apply Z.div_lt_upper_bound; [lia|].
        rewrite <- Z.pow_add_r by lia.
        replace (Zpos dp + 53) with (Z.log2 (Zpos P) + 1) by (unfold d in Hdp; lia).
        apply HlogP. }
      lia. }
    replace (e + Zpos dp) with E by lia.
    destruct (Z.eqb_spec q (2 ^ 53)) as [Hc|Hc].
    + rewrite Hc. 
      replace (Zdigits2 (2 ^ 53)) with 54 by reflexivity.
      rewrite fexp_64.
      replace (Z.max (54 + E - 53) (-1074) - E) with 1 by lia.
      cbn [shr iter_pos shr_record_of_loc].
      change (shr_m (shr_1 {| shr_m := 2 ^ 53; shr_r := false; shr_s := false |}))
        with (Zpos (Z.to_pos (2 ^ 52))).
      cbv iota.
      assert (HEb : (E + 1 <=? 1024 - 53) = true) by (apply Z.leb_le; lia).
      rewrite HEb. f_equal. unfold Num.emin, j. lia.
    + assert (Hqp : q = Zpos (Z.to_pos q)) by (rewrite Z2Pos.id; lia).
      assert (Hdq : Zdigits2 q = 53).
      { rewrite Zdigits2_log2 by lia.
        assert (Z.log2 q = 52); [|lia].
        apply Z.log2_unique; lia. }
      rewrite Hdq, fexp_64.
      replace (Z.max (53 + E - 53) (-1074) - E) with 0 by lia.
      cbn [shr shr_record_of_loc shr_m]. rewrite Hqp at 1. cbv iota.
      assert (HEb : (E <=? 1024 - 53) = true) by (apply Z.leb_le; lia).
      rewrite HEb. f_equal. unfold Num.emin, j. lia.
Qed.

Lemma excess_nonneg (W : Z) : 0 <= Num.excess W.
Proof. unfold Num.excess. lia. Qed.

Lemma excess_mono (W1 W2 : Z) : W1 <= W2 -> Num.excess W1 <= Num.excess W2.
Proof.
  intros H. unfold Num.excess. pose proof (Z.log2_le_mono W1 W2 H). lia.
Qed.

Lemma excess_quotient (W : Z) :
  1 <= W ->
  1 <= W / 2 ^ Num.excess W < 2 ^ 53
  /\ (0 < Num.excess W -> 2 ^ 52 <= W / 2 ^ Num.excess W).
Proof.
  intros HW. pose proof (log2_bounds W ltac:(lia)) as [Lo Hi].
  pose proof (Z.log2_nonneg W) as L0.
  unfold Num.excess.
  destruct (Z.max_spec (Z.log2 W - 52) 0) as [[Hc ->]|[Hc ->]].
  - rewrite Z.pow_0_r, Z.div_1_r. split; [|lia]. split; [lia|].
    eapply Z.lt_le_trans; [exact Hi|]. apply Z.pow_le_mono_r; lia.
  - assert (Hp : 0 < 2 ^ (Z.log2 W - 52)) by (apply Z.pow_pos_nonneg; lia).
    assert (A : 2 ^ 52 <= W / 2 ^ (Z.log2 W - 52)).
    { apply Z.div_le_lower_bound; [lia|].
      rewrite <- Z.pow_add_r by lia.
      now replace (Z.log2 W - 52 + 52) with (Z.log2 W) by lia. }
    assert (B : W / 2 ^ (Z.log2 W - 52) < 2 ^ 53).
    { apply Z.div_lt_upper_bound; [lia|].
      rewrite <- Z.pow_add_r by lia.
      now replace (Z.log2 W - 52 + 53) with (Z.log2 W + 1) by lia. }
    split; [|intros _; exact A]. split; [|exact B].
    eapply Z.le_trans; [|exact A]. change (2 ^ 52) with 4503599627370496. lia.
Qed.

Lemma rne_lower (W n : Z) : 0 <= n -> (Num.rne W n - 1) * 2 ^ n <= W.
Proof.
  intros Hn. assert (Hp : 0 < 2 ^ n) by (apply Z.pow_pos_nonneg; lia).
  pose proof (rne_bounds W n) as [_ U].
  pose proof (Z.mul_div_le W (2 ^ n) Hp). nia.
Qed.

Lemma SFltb_finite_pos (m1 m2 : positive) (e1 e2 : Z) :
  e1 < e2 \/ (e1 = e2 /\ Zpos m1 < Zpos m2) ->
  SFltb (S754_finite false m1 e1) (S754_finite false m2 e2) = true.
Proof.
  intros H. unfold SFltb, SFcompare.
  change (Pos.compare_cont Eq m1 m2) with (Pos.compare m1 m2).
  destruct (Z.compare_spec e1 e2); [|reflexivity|lia].
  destruct (Pos.compare_spec m1 m2); [lia|reflexivity|lia].
Qed.

(** Two magnitudes at least two spacings of the larger one apart are
    rounded to numbers in the same strict order. *)
Lemma round_units_strict (W1 W2 : Z) :
  1 <= W1 ->
  W1 + 2 ^ (Num.excess W2 + 1) <= W2 ->
  SFltb (Num.round_units W1) (Num.round_units W2) = true.
Proof.
  intros H1 Hgap.
  pose proof (excess_nonneg W1) as N1. pose proof (excess_nonneg W2) as N2.
  assert (Hp2 : 0 < 2 ^ Num.excess W2) by (apply Z.pow_pos_nonneg; lia).
  assert (Hp1 : 0 < 2 ^ Num.excess W1) by (apply Z.pow_pos_nonneg; lia).
  assert (Hpow : 2 ^ (Num.excess W2 + 1) = 2 * 2 ^ Num.excess W2)
    by (rewrite Z.pow_add_r by lia; change (2 ^ 1) with 2; lia).
  assert (H12 : W1 <= W2) by lia.
  pose proof (excess_mono W1 W2 H12) as Hmono.
  destruct (excess_quotient W1 H1) as [[Q1a Q1b] Q1c].
  destruct (excess_quotient W2 ltac:(lia)) as [[Q2a Q2b] Q2c].
  pose proof (rne_bounds W1 (Num.excess W1)) as [B1l B1u].
  pose proof (rne_bounds W2 (Num.excess W2)) as [B2l B2u].
  pose proof (rne_lower W1 (Num.excess W1) N1) as L1.
  unfold Num.round_units.
  set (n1 := Num.excess W1) in *. set (n2 := Num.excess W2) in *.
  set (q1 := Num.rne W1 n1) in *. set (q2 := Num.rne W2 n2) in *.
  assert (T : Z.to_pos (2 ^ 52) = 4503599627370496%positive) by reflexivity.
  destruct (Z.eq_dec n1 n2) as [En|En].
  - (* same spacing *)
    assert (Hq : q1 + 1 <= q2).
    { eapply Z.le_trans; [|exact B2l].
      apply Z.div_le_lower_bound; [lia|].
      assert (EA : 2 ^ n2 = 2 ^ n1) by (now rewrite En).
      rewrite Hpow, EA in Hgap. rewrite EA. nia. }
    destruct (Z.eqb_spec q2 (2 ^ 53)), (Z.eqb_spec q1 (2 ^ 53)); try lia.
    + apply SFltb_finite_pos. left. lia.
    + apply SFltb_finite_pos. right. split; [lia|].
      rewrite !Z2Pos.id by lia; lia.
  - (* coarser spacing on the right *)
    assert (Hn : n1 < n2) by lia.
    destruct (Z.eqb_spec q1 (2 ^ 53)) as [C1|C1].
    + destruct (Z.eqb_spec q2 (2 ^ 53)) as [C2|C2].
      * apply SFltb_finite_pos. left. lia.
      * apply SFltb_finite_pos.
        destruct (Z.eq_dec (n1 + 1) n2) as [Es|Es]; [right|left; lia].
        split; [lia|]. rewrite T.
        assert (Hq : 2 ^ 52 + 1 <= q2).
        { eapply Z.le_trans; [|exact B2l].
          apply Z.div_le_lower_bound; [lia|].
          assert (A2 : 2 ^ n2 = 2 * 2 ^ n1)
            by (rewrite <- Es, Z.pow_add_r by lia; change (2 ^ 1) with 2; lia).
          rewrite Hpow, A2 in Hgap. rewrite A2.
          rewrite C1 in L1. 
          change (2 ^ 52) with 4503599627370496.
          change (2 ^ 53) with 9007199254740992 in L1. lia. }
        rewrite Z2Pos.id by lia.
        change (2 ^ 52) with 4503599627370496 in Hq. lia.
    + destruct (Z.eqb_spec q2 (2 ^ 53)) as [C2|C2];
        apply SFltb_finite_pos; left; lia.
Qed.

(** ** Computed differences *)

Lemma abs_binary_round (s : bool) (p : positive) (e : Z) :
  SFabs (binary_round 53 1024 s p e) = binary_round 53 1024 false p e.
Proof.
  unfold binary_round, binary_round_aux.
  destruct (shl_align _ _ _) as [mz ez].
  destruct (shr_fexp _ _ _ _ _) as [mrs e'].
  destruct (shr_fexp _ _ _ _ _) as [mrs' e''].
  destruct (shr_m mrs'); [reflexivity| |reflexivity].
  destruct (_ <=? _); reflexivity.
Qed.

Lemma shl_align_units (m : positive) (e ez : Z) :
  Num.emin <= ez -> ez <= e ->
  Zpos (fst (shl_align m e ez)) * 2 ^ (ez - Num.emin) = Num.units m e.
Proof.
  intros H1 H2. unfold shl_align, Num.units.
  destruct (ez - e) as [|d|d] eqn:D; try lia; cbn [fst].
  - now replace ez with e by lia.
  - rewrite pos_iter_xO, <- Z.mul_assoc, <- Z.pow_add_r by lia.
    do 2 f_equal. lia.
Qed.

(** The computed difference between a negative number and a positive
    reference is the rounding of the sum of their magnitudes. *)
Lemma diff_negative (m mc : positive) (e ec : Z) :
  Num.emin <= e -> Num.emin <= ec ->
  Num.units m e + Num.units mc ec < 2 ^ 2000 ->
  Num.abs (Num.sub (S754_finite true m e) (S754_finite false mc ec))
  = Num.round_units (Num.units m e + Num.units mc ec).
Proof.
  intros He Hec Hb.
  unfold Num.abs, Num.sub, SFsub. cbn [cond_Zopp].
  set (ez := Z.min e ec).
  set (a := fst (shl_align m e ez)). set (b := fst (shl_align mc ec ez)).
  change (Z.opp (Zpos a) - Zpos b) with (Zneg (a + b)).
  cbn [binary_normalize]. rewrite abs_binary_round.
  assert (Hu : Num.units (a + b) ez = Num.units m e + Num.units mc ec).
  { unfold Num.units at 1. rewrite Pos2Z.inj_add, Z.mul_add_distr_r.
    unfold a, b. rewrite !shl_align_units; unfold ez; lia. }
  rewrite binary_round_units; rewrite ?Hu; [reflexivity|unfold ez; lia|assumption].
Qed.

(** The entries of [supportedRatios], evaluated. *)
Lemma ratio_get_finite (k : ImagenAspect) :
  ratio_get supportedRatios k
  = S754_finite false (ref_mantissa k) (ref_exponent k).
Proof. destruct k; vm_compute; reflexivity. Qed.

Lemma ref_units_gap (k : ImagenAspect) :
  k <> R9_16 ->
  ref_units R9_16 + 2 ^ 1071 <= ref_units k
  /\ ref_units k < 2 ^ 1075.
Proof.
  intros H. destruct k; try congruence; split;
    first [apply Z.leb_le | apply Z.ltb_lt]; vm_compute; reflexivity.
Qed.

Lemma ref_units_9_16 :
  1 <= ref_units R9_16 < 2 ^ 1075.
Proof. split; first [apply Z.leb_le | apply Z.ltb_lt]; vm_compute; reflexivity. Qed.

Lemma excess_below (W b : Z) :
  0 < W -> 52 <= b -> W < 2 ^ (b + 1) -> Num.excess W <= b - 52.
Proof.
  intros HW Hb H. unfold Num.excess.
  assert (Z.log2 W < b + 1) by (apply Z.log2_lt_pow2; lia). lia.
Qed.

(** For a negative ratio down to -2^48, the computed difference to
    9/16 is strictly smaller than each of the other four. *)
Lemma negative_closest_to_9_16 (m : positive) (e : Z) (k : ImagenAspect) :
  Num.emin <= e ->
  Num.units m e <= 2 ^ 1122 ->
  k <> R9_16 ->
  Num.ltb (diff_to (S754_finite true m e) R9_16)
          (diff_to (S754_finite true m e) k) = true.
Proof.
  intros He Hb Hk. unfold diff_to. rewrite !ratio_get_finite.
  destruct (ref_units_gap k Hk) as [G U].
  destruct ref_units_9_16 as [L9 U9].
  assert (Hm : 0 < Num.units m e).
  { unfold Num.units. apply Z.mul_pos_pos; [lia|].
    apply Z.pow_pos_nonneg; [lia|]. unfold Num.emin in *. lia. }
  assert (Hek : Num.emin <= ref_exponent k) by (unfold Num.emin; destruct k; simpl; lia).
  assert (He9 : Num.emin <= ref_exponent R9_16) by (unfold Num.emin; simpl; lia).
  assert (P1 : 2 ^ 1075 < 2 ^ 1122) by (apply Z.pow_lt_mono_r; lia).
  assert (P2 : 2 ^ 1122 + 2 ^ 1122 = 2 ^ 1123)
    by (replace 1123 with (1122 + 1) by lia; rewrite Z.pow_add_r by lia; lia).
  assert (P3 : 2 ^ 1123 < 2 ^ 2000) by (apply Z.pow_lt_mono_r; lia).
  unfold ref_units in *. rewrite !diff_negative by (assumption || lia).
  apply round_units_strict; [lia|].
  set (W2 := Num.units m e + Num.units (ref_mantissa k) (ref_exponent k)).
  assert (HW2 : W2 < 2 ^ (1122 + 1)) by (unfold W2; simpl Z.add; lia).
  pose proof (excess_below W2 1122 ltac:(unfold W2; lia) ltac:(lia) HW2) as Hx.
  pose proof (excess_nonneg W2) as Hx0.
  assert (Hp : 2 ^ (Num.excess W2 + 1) <= 2 ^ 1071) by (apply Z.pow_le_mono_r; lia).
  unfold W2 in *. lia.
Qed.

Lemma ref_units_grid (k : ImagenAspect) : ref_units k = ref_grid k * 2 ^ 1021.
Proof.
  assert (P : 2 ^ 1022 = 2 * 2 ^ 1021)
    by (change 1022 with (1 + 1021); rewrite Z.pow_add_r by lia; reflexivity).
  destruct k; unfold ref_units, Num.units, ref_grid, ref_mantissa, ref_exponent, Num.emin;
    simpl Z.sub; rewrite ?P; lia.
Qed.

Lemma gap_far (W G : Z) (j k : ImagenAspect) :
  0 < G -> 0 < W ->
  Z.abs (W - ref_grid j * G) < Z.abs (W - ref_grid k * G) ->
  9007199254740992 * G <= Z.abs (W - ref_grid k * G) ->
  Z.abs (W - ref_grid j * G) + 1125899906842624 * G <= Z.abs (W - ref_grid k * G).
Proof.
  intros HG HW. destruct j, k; unfold ref_grid; lia.
Qed.

Lemma gap_small (W G : Z) (j k : ImagenAspect) :
  0 < G -> 0 < W < 4503599627370496 * G ->
  Z.abs (W - ref_grid j * G) < Z.abs (W - ref_grid k * G) ->
  Z.abs (W - ref_grid j * G) + 1125899906842624 * G <= Z.abs (W - ref_grid k * G).
Proof.
  intros HG HW. destruct j, k; unfold ref_grid; lia.
Qed.

Lemma units_pos (m : positive) (e : Z) : Num.emin <= e -> 0 < Num.units m e.
Proof.
  intros H. unfold Num.units. apply Z.mul_pos_pos; [lia|].
  apply Z.pow_pos_nonneg; lia.
Qed.

(** The computed difference between a positive number and a positive
    reference is the rounding of the distance between their magnitudes. *)
Lemma diff_positive (m mc : positive) (e ec : Z) :
  Num.emin <= e -> Num.emin <= ec ->
  Num.units m e < 2 ^ 1999 -> Num.units mc ec < 2 ^ 1999 ->
  Num.abs (Num.sub (S754_finite false m e) (S754_finite false mc ec))
  = Num.round_abs (Num.units m e - Num.units mc ec).
Proof.
  intros He Hec Hb Hbc.
  assert (P : 2 ^ 1999 + 2 ^ 1999 = 2 ^ 2000)
    by (change 2000 with (1999 + 1); rewrite Z.pow_add_r by lia; lia).
  pose proof (units_pos m e He) as Hm. pose proof (units_pos mc ec Hec) as Hmc.
  unfold Num.abs, Num.sub, SFsub. cbn [cond_Zopp].
  set (ez := Z.min e ec).
  assert (Hez : Num.emin <= ez) by (unfold ez; lia).
  set (a := fst (shl_align m e ez)). set (b := fst (shl_align mc ec ez)).
  assert (Ha : Zpos a * 2 ^ (ez - Num.emin) = Num.units m e)
    by (apply shl_align_units; unfold ez; lia).
  assert (Hb' : Zpos b * 2 ^ (ez - Num.emin) = Num.units mc ec)
    by (apply shl_align_units; unfold ez; lia).
  assert (Hp : 0 < 2 ^ (ez - Num.emin)) by (apply Z.pow_pos_nonneg; lia).
  unfold Num.round_abs.
  destruct (Zpos a - Zpos b) as [|p|p] eqn:Hz.
  - cbn [binary_normalize SFabs].
    assert (Num.units m e - Num.units mc ec = 0) by (rewrite <- Ha, <- Hb'; nia).
    destruct (Z.eqb_spec (Num.units m e - Num.units mc ec) 0); [reflexivity|lia].
  - cbn [binary_normalize]. rewrite abs_binary_round.
    assert (Hu : Num.units p ez = Num.units m e - Num.units mc ec)
      by (unfold Num.units at 1; rewrite <- Hz, <- Ha, <- Hb'; lia).
    pose proof (units_pos p ez Hez) as Hp0.
    rewrite binary_round_units by (rewrite ?Hu; lia).
    rewrite Hu. destruct (Z.eqb_spec (Num.units m e - Num.units mc ec) 0); [lia|].
    now rewrite Z.abs_eq by lia.
  - cbn [binary_normalize]. rewrite abs_binary_round.
    assert (Hu : Num.units p ez = - (Num.units m e - Num.units mc ec))
      by (unfold Num.units at 1; rewrite <- Ha, <- Hb'; lia).
    pose proof (units_pos p ez Hez) as Hp0.
    rewrite binary_round_units by (rewrite ?Hu; lia).
    rewrite Hu. destruct (Z.eqb_spec (Num.units m e - Num.units mc ec) 0); [lia|].
    now rewrite Z.abs_neq by lia.
Qed.

Lemma rne_exact_div (W n : Z) :
  0 <= n -> (2 ^ n | W) -> Num.rne W n = W / 2 ^ n.
Proof.
  intros Hn [q ->].
  assert (0 < 2 ^ n) by (apply Z.pow_pos_nonneg; lia).
  rewrite rne_exact, Z.div_mul by lia. reflexivity.
Qed.

(** Two magnitudes on the grid of the larger one keep their order. *)
Lemma round_units_exact_strict (W1 W2 : Z) :
  1 <= W1 < W2 ->
  (2 ^ Num.excess W2 | W1) -> (2 ^ Num.excess W2 | W2) ->
  SFltb (Num.round_units W1) (Num.round_units W2) = true.
Proof.
  intros [H1 H12] D1 D2.
  pose proof (excess_nonneg W1) as N1. pose proof (excess_nonneg W2) as N2.
  pose proof (excess_mono W1 W2 ltac:(lia)) as Hmono.
  assert (D1' : (2 ^ Num.excess W1 | W1)).
  { eapply Z.divide_trans; [|exact D1].
    exists (2 ^ (Num.excess W2 - Num.excess W1)).
    rewrite <- Z.pow_add_r by lia. f_equal. lia. }
  destruct (excess_quotient W1 H1) as [[Q1a Q1b] _].
  destruct (excess_quotient W2 ltac:(lia)) as [[Q2a Q2b] _].
  unfold Num.round_units.
  rewrite (rne_exact_div W1 _ N1 D1'), (rne_exact_div W2 _ N2 D2).
  destruct (Z.eqb_spec (W1 / 2 ^ Num.excess W1) (2 ^ 53)); [lia|].
  destruct (Z.eqb_spec (W2 / 2 ^ Num.excess W2) (2 ^ 53)); [lia|].
  apply SFltb_finite_pos.
  destruct (Z.eq_dec (Num.excess W1) (Num.excess W2)) as [E|E]; [right|left; lia].
  split; [lia|]. rewrite !Z2Pos.id by lia. rewrite E.
  remember (Num.excess W2) as k eqn:Ek. clear Ek.
  destruct D1 as [q1 E1], D2 as [q2 E2]. subst W1 W2.
  assert (0 < 2 ^ k) by (apply Z.pow_pos_nonneg; lia).
  rewrite !Z.div_mul by lia. nia.
Qed.

Lemma pow_split (a b : Z) : 0 <= a -> 0 <= b -> 2 ^ (a + b) = 2 ^ a * 2 ^ b.
Proof. intros. now apply Z.pow_add_r. Qed.

Lemma ltb_zero_round_units (W : Z) :
  SFltb (S754_zero false) (Num.round_units W) = true.
Proof. unfold Num.round_units. destruct (_ =? _); reflexivity. Qed.

Lemma diff_to_positive (m : positive) (e : Z) (k : ImagenAspect) :
  Num.emin <= e -> Num.units m e <= 2 ^ 1123 ->
  diff_to (S754_finite false m e) k = Num.round_abs (Num.units m e - ref_units k).
Proof.
  intros He Hb. unfold diff_to. rewrite ratio_get_finite.
  assert (P1 : 2 ^ 1123 < 2 ^ 1999) by (apply Z.pow_lt_mono_r; lia).
  assert (P2 : 2 ^ 1075 < 2 ^ 1999) by (apply Z.pow_lt_mono_r; lia).
  assert (Hk : ref_units k < 2 ^ 1075).
  { destruct (Z.eq_dec 0 0) as [_|]; [|lia].
    destruct k; try (apply ref_units_gap; discriminate).
    apply ref_units_9_16. }
  apply diff_positive; try lia.
  - unfold Num.emin. destruct k; simpl; lia.
  - unfold ref_units in Hk. lia.
Qed.

(** For a positive ratio up to 2^49, a strictly smaller exact distance
    to a reference gives a strictly smaller computed difference: the
    larger distance is either at least 1, and then the two are more
    than two spacings apart, or below 1, and then neither is rounded
    (ratio from 1/2 on) or again they are far apart (ratio below 1/2). *)
Lemma diffs_ordered (m : positive) (e : Z) (j k : ImagenAspect) :
  Num.emin <= e -> Zpos m < 2 ^ 53 -> Num.units m e <= 2 ^ 1123 ->
  Z.abs (Num.units m e - ref_units j) < Z.abs (Num.units m e - ref_units k) ->
  Num.ltb (diff_to (S754_finite false m e) j)
          (diff_to (S754_finite false m e) k) = true.
Proof.
  intros He Hm Hb Hlt.
  rewrite !diff_to_positive by assumption.
  pose proof (units_pos m e He) as HW.
  set (W := Num.units m e) in *.
  rewrite !ref_units_grid in *.
  set (G := 2 ^ 1021) in *.
  assert (HG : 0 < G) by (apply Z.pow_pos_nonneg; lia).
  assert (E50 : 2 ^ 1071 = 1125899906842624 * G)
    by (change 1071 with (50 + 1021); rewrite pow_split by lia; reflexivity).
  assert (E52 : 2 ^ 1073 = 4503599627370496 * G)
    by (change 1073 with (52 + 1021); rewrite pow_split by lia; reflexivity).
  assert (E53 : 2 ^ 1074 = 9007199254740992 * G)
    by (change 1074 with (53 + 1021); rewrite pow_split by lia; reflexivity).
  assert (Hgk : 0 < ref_grid k < 2 ^ 54) by (destruct k; simpl; lia).
  assert (E54 : 2 ^ 1075 = 2 ^ 54 * G)
    by (change 1075 with (54 + 1021); rewrite pow_split by lia; reflexivity).
  assert (P : 2 ^ 1075 < 2 ^ 1123) by (apply Z.pow_lt_mono_r; lia).
  unfold Num.round_abs, Num.ltb.
  destruct (Z.eqb_spec (W - ref_grid k * G) 0) as [Zk|Zk]; [lia|].
  destruct (Z.eqb_spec (W - ref_grid j * G) 0) as [Zj|Zj];
    [apply ltb_zero_round_units|].
  set (Dj := Z.abs (W - ref_grid j * G)) in *.
  set (Dk := Z.abs (W - ref_grid k * G)) in *.
  assert (HDk : Dk < 2 ^ (1122 + 1)) by (unfold Dk; simpl Z.add; nia).
  pose proof (excess_nonneg Dk) as Hx0.
  destruct (Z_lt_le_dec Dk (2 ^ 1074)) as [Hnear|Hfar].
  - (* the larger distance is below 1 *)
    pose proof (excess_below Dk 1073 ltac:(unfold Dk; lia) ltac:(lia) Hnear) as Hx.
    destruct (Z_le_gt_dec (-53) e) as [Hgrid|Hfine].
    + (* the ratio is on the grid of 2^-53 *)
      assert (HWg : (G | W)).
      { exists (Zpos m * 2 ^ (e + 53)). unfold W, Num.units, G, Num.emin.
        rewrite <- Z.mul_assoc, <- pow_split by lia. do 2 f_equal. lia. }
      assert (Hdiv : forall c, (2 ^ Num.excess Dk | Z.abs (W - ref_grid c * G))).
      { intros c. apply Z.divide_abs_r.
        apply Z.divide_trans with G.
        - exists (2 ^ (1021 - Num.excess Dk)). unfold G.
          rewrite <- pow_split by lia. f_equal. lia.
        - apply Z.divide_sub_r; [assumption|]. now apply Z.divide_factor_r. }
      apply round_units_exact_strict; [unfold Dj; lia| apply Hdiv | apply Hdiv].
    + (* the ratio is below 1/2 *)
      assert (HWs : W < 4503599627370496 * G).
      { rewrite <- E52. unfold W, Num.units, Num.emin. unfold Num.emin in He.
        apply Z.lt_le_trans with (2 ^ 53 * 2 ^ (e - -1074)).
        - apply Z.mul_lt_mono_pos_r; [apply Z.pow_pos_nonneg; lia|assumption].
        - rewrite <- pow_split by lia. apply Z.pow_le_mono_r; lia. }
      pose proof (gap_small W G j k HG (conj HW HWs) Hlt) as Hgap.
      apply round_units_strict; [unfold Dj; lia|].
      assert (Hp : 2 ^ (Num.excess Dk + 1) <= 2 ^ 1071) by (apply Z.pow_le_mono_r; lia).
      fold Dj Dk in Hgap. lia.
  - (* the larger distance is at least 1 *)
    pose proof (excess_below Dk 1122 ltac:(unfold Dk; lia) ltac:(lia) HDk) as Hx.
    rewrite E53 in Hfar.
    pose proof (gap_far W G j k HG HW Hlt Hfar) as Hgap.
    apply round_units_strict; [unfold Dj; lia|].
    assert (Hp : 2 ^ (Num.excess Dk + 1) <= 2 ^ 1071) by (apply Z.pow_le_mono_r; lia).
    fold Dj Dk in Hgap. lia.
Qed.

Lemma round_abs_abs (a b : Z) : Z.abs a = Z.abs b -> Num.round_abs a = Num.round_abs b.
Proof.
  intros H. unfold Num.round_abs. rewrite H.
  destruct (Z.eqb_spec a 0), (Z.eqb_spec b 0); try reflexivity; lia.
Qed.

Lemma leb_round_abs_refl (a : Z) : Num.leb (Num.round_abs a) (Num.round_abs a) = true.
Proof.
  assert (F : forall m e, SFleb (S754_finite false m e) (S754_finite false m e) = true).
  { intros m e. unfold SFleb, SFcompare. rewrite Z.compare_refl.
    change (Pos.compare_cont Eq m m) with (Pos.compare m m).
    now rewrite Pos.compare_refl. }
  unfold Num.leb, Num.round_abs, Num.round_units.
  destruct (a =? 0); [reflexivity|]. destruct (_ =? _); apply F.
Qed.

(** For a positive ratio up to 2^49, the token returned is the
    first-listed one at the smallest exact distance from the binary64
    references. *)
Lemma code_first_minimum (m : positive) (e : Z) :
  Num.emin <= e -> Zpos m < 2 ^ 53 -> Num.units m e <= 2 ^ 1123 ->
  let k := mapAspectRatioToImagen (S754_finite false m e) in
  (forall j, Z.abs (Num.units m e - ref_units k) <= Z.abs (Num.units m e - ref_units j))
  /\ (forall j, (aspect_index j < aspect_index k)%nat ->
                Z.abs (Num.units m e - ref_units k) < Z.abs (Num.units m e - ref_units j)).
Proof.
  intros He Hm Hb k.
  destruct (mapAspectRatioToImagen_selects (S754_finite false m e)) as [A B].
  fold k in A, B.
  assert (F1 : forall j, Z.abs (Num.units m e - ref_units k)
                         <= Z.abs (Num.units m e - ref_units j)).
  { intros j.
    destruct (Z_le_gt_dec (Z.abs (Num.units m e - ref_units k))
                          (Z.abs (Num.units m e - ref_units j))) as [H|H];
      [assumption|].
    apply Z.gt_lt in H.
    pose proof (diffs_ordered m e j k He Hm Hb H) as C.
    rewrite A in C. discriminate. }
  split; [exact F1|].
  intros j Hj.
  destruct (Z.eq_dec (Z.abs (Num.units m e - ref_units k))
                     (Z.abs (Num.units m e - ref_units j))) as [E|E].
  - specialize (B j Hj).
    rewrite !diff_to_positive in B by assumption.
    rewrite (round_abs_abs _ _ E), leb_round_abs_refl in B. discriminate.
  - specialize (F1 j). lia.
Qed.

(** ** Exact distances *)

Lemma real_diff_le_iff (W : Z) (D : positive) (x : Q) (a b : ImagenAspect) :
  (x == W # D)%Q ->
  (real_diff x a <= real_diff x b)%Q <-> nearer_or_equal W (Zpos D) a b.
Proof.
  intros Hx. unfold real_diff, nearer_or_equal. rewrite Hx.
  destruct (real_value a) as [pa qa], (real_value b) as [pb qb].
  unfold Qle, Qabs, Qminus, Qplus, Qopp. cbn [Qnum Qden].
  rewrite !Pos2Z.inj_mul.
  replace (W * Zpos qa + - pa * Zpos D) with (W * Zpos qa - pa * Zpos D) by lia.
  replace (W * Zpos qb + - pb * Zpos D) with (W * Zpos qb - pb * Zpos D) by lia.
  set (A := Z.abs (W * Zpos qa - pa * Zpos D)).
  set (B := Z.abs (W * Zpos qb - pb * Zpos D)).
  replace (A * (Zpos D * Zpos qb)) with (A * Zpos qb * Zpos D) by lia.
  replace (B * (Zpos D * Zpos qa)) with (B * Zpos qa * Zpos D) by lia.
  symmetry. apply Z.mul_le_mono_pos_r. lia.
Qed.

Lemma scaled_shift (m : positive) (e t : Z) :
  0 <= t -> - t <= e ->
  (Num.scaled (Zpos m) e == (Zpos m * 2 ^ (e + t)) # Z.to_pos (2 ^ t))%Q.
Proof.
  intros Ht He.
  assert (Hp : 0 < 2 ^ t) by (apply Z.pow_pos_nonneg; lia).
  unfold Qeq. cbn [Qnum Qden]. rewrite Z2Pos.id by lia.
  destruct e as [|p|p]; unfold Num.scaled; cbn [Qnum Qden inject_Z].
  - rewrite Z.add_0_l. lia.
  - change (Z.pow_pos 2 p) with (2 ^ Zpos p).
    rewrite Z.pow_add_r by lia. lia.
  - rewrite Pos2Z.inj_pow.
    rewrite <- Z.mul_assoc, <- Z.pow_add_r by lia.
    do 2 f_equal. lia.
Qed.

Ltac instantiate_minimum F1 F2 :=
  pose proof (F1 R1_1); pose proof (F1 R4_3); pose proof (F1 R3_4);
  pose proof (F1 R16_9); pose proof (F1 R9_16);
  try pose proof (F2 R1_1 ltac:(simpl; lia));
  try pose proof (F2 R4_3 ltac:(simpl; lia));
  try pose proof (F2 R3_4 ltac:(simpl; lia));
  try pose proof (F2 R16_9 ltac:(simpl; lia));
  clear F1 F2.

(** A ratio on the grid of 2^-53 (of 2^-52 from 1 on), counted in grid
    steps: the first minimum of the distances to the binary64
    references, which are 4/3 and 16/9 rounded down by less than a
    step, is the first minimum of the distances to the exact values. *)
Lemma real_minimum_grid (rho : Z) (k : ImagenAspect) :
  0 < rho ->
  (9007199254740992 <= rho -> exists h, rho = 2 * h) ->
  (forall j, Z.abs (rho - ref_grid k) <= Z.abs (rho - ref_grid j)) ->
  (forall j, (aspect_index j < aspect_index k)%nat ->
             Z.abs (rho - ref_grid k) < Z.abs (rho - ref_grid j)) ->
  (forall j, nearer_or_equal rho 9007199254740992 k j)
  /\ (forall j, (aspect_index j < aspect_index k)%nat ->
                ~ nearer_or_equal rho 9007199254740992 j k).
Proof.
  intros Hpos Heven F1 F2.
  destruct (Z_lt_le_dec rho 9007199254740992) as [Hlow|Hhigh].
  - clear Heven.
    destruct k; instantiate_minimum F1 F2; unfold ref_grid in *;
      (split; [intros j | intros j Hj]; destruct j;
       unfold nearer_or_equal, real_value; cbn [Qnum Qden];
       try (exfalso; simpl in Hj; lia); lia).
  - destruct (Heven Hhigh) as [h ->]. clear Heven.
    destruct k; instantiate_minimum F1 F2; unfold ref_grid in *;
      (split; [intros j | intros j Hj]; destruct j;
       unfold nearer_or_equal, real_value; cbn [Qnum Qden];
       try (exfalso; simpl in Hj; lia); lia).
Qed.

(** A ratio below 1/2: the same, in units of which the grid step is [G]. *)
Lemma real_minimum_fine (W G : Z) (k : ImagenAspect) :
  0 < G -> 0 < W < 4503599627370496 * G ->
  (forall j, Z.abs (W - ref_grid k * G) <= Z.abs (W - ref_grid j * G)) ->
  (forall j, (aspect_index j < aspect_index k)%nat ->
             Z.abs (W - ref_grid k * G) < Z.abs (W - ref_grid j * G)) ->
  (forall j, nearer_or_equal W (9007199254740992 * G) k j)
  /\ (forall j, (aspect_index j < aspect_index k)%nat ->
                ~ nearer_or_equal W (9007199254740992 * G) j k).
Proof.
  intros HG HW F1 F2.
  destruct k; instantiate_minimum F1 F2; unfold ref_grid in *;
    (split; [intros j | intros j Hj]; destruct j;
     unfold nearer_or_equal, real_value; cbn [Qnum Qden];
     try (exfalso; simpl in Hj; lia); lia).
Qed.

(** ** The mapper on its domain *)

Lemma abs_grid (rho n G : Z) :
  0 < G -> Z.abs (rho * G - n * G) = Z.abs (rho - n) * G.
Proof.
  intros HG. rewrite <- Z.mul_sub_distr_r, Z.abs_mul, (Z.abs_eq G); lia.
Qed.

Lemma valid_finite (s : bool) (m : positive) (e : Z) :
  valid_binary Num.prec Num.emax (S754_finite s m e) = true ->
  Num.emin <= e /\ Zpos m < 2 ^ 53.
Proof.
  unfold valid_binary, bounded, canonical_mantissa.
  intros H. apply andb_true_iff in H. destruct H as [H _].
  apply Z.eqb_eq in H. rewrite digits2_log2 in H.
  change (fexp Num.prec Num.emax) with (fexp 53 1024) in H. rewrite fexp_64 in H.
  split; [unfold Num.emin; lia|].
  pose proof (log2_bounds (Zpos m) ltac:(lia)) as [_ U].
  eapply Z.lt_le_trans; [exact U|]. apply Z.pow_le_mono_r; lia.
Qed.

Lemma SFleb_finite_pos (m1 m2 : positive) (e1 e2 : Z) :
  SFleb (S754_finite false m1 e1) (S754_finite false m2 e2) = true ->
  e1 < e2 \/ (e1 = e2 /\ Zpos m1 <= Zpos m2).
Proof.
  unfold SFleb, SFcompare.
  change (Pos.compare_cont Eq m1 m2) with (Pos.compare m1 m2).
  destruct (Z.compare_spec e1 e2); [|now left|discriminate].
  destruct (Pos.compare_spec m1 m2); try discriminate; intros _; right; lia.
Qed.

Lemma below_two_pow_49 (m : positive) (e : Z) :
  Num.emin <= e -> Zpos m < 2 ^ 53 ->
  Num.leb (S754_finite false m e) Ratio.two_pow_49 = true ->
  Num.units m e <= 2 ^ 1123.
Proof.
  intros He Hm H. apply SFleb_finite_pos in H.
  unfold Num.units, Num.emin in *.
  destruct H as [E|[E Hm']].
  - apply Z.le_trans with (2 ^ 53 * 2 ^ (e - -1074)).
    + apply Z.mul_le_mono_nonneg_r; [apply Z.pow_nonneg; lia|lia].
    + rewrite <- Z.pow_add_r by lia. apply Z.pow_le_mono_r; lia.
  - apply Z.le_trans with (4503599627370496 * 2 ^ (e - -1074)).
    + apply Z.mul_le_mono_nonneg_r; [apply Z.pow_nonneg; lia|lia].
    + replace 4503599627370496 with (2 ^ 52) by reflexivity.
      rewrite <- Z.pow_add_r by lia. apply Z.pow_le_mono_r; lia.
Qed.

(** For a positive ratio up to 2^49, the token returned is the
    first-listed one at the smallest distance from the exact values. *)
Lemma positive_first_real_minimum (m : positive) (e : Z) :
  Num.emin <= e -> Zpos m < 2 ^ 53 -> Num.units m e <= 2 ^ 1123 ->
  let k := mapAspectRatioToImagen (S754_finite false m e) in
  let x := Num.scaled (Zpos m) e in
  (forall j, (real_diff x k <= real_diff x j)%Q)
  /\ (forall j, (aspect_index j < aspect_index k)%nat ->
                (real_diff x k < real_diff x j)%Q).
Proof.
  intros He Hm Hb k x.
  destruct (code_first_minimum m e He Hm Hb) as [F1 F2]. fold k in F1, F2.
  pose proof (units_pos m e He) as HW.
  set (G := 2 ^ 1021).
  assert (HG : 0 < G) by (apply Z.pow_pos_nonneg; lia).
  assert (E52 : 2 ^ 52 = 4503599627370496) by reflexivity.
  assert (E53 : 2 ^ 53 = 9007199254740992) by reflexivity.
  assert (Real : exists W D,
             (x == W # D)%Q
             /\ (forall j, nearer_or_equal W (Zpos D) k j)
             /\ (forall j, (aspect_index j < aspect_index k)%nat ->
                           ~ nearer_or_equal W (Zpos D) j k)).
  { destruct (Z_le_gt_dec (-53) e) as [Hgrid|Hfine].
    - (* on the grid *)
      set (rho := Zpos m * 2 ^ (e + 53)).
      assert (HWr : Num.units m e = rho * G).
      { unfold Num.units, rho, G, Num.emin. rewrite <- Z.mul_assoc, <- Z.pow_add_r by lia.
        do 2 f_equal. lia. }
      assert (Hrho : 0 < rho)
        by (unfold rho; apply Z.mul_pos_pos; [lia|apply Z.pow_pos_nonneg; lia]).
      exists rho, 9007199254740992%positive.
      split; [apply (scaled_shift m e 53); lia|].
      apply real_minimum_grid.
      + exact Hrho.
      + intros Hbig.
        assert (He52 : -52 <= e).
        { destruct (Z_le_gt_dec (-52) e); [assumption|].
          assert (e = -53) by lia. subst e. unfold rho in Hbig.
          simpl Z.add in Hbig. rewrite Z.pow_0_r in Hbig.
          rewrite E53 in Hm. lia. }
        exists (Zpos m * 2 ^ (e + 52)). unfold rho.
        replace (e + 53) with (1 + (e + 52)) by lia.
        rewrite Z.pow_add_r by lia. change (2 ^ 1) with 2. lia.
      + intros j. specialize (F1 j).
        rewrite HWr, !ref_units_grid in F1. fold G in F1.
        rewrite !abs_grid in F1 by assumption.
        apply Z.mul_le_mono_pos_r in F1; assumption.
      + intros j Hj. specialize (F2 j Hj).
        rewrite HWr, !ref_units_grid in F2. fold G in F2.
        rewrite !abs_grid in F2 by assumption.
        apply Z.mul_lt_mono_pos_r in F2; assumption.
    - (* below 1/2 *)
      exists (Num.units m e), (Z.to_pos (2 ^ 1074)).
      split.
      { unfold x. replace (Num.units m e) with (Zpos m * 2 ^ (e + 1074))
          by (unfold Num.units, Num.emin; do 2 f_equal; lia).
        apply scaled_shift; unfold Num.emin in He; lia. }
      assert (ED : Zpos (Z.to_pos (2 ^ 1074)) = 9007199254740992 * G).
      { rewrite Z2Pos.id by (apply Z.pow_pos_nonneg; lia).
        unfold G. replace 1074 with (53 + 1021) by lia.
        rewrite Z.pow_add_r by lia. now rewrite E53. }
      rewrite ED.
      apply real_minimum_fine.
      + exact HG.
      + split; [exact HW|].
        unfold Num.units, Num.emin, G in *.
        apply Z.lt_le_trans with (2 ^ 53 * 2 ^ (e - -1074)).
        * apply Z.mul_lt_mono_pos_r; [apply Z.pow_pos_nonneg; lia|assumption].
        * rewrite <- E52, <- !Z.pow_add_r by lia. apply Z.pow_le_mono_r; lia.
      + intros j. specialize (F1 j). now rewrite !ref_units_grid in F1.
      + intros j Hj. specialize (F2 j Hj). now rewrite !ref_units_grid in F2. }
  destruct Real as (W & D & Hx & R1 & R2).
  split.
  - intros j. apply (real_diff_le_iff W D x k j Hx), R1.
  - intros j Hj. apply Qnot_le_lt. intros C.
    apply (R2 j Hj). now apply (real_diff_le_iff W D x j k Hx).
Qed.

Lemma SFleb_finite_neg (m1 m2 : positive) (e1 e2 : Z) :
  SFleb (S754_finite true m1 e1) (S754_finite true m2 e2) = true ->
  e2 < e1 \/ (e2 = e1 /\ Zpos m2 <= Zpos m1).
Proof.
  unfold SFleb, SFcompare.
  change (Pos.compare_cont Eq m1 m2) with (Pos.compare m1 m2).
  destruct (Z.compare_spec e1 e2); [|discriminate|now left].
  destruct (Pos.compare_spec m1 m2); try discriminate; intros _; right; lia.
Qed.

Lemma above_minus_two_pow_48 (m : positive) (e : Z) :
  Num.emin <= e -> Zpos m < 2 ^ 53 ->
  Num.leb Ratio.minus_two_pow_48 (S754_finite true m e) = true ->
  Num.units m e <= 2 ^ 1122.
Proof.
  intros He Hm H. apply SFleb_finite_neg in H.
  unfold Num.units, Num.emin in *.
  destruct H as [E|[E Hm']].
  - apply Z.le_trans with (2 ^ 53 * 2 ^ (e - -1074)).
    + apply Z.mul_le_mono_nonneg_r; [apply Z.pow_nonneg; lia|lia].
    + rewrite <- Z.pow_add_r by lia. apply Z.pow_le_mono_r; lia.
  - apply Z.le_trans with (4503599627370496 * 2 ^ (e - -1074)).
    + apply Z.mul_le_mono_nonneg_r; [apply Z.pow_nonneg; lia|lia].
    + replace 4503599627370496 with (2 ^ 52) by reflexivity.
      rewrite <- Z.pow_add_r by lia. apply Z.pow_le_mono_r; lia.
Qed.

(** The numbers used as bounds and examples are what their names say. *)
Lemma ratio_examples_exact :
  Ratio.two_pow_49 = Num.lit (2 ^ 49)
  /\ Ratio.minus_two_pow_48 = Num.lit (- 2 ^ 48)
  /\ Ratio.two_pow_60 = Num.lit (2 ^ 60)
  /\ Ratio.minus_two_pow_60 = Num.lit (- 2 ^ 60)
  /\ (exists x, Num.to_Q Ratio.two_pow_49 = Some x /\ (x == inject_Z (2 ^ 49))%Q)
  /\ (exists x, Num.to_Q Ratio.minus_two_pow_48 = Some x
                 /\ (x == inject_Z (- 2 ^ 48))%Q)
  /\ (exists x, Num.to_Q Ratio.sixteen_ninths = Some x
                 /\ (Qabs (x - (16 # 9)) < 1 # 9007199254740992)%Q).
Proof.
  repeat split; try (vm_compute; reflexivity);
    eexists; (split; [vm_compute; reflexivity|]); vm_compute; reflexivity.
Qed.

Lemma selected_when_strictly_closest (ratio : Num.number) (k : ImagenAspect) :
  (forall j, j <> k -> Num.ltb (diff_to ratio k) (diff_to ratio j) = true) ->
  mapAspectRatioToImagen ratio = k.
Proof.
  intros H. destruct (mapAspectRatioToImagen_selects ratio) as [A _].
  specialize (A k).
  destruct (aspect_eqb (mapAspectRatioToImagen ratio) k) eqn:E.
  - destruct (mapAspectRatioToImagen ratio), k; try discriminate; reflexivity.
  - rewrite H in A; [discriminate|].
    intros C. rewrite C in E. destruct k; discriminate.
Qed.

(** Every binary64 number from -2^48 to 0 is sent to 9:16. *)
Lemma non_positive_to_9_16 (ratio : Num.number) :
  valid_binary Num.prec Num.emax ratio = true ->
  Num.leb ratio Ratio.zero = true ->
  Num.leb Ratio.minus_two_pow_48 ratio = true ->
  mapAspectRatioToImagen ratio = R9_16.
Proof.
  destruct ratio as [s|s| |s m e]; intros Hv Hle Hge.
  - destruct s; vm_compute; reflexivity.
  - destruct s; discriminate.
  - discriminate.
  - destruct s; [|discriminate].
    destruct (valid_finite true m e Hv) as [He Hm].
    pose proof (above_minus_two_pow_48 m e He Hm Hge) as Hb.
    apply selected_when_strictly_closest. intros j Hj.
    now apply negative_closest_to_9_16.
Qed.

(** Every positive binary64 number up to 2^49 is sent to the
    first-listed token whose exact value is nearest. *)
Lemma positive_to_nearest (ratio : Num.number) (x : Q) :
  valid_binary Num.prec Num.emax ratio = true ->
  Num.ltb Ratio.zero ratio = true ->
  Num.leb ratio Ratio.two_pow_49 = true ->
  Num.to_Q ratio = Some x ->
  (forall j, (real_diff x (mapAspectRatioToImagen ratio) <= real_diff x j)%Q)
  /\ (forall j, (aspect_index j < aspect_index (mapAspectRatioToImagen ratio))%nat ->
                (real_diff x (mapAspectRatioToImagen ratio) < real_diff x j)%Q).
Proof.
  destruct ratio as [s|s| |s m e]; intros Hv Hpos Hle Hx.
  - destruct s; discriminate.
  - destruct s; discriminate.
  - discriminate.
  - destruct s; [discriminate|].
    destruct (valid_finite false m e Hv) as [He Hm].
    pose proof (below_two_pow_49 m e He Hm Hle) as Hb.
    injection Hx as <-.
    exact (positive_first_real_minimum m e He Hm Hb).
Qed.

(** C3, as the code has it.  For every positive binary64 ratio up to
    2^49, the token returned is the one whose exact value (1, 4/3, 3/4,
    16/9, 9/16) is nearest to the ratio, and among equally near ones
    the first in the order 1:1, 4:3, 3:4, 16:9, 9:16: no token is
    strictly nearer, and every token listed before it is strictly
    farther.  The mapper sends 1 to 1:1, the binary64 number 16/9 to
    16:9 and 0.75 to 3:4; 0.65625 is as far from 3/4 as from 9/16 and
    goes to 3:4, 0.875 is as far from 1 as from 3/4 and goes to 1:1. *)
Theorem mapAspectRatioToImagen_nearest :
  (forall ratio x,
      valid_binary Num.prec Num.emax ratio = true ->
      Num.ltb Ratio.zero ratio = true ->
      Num.leb ratio Ratio.two_pow_49 = true ->
      Num.to_Q ratio = Some x ->
      forall j,
        (real_diff x (mapAspectRatioToImagen ratio) <= real_diff x j)%Q
        /\ ((aspect_index j < aspect_index (mapAspectRatioToImagen ratio))%nat ->
            (real_diff x (mapAspectRatioToImagen ratio) < real_diff x j)%Q))
  /\ mapAspectRatioToImagen Ratio.one = R1_1
  /\ mapAspectRatioToImagen Ratio.sixteen_ninths = R16_9
  /\ mapAspectRatioToImagen Ratio.three_quarters = R3_4
  /\ (exists x, Num.to_Q Ratio.twentyone_32nds = Some x
                /\ (x == 21 # 32)%Q
                /\ (real_diff x R3_4 == real_diff x R9_16)%Q
                /\ mapAspectRatioToImagen Ratio.twentyone_32nds = R3_4)
  /\ (exists x, Num.to_Q Ratio.seven_eighths = Some x
                /\ (x == 7 # 8)%Q
                /\ (real_diff x R1_1 == real_diff x R3_4)%Q
                /\ mapAspectRatioToImagen Ratio.seven_eighths = R1_1).
Proof.
  split.
  { intros ratio x Hv Hpos Hle Hx j.
    destruct (positive_to_nearest ratio x Hv Hpos Hle Hx) as [A B].
    split; [apply A | apply B]. }
  split; [vm_compute; reflexivity|].
  split; [vm_compute; reflexivity|].
  split; [vm_compute; reflexivity|].
  split; eexists; (split; [vm_compute; reflexivity|]);
    repeat split; vm_compute; reflexivity.
Qed.

Lemma mapAspectRatioToImagen_nearest_witness :
  (real_diff (6755399441055744 # 9007199254740992)
             (mapAspectRatioToImagen Ratio.three_quarters)
   <= real_diff (6755399441055744 # 9007199254740992) R1_1)%Q.
Proof.
  destruct mapAspectRatioToImagen_nearest as [H _].
  assert (Hv : valid_binary Num.prec Num.emax Ratio.three_quarters = true)
    by (vm_compute; reflexivity).
  assert (Hpos : Num.ltb Ratio.zero Ratio.three_quarters = true)
    by (vm_compute; reflexivity).
  assert (Hle : Num.leb Ratio.three_quarters Ratio.two_pow_49 = true)
    by (vm_compute; reflexivity).
  assert (Hx : Num.to_Q Ratio.three_quarters
               = Some (6755399441055744 # 9007199254740992)%Q)
    by (vm_compute; reflexivity).
  exact (proj1 (H _ _ Hv Hpos Hle Hx R1_1)).
Defined.

(** C3, counterexample.  The ratio 2^60 is a positive binary64 number.
    In binary64 arithmetic its five differences are all 2^60, so the
    mapper answers 1:1; yet 16/9 is strictly nearer to 2^60 than 1
    is. *)
Lemma huge_ratio_is_not_mapped_to_nearest :
  valid_binary Num.prec Num.emax Ratio.two_pow_60 = true
  /\ Num.ltb Ratio.zero Ratio.two_pow_60 = true
  /\ Num.to_Q Ratio.two_pow_60 = Some (inject_Z (2 ^ 60))
  /\ mapAspectRatioToImagen Ratio.two_pow_60 = R1_1
  /\ (real_diff (inject_Z (2 ^ 60)) R16_9 < real_diff (inject_Z (2 ^ 60)) R1_1)%Q.
Proof. repeat split; vm_compute; reflexivity. Qed.

(** C10, as the code has it.  The mapper is total: for every number,
    NaN and the infinities included, it returns one of the five tokens
    and signals nothing.  For every binary64 number from -2^48 to 0
    (both zeros included) the token is 9:16.  For minus infinity, for
    NaN and for -2^60, whose five computed differences coincide, it is
    1:1. *)
Theorem mapAspectRatioToImagen_total :
  (forall ratio, In (mapAspectRatioToImagen ratio) all_aspects)
  /\ (forall ratio,
        valid_binary Num.prec Num.emax ratio = true ->
        Num.leb ratio Ratio.zero = true ->
        Num.leb Ratio.minus_two_pow_48 ratio = true ->
        mapAspectRatioToImagen ratio = R9_16)
  /\ mapAspectRatioToImagen Num.neg_infinity = R1_1
  /\ mapAspectRatioToImagen Num.NaN = R1_1
  /\ mapAspectRatioToImagen Ratio.minus_two_pow_60 = R1_1.
Proof.
  split; [intros ratio; apply every_aspect_listed|].
  split; [exact non_positive_to_9_16|].
  repeat split; vm_compute; reflexivity.
Qed.

Lemma mapAspectRatioToImagen_total_witness :
  mapAspectRatioToImagen Ratio.minus_thousand = R9_16
  /\ mapAspectRatioToImagen Num.neg_zero = R9_16.
Proof.
  destruct mapAspectRatioToImagen_total as [_ [H _]].
  split; apply H; vm_compute; reflexivity.
Defined.

(** C10, counterexample.  Minus infinity and -2^60 are numbers less
    than or equal to 0, and the mapper sends them to 1:1, not 9:16. *)
Lemma non_positive_ratio_not_always_9_16 :
  (Num.leb Num.neg_infinity Ratio.zero = true
   /\ mapAspectRatioToImagen Num.neg_infinity = R1_1)
  /\ (valid_binary Num.prec Num.emax Ratio.minus_two_pow_60 = true
      /\ Num.leb Ratio.minus_two_pow_60 Ratio.zero = true
      /\ mapAspectRatioToImagen Ratio.minus_two_pow_60 = R1_1)
  /\ R1_1 <> R9_16.
Proof.
  repeat split; try (vm_compute; reflexivity). discriminate.
Qed.

(** ** The bands of the mapper *)

(** X14.  Each of the five entries of [supportedRatios] is mapped to
    its own key, so mapping the value of the token the mapper returned
    returns the same token. *)
Theorem mapAspectRatioToImagen_fixes_references :
  (forall k, mapAspectRatioToImagen (ratio_get supportedRatios k) = k)
  /\ (forall ratio,
        mapAspectRatioToImagen
          (ratio_get supportedRatios (mapAspectRatioToImagen ratio))
        = mapAspectRatioToImagen ratio).
Proof.
  assert (F : forall k, mapAspectRatioToImagen (ratio_get supportedRatios k) = k)
    by (intros k; destruct k; vm_compute; reflexivity).
  split; [exact F|]. intros ratio. apply F.
Qed.

Lemma real_diff_lt_iff (x : Q) (a b : ImagenAspect) :
  (real_diff x a < real_diff x b)%Q
  <-> ~ nearer_or_equal (Qnum x) (Zpos (Qden x)) b a.
Proof.
  assert (Hx : (x == Qnum x # Qden x)%Q) by (destruct x; reflexivity).
  rewrite <- (real_diff_le_iff (Qnum x) (Qden x) x b a Hx).
  split; [apply Qlt_not_le|apply Qnot_le_lt].
Qed.

Lemma real_diff_le_iff' (x : Q) (a b : ImagenAspect) :
  (real_diff x a <= real_diff x b)%Q
  <-> nearer_or_equal (Qnum x) (Zpos (Qden x)) a b.
Proof.
  apply real_diff_le_iff. destruct x; reflexivity.
Qed.

(** The first-listed nearest token, by the position of the ratio
    among the midpoints 21/32, 7/8, 7/6 and 14/9. *)
Lemma first_nearest_band (x : Q) (k : ImagenAspect) :
  (forall j, (real_diff x k <= real_diff x j)%Q) ->
  (forall j, (aspect_index j < aspect_index k)%nat ->
             (real_diff x k < real_diff x j)%Q) ->
  match k with
  | R9_16 => (x < 21 # 32)%Q
  | R3_4 => (21 # 32 <= x)%Q /\ (x < 7 # 8)%Q
  | R1_1 => (7 # 8 <= x)%Q /\ (x <= 7 # 6)%Q
  | R4_3 => (7 # 6 < x)%Q /\ (x <= 14 # 9)%Q
  | R16_9 => (14 # 9 < x)%Q
  end.
Proof.
  intros A B.
  assert (A' : forall j, nearer_or_equal (Qnum x) (Zpos (Qden x)) k j)
    by (intros j; apply real_diff_le_iff', A).
  assert (B' : forall j, (aspect_index j < aspect_index k)%nat ->
                         ~ nearer_or_equal (Qnum x) (Zpos (Qden x)) j k)
    by (intros j Hj; apply real_diff_lt_iff, B, Hj).
  clear A B. destruct x as [n d]. cbn [Qnum Qden] in *.
  unfold Qlt, Qle. cbn [Qnum Qden].
  destruct k; instantiate_minimum A' B';
    unfold nearer_or_equal, real_value in *; cbn [Qnum Qden] in *; lia.
Qed.

(** X15.  For every positive binary64 ratio [x] up to 2^49 the
    result is decided by the midpoints between neighbouring
    references: 9:16 below 21/32, 3:4 from 21/32 to below 7/8, 1:1
    from 7/8 to 7/6, 4:3 above 7/6 up to 14/9, and 16:9 above 14/9. *)
Theorem mapAspectRatioToImagen_bands (ratio : Num.number) (x : Q) :
  valid_binary Num.prec Num.emax ratio = true ->
  Num.ltb Ratio.zero ratio = true ->
  Num.leb ratio Ratio.two_pow_49 = true ->
  Num.to_Q ratio = Some x ->
  (mapAspectRatioToImagen ratio = R9_16 <-> (x < 21 # 32)%Q)
  /\ (mapAspectRatioToImagen ratio = R3_4 <-> (21 # 32 <= x)%Q /\ (x < 7 # 8)%Q)
  /\ (mapAspectRatioToImagen ratio = R1_1 <-> (7 # 8 <= x)%Q /\ (x <= 7 # 6)%Q)
  /\ (mapAspectRatioToImagen ratio = R4_3 <-> (7 # 6 < x)%Q /\ (x <= 14 # 9)%Q)
  /\ (mapAspectRatioToImagen ratio = R16_9 <-> (14 # 9 < x)%Q).
Proof.
  intros Hv Hpos Hle Hx.
  destruct (positive_to_nearest ratio x Hv Hpos Hle Hx) as [A B].
  pose proof (first_nearest_band x _ A B) as H.
  destruct x as [n d]. unfold Qlt, Qle in *. cbn [Qnum Qden] in *.
  destruct (mapAspectRatioToImagen ratio);
    repeat split; intros; try discriminate; try reflexivity; try lia.
Qed.

Lemma mapAspectRatioToImagen_bands_witness :
  mapAspectRatioToImagen (Num.div (Num.lit 3) (Num.lit 2)) = R4_3.
Proof.
  assert (Hv : valid_binary Num.prec Num.emax (Num.div (Num.lit 3) (Num.lit 2)) = true)
    by (vm_compute; reflexivity).
  assert (Hpos : Num.ltb Ratio.zero (Num.div (Num.lit 3) (Num.lit 2)) = true)
    by (vm_compute; reflexivity).
  assert (Hle : Num.leb (Num.div (Num.lit 3) (Num.lit 2)) Ratio.two_pow_49 = true)
    by (vm_compute; reflexivity).
  assert (Hx : Num.to_Q (Num.div (Num.lit 3) (Num.lit 2))
               = Some (6755399441055744 # 4503599627370496)%Q)
    by (vm_compute; reflexivity).
  destruct (mapAspectRatioToImagen_bands _ _ Hv Hpos Hle Hx)
    as (_ & _ & _ & H & _).
  apply H. unfold Qlt, Qle. simpl. lia.
Defined.

(** ** Monotonicity *)

(** A valid number above the smallest exponent has a full mantissa. *)
Lemma valid_normal (s : bool) (m : positive) (e : Z) :
  valid_binary Num.prec Num.emax (S754_finite s m e) = true ->
  Num.emin < e -> 2 ^ 52 <= Zpos m.
Proof.
  unfold valid_binary, bounded, canonical_mantissa.
  intros H He. apply andb_true_iff in H. destruct H as [H _].
  apply Z.eqb_eq in H. rewrite digits2_log2 in H.
  change (fexp Num.prec Num.emax) with (fexp 53 1024) in H. rewrite fexp_64 in H.
  unfold Num.emin in He.
  assert (L : Z.log2 (Zpos m) = 52) by lia.
  pose proof (log2_bounds (Zpos m) ltac:(lia)) as [Lo _].
  now rewrite L in Lo.
Qed.

(** The order of positive numbers is the order of their magnitudes. *)
Lemma leb_units (m1 m2 : positive) (e1 e2 : Z) :
  valid_binary Num.prec Num.emax (S754_finite false m1 e1) = true ->
  valid_binary Num.prec Num.emax (S754_finite false m2 e2) = true ->
  Num.leb (S754_finite false m1 e1) (S754_finite false m2 e2) = true ->
  Num.units m1 e1 <= Num.units m2 e2.
Proof.
  intros V1 V2 H.
  destruct (valid_finite false m1 e1 V1) as [He1 Hm1].
  destruct (valid_finite false m2 e2 V2) as [He2 Hm2].
  apply SFleb_finite_pos in H. unfold Num.units.
  destruct H as [Hlt|[-> Hm]].
  - pose proof (valid_normal false m2 e2 V2 ltac:(lia)) as N2.
    unfold Num.emin in *.
    assert (P1 : 0 < 2 ^ (e1 - -1074)) by (apply Z.pow_pos_nonneg; lia).
    assert (P2 : 0 < 2 ^ (e2 - -1074)) by (apply Z.pow_pos_nonneg; lia).
    apply Z.le_trans with (2 ^ 53 * 2 ^ (e1 - -1074)).
    { apply Z.mul_le_mono_nonneg_r; lia. }
    apply Z.le_trans with (2 ^ 52 * 2 ^ (e2 - -1074)).
    { rewrite <- !Z.pow_add_r by lia. apply Z.pow_le_mono_r; lia. }
    apply Z.mul_le_mono_nonneg_r; lia.
  - apply Z.mul_le_mono_nonneg_r; [|assumption].
    apply Z.pow_nonneg. lia.
Qed.

Lemma scaled_units (m : positive) (e : Z) :
  Num.emin <= e ->
  (Num.scaled (Zpos m) e == Num.units m e # Z.to_pos (2 ^ 1074))%Q.
Proof.
  intros He. unfold Num.units, Num.emin in *.
  replace (e - -1074) with (e + 1074) by lia.
  apply scaled_shift; lia.
Qed.

Lemma leb_to_Q (m1 m2 : positive) (e1 e2 : Z) :
  valid_binary Num.prec Num.emax (S754_finite false m1 e1) = true ->
  valid_binary Num.prec Num.emax (S754_finite false m2 e2) = true ->
  Num.leb (S754_finite false m1 e1) (S754_finite false m2 e2) = true ->
  (Num.scaled (Zpos m1) e1 <= Num.scaled (Zpos m2) e2)%Q.
Proof.
  intros V1 V2 H.
  destruct (valid_finite false m1 e1 V1) as [He1 _].
  destruct (valid_finite false m2 e2 V2) as [He2 _].
  pose proof (leb_units m1 m2 e1 e2 V1 V2 H) as U.
  rewrite (scaled_units m1 e1 He1), (scaled_units m2 e2 He2).
  unfold Qle. cbn [Qnum Qden].
  apply Z.mul_le_mono_nonneg_r; [apply Pos2Z.is_nonneg|assumption].
Qed.

Lemma band_order (x1 x2 : Q) (k1 k2 : ImagenAspect) :
  (x1 <= x2)%Q ->
  match k1 with
  | R9_16 => (x1 < 21 # 32)%Q
  | R3_4 => (21 # 32 <= x1)%Q /\ (x1 < 7 # 8)%Q
  | R1_1 => (7 # 8 <= x1)%Q /\ (x1 <= 7 # 6)%Q
  | R4_3 => (7 # 6 < x1)%Q /\ (x1 <= 14 # 9)%Q
  | R16_9 => (14 # 9 < x1)%Q
  end ->
  match k2 with
  | R9_16 => (x2 < 21 # 32)%Q
  | R3_4 => (21 # 32 <= x2)%Q /\ (x2 < 7 # 8)%Q
  | R1_1 => (7 # 8 <= x2)%Q /\ (x2 <= 7 # 6)%Q
  | R4_3 => (7 # 6 < x2)%Q /\ (x2 <= 14 # 9)%Q
  | R16_9 => (14 # 9 < x2)%Q
  end ->
  (real_value k1 <= real_value k2)%Q.
Proof.
  intros H12 B1 B2.
  destruct k1, k2; unfold real_value; lra.
Qed.

(** X16.  On the binary64 numbers from -2^48 to 2^49 the mapper is
    monotone: a larger ratio is never mapped to a token of smaller
    value. *)
Theorem mapAspectRatioToImagen_monotone (a b : Num.number) :
  valid_binary Num.prec Num.emax a = true ->
  valid_binary Num.prec Num.emax b = true ->
  Num.leb Ratio.minus_two_pow_48 a = true ->
  Num.leb a b = true ->
  Num.leb b Ratio.two_pow_49 = true ->
  (real_value (mapAspectRatioToImagen a) <= real_value (mapAspectRatioToImagen b))%Q.
Proof.
  intros Va Vb Hlo Hab Hhi.
  destruct (Num.leb a Ratio.zero) eqn:Hz.
  { rewrite (non_positive_to_9_16 a Va Hz Hlo).
    destruct (mapAspectRatioToImagen b); unfold real_value; lra. }
  destruct a as [sa|[|]| |[|] ma ea];
    [discriminate Hz|discriminate Hlo| |discriminate Hlo|discriminate Hz|].
  { destruct b as [sb|[|]| |sb mb eb];
      [discriminate Hab|discriminate Hab|discriminate Hhi
      |discriminate Hab|discriminate Hab]. }
  destruct b as [sb|[|]| |[|] mb eb];
    [discriminate Hab|discriminate Hab|discriminate Hhi
    |discriminate Hab|discriminate Hab|].
  destruct (valid_finite false ma ea Va) as [Hea Hma].
  destruct (valid_finite false mb eb Vb) as [Heb Hmb].
  pose proof (below_two_pow_49 mb eb Heb Hmb Hhi) as Ub.
  pose proof (leb_units ma mb ea eb Va Vb Hab) as Uab.
  destruct (positive_first_real_minimum ma ea Hea Hma ltac:(lia)) as [A1 B1].
  destruct (positive_first_real_minimum mb eb Heb Hmb Ub) as [A2 B2].
  apply (band_order (Num.scaled (Zpos ma) ea) (Num.scaled (Zpos mb) eb)).
  - now apply leb_to_Q.
  - exact (first_nearest_band _ _ A1 B1).
  - exact (first_nearest_band _ _ A2 B2).
Qed.

Lemma mapAspectRatioToImagen_monotone_witness :
  (real_value (mapAspectRatioToImagen Ratio.minus_thousand)
   <= real_value (mapAspectRatioToImagen Ratio.sixteen_ninths))%Q.
Proof.
  apply mapAspectRatioToImagen_monotone; vm_compute; reflexivity.
Defined.

(** ** Ratios of large magnitude *)











